(** * Optimal-statistic post-processing of the 12.5-year stochastic analysis

    A shallow embedding of the numerical glue found in the notebooks:
    [weightedavg], [bin_crosscorr], the fixed-count binning loop,
    [get_HD_curve], the burn-in cut and the percentile upper limit.

    The arithmetic of the notebooks is binary64.  The definitions that only
    use [+ * / sqrt] and comparisons are written once over an interface
    [Scalar] and read at two instances: [float] (the primitive binary64
    numbers, which evaluate) and [R] (exact arithmetic).  [get_HD_curve]
    calls [np.cos] and [np.log]: it is read over [R], and over binary64 with
    the two calls answering a nearest binary64 number.  The burn-in is read
    with the fraction as an exact rational and, as the notebooks run it on
    the array [np.loadtxt] returns, in binary64 ([Chain]). *)

From Stdlib Require Import Reals Floats Uint63 List Lra Lia ZArith QArith Qround.
From Stdlib Require Import Permutation Sorted Bool Arith Psatz.
Import ListNotations.

(** ** Python outcomes *)

Inductive exn : Type :=
| ZeroDivisionError
| IndexError.

Inductive result (A : Type) : Type :=
| Ok (a : A)
| Raise (e : exn).

Arguments Ok {A} a.
Arguments Raise {A} e.

Definition bind {A B : Type} (m : result A) (k : A -> result B) : result B :=
  match m with
  | Ok a => k a
  | Raise e => Raise e
  end.

Notation "x <- m ;; k" := (bind m (fun x => k))
  (at level 61, m at next level, right associativity).

(** ** The arithmetic interface *)

Declare Scope num_scope.
Delimit Scope num_scope with num.

Class Scalar (T : Type) : Type := {
  num0 : T;
  num1 : T;
  num10 : T;
  nadd : T -> T -> T;
  nmul : T -> T -> T;
  ndiv : T -> T -> T;
  nsqrt : T -> T;
  nleb : T -> T -> bool;
  nltb : T -> T -> bool
}.

Notation "x + y" := (nadd x y) : num_scope.
Notation "x * y" := (nmul x y) : num_scope.
Notation "x / y" := (ndiv x y) : num_scope.

(** binary64, as Python's [float] and numpy's [float64] *)
#[export] Instance float_scalar : Scalar float := {
  num0 := PrimFloat.zero;
  num1 := PrimFloat.one;
  num10 := PrimFloat.of_uint63 10%uint63;
  nadd := PrimFloat.add;
  nmul := PrimFloat.mul;
  ndiv := PrimFloat.div;
  nsqrt := PrimFloat.sqrt;
  nleb := PrimFloat.leb;
  nltb := PrimFloat.ltb
}.

Definition Rleb (x y : R) : bool := if Rle_dec x y then true else false.
Definition Rltb (x y : R) : bool := if Rlt_dec x y then true else false.

(** exact arithmetic *)
#[export] Instance R_scalar : Scalar R := {
  num0 := 0%R;
  num1 := 1%R;
  num10 := 10%R;
  nadd := Rplus;
  nmul := Rmult;
  ndiv := Rdiv;
  nsqrt := R_sqrt.sqrt;
  nleb := Rleb;
  nltb := Rltb
}.

(** ** [weightedavg] *)

Section WeightedAvg.
Context {T : Type} `{Scalar T}.
Local Open Scope num_scope.

(** One turn of [for r,s in zip(rho,sig)]:
    [weights += 1./(s*s)] and [avg += r/(s*s)]. *)
Definition weightedavg_step (acc : T * T) (rs : T * T) : T * T :=
  let '(weights, avg) := acc in
  let '(r, s) := rs in
  (weights + num1 / (s * s), avg + r / (s * s)).

(** [def weightedavg(rho, sig)].  The accumulators start as the Python
    floats [0.]; the data are numpy [float64] items, so after one turn
    [weights] is a numpy scalar and [avg/weights] follows IEEE 754.  When
    [zip(rho,sig)] is empty [weights] is still the Python float [0.] and
    [avg/weights] raises [ZeroDivisionError]. *)
Definition weightedavg (rho sig : list T) : result (T * T) :=
  let '(weights, avg) :=
    fold_left weightedavg_step (combine rho sig) (num0, num0) in
  match combine rho sig with
  | [] => Raise ZeroDivisionError
  | _ :: _ => Ok (avg / weights, nsqrt (num1 / weights))
  end.

(** The closed form in the words of the specification: sums over the
    index [i], taken in index order starting from zero. *)
Definition sigma_sum (f : nat -> T) (n : nat) : T :=
  fold_left (fun acc i => acc + f i) (seq 0 n) num0.

Definition weighted_average_closed_form (rho sigma : list T) : T * T :=
  let n := length rho in
  let sq x := x * x in
  let num := sigma_sum (fun i => nth i rho num0 / sq (nth i sigma num0)) n in
  let den := sigma_sum (fun i => num1 / sq (nth i sigma num0)) n in
  (num / den, nsqrt (num1 / den)).

(** Python's [min] and [max] over a non-empty sequence. *)
Definition list_min (l : list T) : T :=
  match l with
  | [] => num0
  | x :: l' => fold_left (fun m y => if nltb y m then y else m) l' x
  end.

Definition list_max (l : list T) : T :=
  match l with
  | [] => num0
  | x :: l' => fold_left (fun m y => if nltb m y then y else m) l' x
  end.

Definition positive (s : T) : Prop := nltb num0 s = true.

(** "mu lies within [min(rho), max(rho)]" *)
Definition mean_in_range (rho sig : list T) : Prop :=
  exists mu smu,
    weightedavg rho sig = Ok (mu, smu) /\
    nleb (list_min rho) mu = true /\ nleb mu (list_max rho) = true.
End WeightedAvg.

(** ** numpy indexing *)

Section Indexing.
Variable A : Type.

(** [a[i:j]] for non-negative [i], [j]: out-of-range bounds are clipped. *)
Definition slice (a : list A) (i j : nat) : list A :=
  firstn (j - i) (skipn i a).

(** [a[idx]] with an integer index array: every index must be in range. *)
Fixpoint fancy_index (a : list A) (idx : list nat) : result (list A) :=
  match idx with
  | [] => Ok []
  | i :: idx' =>
      match nth_error a i with
      | None => Raise IndexError
      | Some v => rest <- fancy_index a idx' ;; Ok (v :: rest)
      end
  end.

(** [a[i] = v] for an index in range. *)
Fixpoint set_item (a : list A) (i : nat) (v : A) : list A :=
  match a, i with
  | [], _ => []
  | _ :: a', O => v :: a'
  | x :: a', S i' => x :: set_item a' i' v
  end.

(** [a[start:]] for any integer [start]; a negative [start] counts from
    the end. *)
Definition slice_from (a : list A) (start : Z) : list A :=
  let n := Z.of_nat (length a) in
  let start' := if (start <? 0)%Z then Z.max 0 (start + n) else start in
  skipn (Z.to_nat start') a.

(** [enumerate(a)] *)
Definition enumerate (a : list A) : list (nat * A) :=
  combine (seq 0 (length a)) a.
End Indexing.

Arguments slice {A} a i j.
Arguments fancy_index {A} a idx.
Arguments set_item {A} a i v.
Arguments slice_from {A} a start.
Arguments enumerate {A} a.

(** ** [bin_crosscorr]: bins of fixed width *)

Section FixedWidth.
Context {T : Type} `{Scalar T}.
Local Open Scope num_scope.

(** [x >= z and x < (z+10.)] *)
Definition in_bin (z x : T) : bool := nleb z x && nltb x (z + num10).

(** The inner loop: [myrhos], [mysigs] collect the pairs that pass the test. *)
Definition collect_step (z : T) (acc : list T * list T) (xrs : T * (T * T))
  : list T * list T :=
  let '(myrhos, mysigs) := acc in
  let '(x, (r, s)) := xrs in
  if in_bin z x then (myrhos ++ [r], mysigs ++ [s]) else (myrhos, mysigs).

Definition bin_members (z : T) (xi rho sig : list T) : list T * list T :=
  fold_left (collect_step z) (combine xi (combine rho sig)) ([], []).

(** The outer loop over [enumerate(zeta[:-1])]. *)
Fixpoint bin_crosscorr_loop (zs : list (nat * T)) (xi rho sig : list T)
         (out : list T * list T) : result (list T * list T) :=
  match zs with
  | [] => Ok out
  | (i, z) :: zs' =>
      let '(myrhos, mysigs) := bin_members z xi rho sig in
      avg <- weightedavg myrhos mysigs ;;
      bin_crosscorr_loop zs' xi rho sig
        (set_item (fst out) i (fst avg), set_item (snd out) i (snd avg))
  end.

(** "Bin [z] holds no pair": no [xi] passes the test of the inner loop. *)
Definition no_member (z : T) (xi rho sig : list T) : Prop :=
  Forall (fun xrs : T * (T * T) => in_bin z (fst xrs) = false)
         (combine xi (combine rho sig)).

(** [def bin_crosscorr(zeta, xi, rho, sig)]; both outputs start as
    [np.zeros(len(zeta))]. *)
Definition bin_crosscorr (zeta xi rho sig : list T) : result (list T * list T) :=
  let zeros := repeat num0 (length zeta) in
  bin_crosscorr_loop (enumerate (removelast zeta)) xi rho sig (zeros, zeros).
End FixedWidth.

(** ** Bins with a fixed number of pairs *)

Section FixedCount.
Context {T : Type} `{Scalar T}.
Local Open Scope num_scope.

(** What numpy promises of [idx = np.argsort(xi)] with the default kind:
    [idx] lists every position once and [xi[idx]] is ascending.  The
    default kind is not a stable sort, so nothing more is known of [idx]. *)
Definition argsort_ok (xi : list T) (idx : list nat) : Prop :=
  Permutation idx (seq 0 (length xi)) /\
  Sorted (fun a b => nleb a b = true) (map (fun i => nth i xi num0) idx).

(** One bin of the loop.  [bin_xi] is the slice handed to [np.mean] and
    [np.std] (giving [xi_mean], [xi_err]); [bin_rho] and [bin_sig] are the
    slices handed to [weightedavg], whose answer is [rho_avg], [sig_avg]. *)
Record bin : Type := mk_bin {
  bin_xi : list T;
  bin_rho : list T;
  bin_sig : list T;
  rho_avg : T;
  sig_avg : T
}.

(** [i = 0; while i < len(xi_sorted): ...; i += npairs].  [fuel] bounds the
    number of turns; [None] means the loop has not finished within it. *)
Fixpoint binning_loop (fuel npairs : nat) (xi_sorted rho_sorted sig_sorted : list T)
         (i : nat) (bins : list bin) : option (result (list bin)) :=
  match fuel with
  | O => None
  | S fuel' =>
      if i <? length xi_sorted then
        let xs := slice xi_sorted i (npairs + i) in
        let rs := slice rho_sorted i (npairs + i) in
        let ss := slice sig_sorted i (npairs + i) in
        match weightedavg rs ss with
        | Raise e => Some (Raise e)
        | Ok (r, s) =>
            binning_loop fuel' npairs xi_sorted rho_sorted sig_sorted
                         (i + npairs) (bins ++ [mk_bin xs rs ss r s])
        end
      else Some (Ok bins)
  end.

(** [xi_sorted = xi[idx]], [rho_sorted = rho[idx]], [sig_sorted = sig[idx]] *)
Definition sort_by_xi (xi rho sig : list T) (idx : list nat)
  : result (list T * list T * list T) :=
  xi_sorted <- fancy_index xi idx ;;
  rho_sorted <- fancy_index rho idx ;;
  sig_sorted <- fancy_index sig idx ;;
  Ok (xi_sorted, rho_sorted, sig_sorted).

(** The binning cell, with [idx] the answer of [np.argsort(xi)]. *)
Definition fixed_count_binning (fuel npairs : nat) (xi rho sig : list T)
           (idx : list nat) : option (result (list bin)) :=
  match sort_by_xi xi rho sig idx with
  | Raise e => Some (Raise e)
  | Ok (xi_sorted, rho_sorted, sig_sorted) =>
      binning_loop fuel npairs xi_sorted rho_sorted sig_sorted 0 []
  end.

(** The (xi, rho, sigma) triples of some parallel arrays. *)
Definition triples (xi rho sig : list T) : list (T * (T * T)) :=
  combine xi (combine rho sig).

Definition bin_triples (b : bin) : list (T * (T * T)) :=
  triples (bin_xi b) (bin_rho b) (bin_sig b).

(** ceil(m/n) on natural numbers *)
Definition ceil_div (m n : nat) : nat := (m + n - 1) / n.

(** "Exactly one bin holding every pair, whose weighted average is that of
    the unbinned, unsorted arrays" *)
Definition single_bin_matches_unbinned (npairs : nat) (xi rho sig : list T)
           (idx : list nat) : Prop :=
  exists b : bin,
    (forall fuel : nat, (length xi < fuel)%nat ->
       fixed_count_binning fuel npairs xi rho sig idx = Some (Ok [b])) /\
    Permutation (bin_triples b) (triples xi rho sig) /\
    weightedavg (bin_rho b) (bin_sig b) = Ok (rho_avg b, sig_avg b) /\
    weightedavg rho sig = Ok (rho_avg b, sig_avg b).

(** Stability of the sort behind [idx]: positions holding equal [xi] keep
    their input order. *)
Definition stable_order (xi : list T) (idx : list nat) : Prop :=
  forall a b : nat,
    (a < b < length idx)%nat ->
    nth (nth a idx O) xi num0 = nth (nth b idx O) xi num0 ->
    (nth a idx O < nth b idx O)%nat.
End FixedCount.

(** ** [get_HD_curve] *)

Section HellingsDowns.
Local Open Scope R_scope.

(** [def get_HD_curve(zeta)] in exact arithmetic: [np.cos] and [np.log] are
    the real cosine and natural logarithm and no operation rounds.  The
    binary64 reading is [get_HD_curve_binary64] below. *)
Definition get_HD_curve (zeta : R) : R :=
  let coszeta := cos (zeta * PI / 180) in
  let xip := (1 - coszeta) / 2 in
  let HD := 3 * (1 / 3 + xip * (ln xip - 1 / 6)) in
  HD / 2.

(** The template in the words of the specification. *)
Definition hellings_downs_closed_form (zeta : R) : R :=
  let x := (1 - cos (zeta * PI / 180)) / 2 in
  3 / 2 * (1 / 3 + x * (ln x - 1 / 6)).
End HellingsDowns.

(** ** [get_HD_curve] in binary64 *)

Section Binary64.
Local Open Scope R_scope.

(** The real number a binary64 number stands for; 0 for the infinities and
    nan, which [is_finite] tells apart. *)
Definition SF2R (x : spec_float) : R :=
  match x with
  | S754_finite s m e =>
      let magnitude :=
        match e with
        | Zneg k => IZR (Zpos m) / IZR (2 ^ Zpos k)
        | _ => IZR (Zpos m * 2 ^ e)
        end in
      if s then - magnitude else magnitude
  | _ => 0
  end.

Definition B2R (x : float) : R := SF2R (Prim2SF x).

Definition is_finite (x : float) : bool :=
  match Prim2SF x with
  | S754_zero _ | S754_finite _ _ _ => true
  | _ => false
  end.

(** [y] is a binary64 number nearest to the real number [exact]. *)
Definition rounds_to (exact : R) (y : float) : Prop :=
  is_finite y = true /\
  forall z : float, is_finite z = true ->
    Rabs (B2R y - exact) <= Rabs (B2R z - exact).

(** [np.cos(x)] is the library's: it answers a binary64 number nearest to
    the cosine, and nan for an infinity or nan. *)
Definition np_cos_returns (x y : float) : Prop :=
  if is_finite x then rounds_to (cos (B2R x)) y else PrimFloat.is_nan y = true.

(** [np.log(x)] is the library's: minus infinity at zero, a binary64 number
    nearest to the logarithm of a positive number, infinity at infinity and
    nan for a negative number or nan. *)
Definition np_log_returns (x y : float) : Prop :=
  match Prim2SF x with
  | S754_zero _ => y = neg_infinity
  | S754_finite false _ _ => rounds_to (ln (B2R x)) y
  | S754_infinity false => y = infinity
  | _ => PrimFloat.is_nan y = true
  end.

(** [np.pi] *)
Definition np_pi : float := 0x1.921fb54442d18p+1%float.

(** [def get_HD_curve(zeta)] on a binary64 angle: every operation of the
    body is the binary64 one, and the two library calls answer as above. *)
Inductive get_HD_curve_binary64 (zeta : float) : float -> Prop :=
| get_HD_curve_run (coszeta logxip : float) :
    np_cos_returns (zeta * np_pi / 180)%float coszeta ->
    np_log_returns ((1 - coszeta) / 2)%float logxip ->
    get_HD_curve_binary64 zeta
      (let xip := ((1 - coszeta) / 2)%float in
       let HD := (3 * (1 / 3 + xip * (logxip - 1 / 6)))%float in
       (HD / 2)%float).
End Binary64.

(** The angles 1e-7 and 2^-200 degrees. *)
Definition zeta_tiny : float := 0x1.ad7f29abcaf48p-24%float.
Definition zeta_tinier : float := 0x1p-200%float.

(** ** The burn-in cut *)

Section Burn.
Variable row : Type.

(** [int(x)] truncates toward zero. *)
Definition py_int (x : Q) : Z := Z.quot (Qnum x) (Zpos (Qden x)).

(** [burn = int(0.25 * chain.shape[0])] in exact arithmetic, with the
    fraction as a rational parameter.  At the notebooks' fraction [1 # 4]
    this is the number the binary64 product gives ([Chain.burn] below); at a
    fraction that is not a binary64 number it need not be. *)
Definition burn (burn_fraction : Q) (chain : list row) : Z :=
  py_int (burn_fraction * inject_Z (Z.of_nat (length chain))).

(** The rows [chain[burn:, ...]] keeps of a two-dimensional chain given by
    its rows: the cut along the first axis alone, which does not raise.  The
    cut with its second index, on the array [np.loadtxt] returns, is
    [Chain.cut] below. *)
Definition trim (burn_fraction : Q) (chain : list row) : result (list row) :=
  Ok (slice_from chain (burn burn_fraction chain)).
End Burn.

Arguments burn {row} burn_fraction chain.
Arguments trim {row} burn_fraction chain.

(** ** The upper limit *)

Section UpperLimit.
Local Open Scope R_scope.

Fixpoint insert_sorted (x : R) (l : list R) : list R :=
  match l with
  | [] => [x]
  | y :: l' => if Rle_dec x y then x :: l else y :: insert_sorted x l'
  end.

(** The order statistics of the samples. *)
Definition order_statistics (a : list R) : list R :=
  fold_right insert_sorted [] a.

(** Modelled from the spec: [np.percentile(a, q)] is numpy's and not among
    the sources.  The specification has the quantile "computed via linear
    interpolation between order statistics", which is numpy's default
    method: interpolate between the two order statistics around the position
    [(n-1)*q/100].  An empty [a] has no percentile (numpy answers [nan]). *)
Definition np_percentile (a : list R) (q : R) : option R :=
  match a with
  | [] => None
  | _ :: _ =>
      let s := order_statistics a in
      let n := length a in
      let h := INR (n - 1) * (q / 100) in
      let lo := Z.to_nat (Zfloor h) in
      let hi := Nat.min (lo + 1) (n - 1) in
      let g := h - INR lo in
      Some (nth lo s 0 + (nth hi s 0 - nth lo s 0) * g)
  end.

(** [upper = 10**np.percentile(samples, q=95)], with the quantile as a
    parameter. *)
Definition upper (samples : list R) (q : R) : option R :=
  option_map (Rpower 10) (np_percentile samples q).
End UpperLimit.

(** ** Sample inputs *)

Definition f07 : float := 0x1.6666666666666p-1%float.   (* 0.7 *)
Definition f3 : float := PrimFloat.of_uint63 3%uint63.   (* 3.0 *)
Definition f5 : float := PrimFloat.of_uint63 5%uint63.   (* 5.0 *)
Definition f7 : float := PrimFloat.of_uint63 7%uint63.   (* 7.0 *)
Definition f10 : float := PrimFloat.of_uint63 10%uint63. (* 10.0 *)

(** Bin positions 0 and 10 with one pair at xi = 5; positions 0, 5, 10 with
    one pair at xi = 7. *)
Definition zeta_two : list float := [PrimFloat.zero; f10].
Definition zeta_close : list float := [PrimFloat.zero; f5; f10].

(** Three pairs and the positions that sort them by xi. *)
Definition xi3 : list float := [f3; f07; f10].
Definition rho3 : list float := [f07; f3; f07].
Definition sig3 : list float := [f3; f3; f07].
Definition idx3 : list nat := [1; 0; 2]%nat.

(** Twenty pairs that all have the same xi, and positions that sort them
    while reversing the pairs at places 1 to 17. *)
Definition xi_tie : list float := repeat f07 20.
Definition rho_tie : list float :=
  map (fun k => PrimFloat.of_uint63 (Uint63.of_Z (Z.of_nat k))) (seq 1 20).
Definition sig_tie : list float := repeat f3 20.
Definition idx_tie : list nat := (0 :: rev (seq 1 17) ++ [18; 19])%nat.

(** 66 pairs given in descending order of xi: xi_k = (66-k)/32,
    rho_k = 1/(k+1), sig_k = 1 for k = 0..65. *)
Definition counting66 : list float :=
  map (fun k => PrimFloat.of_uint63 (Uint63.of_Z (Z.of_nat k))) (seq 1 66).
Definition xi66 : list float :=
  rev (map (fun k => PrimFloat.div k (PrimFloat.of_uint63 32%uint63)) counting66).
Definition rho66 : list float := map (fun k => PrimFloat.div PrimFloat.one k) counting66.
Definition sig66 : list float := repeat PrimFloat.one 66.
Definition idx66 : list nat := rev (seq 0 66).

(** 66 pairs over the reals, already in ascending order of xi. *)
Definition xi66_exact : list R := map (fun k => IZR (Z.of_nat k)) (seq 0 66).
Definition rho66_exact : list R := map (fun k => IZR (Z.of_nat k)) (seq 1 66).
Definition sig66_exact : list R := repeat 1%R 66.

From Stdlib Require Strings.String Strings.Ascii.
Import String.StringSyntax Ascii.AsciiSyntax.
Delimit Scope string_scope with string.
Delimit Scope char_scope with char.

(** ** More sample inputs *)

(** Two pairs over the reals, given in descending order of xi. *)
Definition xi2_exact : list R := [2%R; 1%R].
Definition rho2_exact : list R := [3%R; 4%R].
Definition sig2_exact : list R := [1%R; 1%R].
Definition idx2 : list nat := [1; 0]%nat.

(** ** The plotted curve *)

Section HellingsDownsPlot.
Local Open Scope R_scope.

(** [np.linspace(start, stop, num)] for [num >= 2], over exact numbers:
    [num] evenly spaced points from [start] to [stop], both included. *)
Definition linspace (start stop : R) (num : nat) : list R :=
  map (fun k => start + INR k * ((stop - start) / INR (num - 1))) (seq 0 num).

(** [zeta = np.linspace(0.01,180,100)] and [HD = get_HD_curve(zeta+1)]:
    the points of the dashed curve before the scaling by [OS], abscissa
    first. *)
Definition HD_plot_points : list (R * R) :=
  map (fun zeta => (zeta, get_HD_curve (zeta + 1))) (linspace (1 / 100) 180 100).
End HellingsDownsPlot.

(** ** Drawing rows of the chain *)

(** Outcomes of the cells that look names up and draw rows: these can raise
    [ValueError] as well as [IndexError]. *)
Inductive outcome (A : Type) : Type :=
| Returned (a : A)
| ValueErrorRaised
| IndexErrorRaised.

Arguments Returned {A} a.
Arguments ValueErrorRaised {A}.
Arguments IndexErrorRaised {A}.

Definition and_then {A B : Type} (m : outcome A) (k : A -> outcome B) : outcome B :=
  match m with
  | Returned a => k a
  | ValueErrorRaised => ValueErrorRaised
  | IndexErrorRaised => IndexErrorRaised
  end.

(** [names.index(x)]: the first position that holds [x]. *)
Fixpoint list_index (names : list String.string) (x : String.string) : outcome nat :=
  match names with
  | [] => ValueErrorRaised
  | n :: names' =>
      if String.eqb n x then Returned O
      else and_then (list_index names' x) (fun i => Returned (S i))
  end.

(** A Python [dict] with string keys, in insertion order. *)
Definition dict (V : Type) : Type := list (String.string * V).

(** [d.update({k: v})] *)
Fixpoint dict_update {V : Type} (d : dict V) (k : String.string) (v : V) : dict V :=
  match d with
  | [] => [(k, v)]
  | (k', v') :: d' =>
      if String.eqb k' k then (k', v) :: d' else (k', v') :: dict_update d' k v
  end.

(** [d.get(k)] *)
Fixpoint dict_get {V : Type} (d : dict V) (k : String.string) : option V :=
  match d with
  | [] => None
  | (k', v') :: d' => if String.eqb k' k then Some v' else dict_get d' k
  end.

(** [np.random.randint(low, high)] is numpy's: it answers an integer of
    [low, high), any of them, and raises [ValueError] when [low >= high].
    The random bits it consumes are the argument [r]. *)
Definition randint (low high r : Z) : outcome Z :=
  if (low <? high)%Z then Returned (low + r mod (high - low))%Z
  else ValueErrorRaised.

Section NoiseMarginalization.
Context {T : Type} `{Scalar T}.

(** [chain[idx, j]] on a two-dimensional array given by its rows, for
    non-negative [idx] and [j]. *)
Definition chain_item (chain : list (list T)) (idx j : nat) : outcome T :=
  match nth_error chain idx with
  | None => IndexErrorRaised
  | Some row =>
      match nth_error row j with
      | None => IndexErrorRaised
      | Some v => Returned v
      end
  end.

(** [for p in params: param_dict.update({p: chain[idx, params.index(p)]})] *)
Fixpoint param_dict_loop (todo params : list String.string)
         (chain : list (list T)) (idx : nat) (param_dict : dict T)
  : outcome (dict T) :=
  match todo with
  | [] => Returned param_dict
  | p :: todo' =>
      and_then (list_index params p) (fun j =>
      and_then (chain_item chain idx j) (fun v =>
      param_dict_loop todo' params chain idx (dict_update param_dict p v)))
  end.

(** [param_dict = {}] followed by the loop over [params]. *)
Definition build_param_dict (params : list String.string)
           (chain : list (list T)) (idx : nat) : outcome (dict T) :=
  param_dict_loop params params chain idx [].

(** [os.compute_os(params=param_dict)] is the library's; of its five answers
    the cell keeps the last two, the statistic and its uncertainty. *)
Variable compute_os : dict T -> T * T.

(** The random bits of turn [i]. *)
Variable entropy : nat -> Z.

(** One turn per [i in range(N)]: draw a row from [burn] on, make its
    dictionary, store the two answers at place [i]. *)
Fixpoint noisemarg_loop (turns : list nat) (params : list String.string)
         (chain : list (list T)) (out : list T * list T)
  : outcome (list T * list T) :=
  match turns with
  | [] => Returned out
  | i :: turns' =>
      and_then (randint (burn (1 # 4) chain) (Z.of_nat (length chain)) (entropy i))
        (fun idx =>
      and_then (build_param_dict params chain (Z.to_nat idx)) (fun param_dict =>
      let '(os_value, os_err) := compute_os param_dict in
      noisemarg_loop turns' params chain
        (set_item (fst out) i os_value, set_item (snd out) i os_err)))
  end.

(** The noise-marginalization cell, with the number of draws [N] (1000 in
    the notebook) as a parameter; both outputs start as [np.zeros(N)]. *)
Definition noise_marginalize (N : nat) (params : list String.string)
           (chain : list (list T)) : outcome (list T * list T) :=
  noisemarg_loop (seq 0 N) params chain (repeat num0 N, repeat num0 N).
End NoiseMarginalization.

(** A chain of four rows and two named columns. *)
Definition params2 : list String.string := ["gw_log10_A"%string; "gw_gamma"%string].
Definition chain4 : list (list float) :=
  [[f3; f07]; [f5; f07]; [f7; f3]; [f10; f5]].

(** ** Samples of one model *)

Section ModelSelection.
Context {T : Type} `{Scalar T}.

(** [chain_burn[test(chain_burn[:, ind_model]), ind]] on an array of [ncols]
    columns given by its rows: the entries in column [ind] of the rows whose
    entry in column [ind_model] passes [test]. *)
Definition masked_column (ncols : nat) (test : T -> bool)
           (chain_burn : list (list T)) (ind_model ind : nat) : outcome (list T) :=
  if (ind_model <? ncols)%nat then
    if (ind <? ncols)%nat then
      Returned (map (fun row => nth ind row num0)
                    (filter (fun row => test (nth ind_model row num0)) chain_burn))
    else IndexErrorRaised
  else IndexErrorRaised.

(** [ind_model = list(pars).index('nmodel')],
    [ind_gwamp = list(pars).index('gw_log10_A')], then the masked column. *)
Definition gwamp_samples (pars : list String.string) (ncols : nat)
           (test : T -> bool) (chain_burn : list (list T)) : outcome (list T) :=
  and_then (list_index pars "nmodel"%string) (fun ind_model =>
  and_then (list_index pars "gw_log10_A"%string) (fun ind_gwamp =>
  masked_column ncols test chain_burn ind_model ind_gwamp)).

(** [chain_burn[:, ind_model] < threshold] and [... > threshold]; the
    notebook's threshold is 0.5. *)
Definition below (threshold v : T) : bool := nltb v threshold.
Definition above (threshold v : T) : bool := nltb threshold v.
End ModelSelection.

(** Three named columns and four rows after the burn-in: one row of each
    model and two rows whose model index is exactly the threshold 1/2. *)
Definition pars_example : list String.string :=
  ["gw_log10_A"%string; "gw_gamma"%string; "nmodel"%string].
Definition chain_burn_example : list (list R) :=
  [[-15; 4; 0]; [-14; 3; 1]; [-16; 5; 1 / 2]; [-13; 2; 1 / 2]]%R.

(** ** The time span *)

Section TimeSpan.
Local Open Scope R_scope.

(** [a.min()] and [a.max()]: [ValueError] on an array without entries. *)
Definition np_min (a : list R) : outcome R :=
  match a with
  | [] => ValueErrorRaised
  | _ :: _ => Returned (list_min a)
  end.

Definition np_max (a : list R) : outcome R :=
  match a with
  | [] => ValueErrorRaised
  | _ :: _ => Returned (list_max a)
  end.

(** [[f(p) for p in psrs]] for an [f] that can raise. *)
Fixpoint for_each {A B : Type} (f : A -> outcome B) (l : list A) : outcome (list B) :=
  match l with
  | [] => Returned []
  | x :: l' =>
      and_then (f x) (fun y =>
      and_then (for_each f l') (fun ys => Returned (y :: ys)))
  end.

(** [tmin = [p.toas.min() for p in psrs]], [tmax = [p.toas.max() for p in psrs]],
    [Tspan = np.max(tmax) - np.min(tmin)], each pulsar given by its TOAs. *)
Definition Tspan (toas : list (list R)) : outcome R :=
  and_then (for_each np_min toas) (fun tmin =>
  and_then (for_each np_max toas) (fun tmax =>
  and_then (np_max tmax) (fun hi =>
  and_then (np_min tmin) (fun lo =>
  Returned (hi - lo))))).
End TimeSpan.

(** Three pulsars with their TOAs, none of them in order. *)
Definition toas_example : list (list R) :=
  [[53000; 57000; 54000]; [53500; 52000]; [58000]]%R.


(** ** File names *)

Section Paths.

(** A Python [str], character by character. *)
Definition str : Type := list Ascii.ascii.

Definition str_eqb (a b : str) : bool :=
  if list_eq_dec Ascii.ascii_dec a b then true else false.

(** [s.split(sep)] for a separator of one character. *)
Fixpoint split (sep : Ascii.ascii) (s : str) : list str :=
  match s with
  | [] => [[]]
  | c :: s' =>
      if Ascii.eqb c sep then [] :: split sep s'
      else match split sep s' with
           | [] => [[c]]
           | piece :: pieces => (c :: piece) :: pieces
           end
  end.

(** [x.split('/')[-1].split('.')[0]]: the pulsar name a file is filed under. *)
Definition file_stem (x : str) : str :=
  hd [] (split "."%char (last (split "/"%char x) [])).

(** [if psrlist is not None: files = [x for x in files if stem(x) in psrlist]] *)
Definition filter_by_psrlist (psrlist : option (list str)) (files : list str)
  : list str :=
  match psrlist with
  | None => files
  | Some names => filter (fun x => existsb (str_eqb (file_stem x)) names) files
  end.

(** [os.path.join(a, b)] on POSIX paths. *)
Definition path_join (a b : str) : str :=
  match b with
  | "/"%char :: _ => b
  | _ =>
      match a with
      | [] => b
      | _ :: _ =>
          if Ascii.eqb (last a " "%char) "/"%char then a ++ b
          else a ++ "/"%char :: b
      end
  end.

(** [os.path.basename(p)]: what follows the last slash. *)
Definition path_basename (p : str) : str := last (split "/"%char p) [].

(** [datadir = os.path.join(os.getcwd(), 'data')] *)
Definition datadir (cwd : str) : str :=
  path_join cwd (String.list_ascii_of_string "data").

(** [datadir + name], the path the pickle is opened at. *)
Definition pickle_path (cwd name : str) : str := datadir cwd ++ name.

(** [os.path.join(datadir, name)], the path the noise dictionary is opened at. *)
Definition noisedict_path (cwd name : str) : str := path_join (datadir cwd) name.
End Paths.

(** A working directory, the pickle's file name and a par file. *)
Definition cwd_example : str :=
  String.list_ascii_of_string "/home/user/12p5yr_stochastic_analysis".
Definition pickle_name : str :=
  String.list_ascii_of_string "channelized_12yr_v3_partim_DE438.pkl".
Definition par_dir : str := String.list_ascii_of_string "/data/par".
Definition par_name : str := String.list_ascii_of_string "J1909-3744_NANOGrav_12yv3".
Definition par_rest : str := String.list_ascii_of_string "gls.par".

(** ** The working directory *)

Section WorkingDirectory.

Definition repo_name : str :=
  String.list_ascii_of_string "12p5yr_stochastic_analysis".

(** The directory above [p], for [p] as [os.getcwd()] gives it: absolute,
    without a trailing slash unless it is the root. *)
Definition parent_dir (p : str) : str :=
  match firstn (length p - S (length (path_basename p))) p with
  | [] => ["/"%char]
  | c :: d => c :: d
  end.

(** [foldername = os.path.basename(os.getcwd())];
    [if foldername != '12p5yr_stochastic_analysis': os.chdir(os.path.pardir)].
    The state is the working directory; the answer is the new one. *)
Definition cd_to_repo (cwd : str) : str :=
  if str_eqb (path_basename cwd) repo_name then cwd else parent_dir cwd.
End WorkingDirectory.

Definition repo_root_example : str :=
  String.list_ascii_of_string "/home/user/12p5yr_stochastic_analysis".
Definition notebooks_dir : str := String.list_ascii_of_string "notebooks".


(** ** The burn-in cut as the notebooks run it

    [chain = np.loadtxt(...)], [burn = int(0.25 * chain.shape[0])] and then
    [chain[burn:, ind]] or [np.random.randint(burn, chain.shape[0])]. *)

Module Chain.

Inductive error : Type :=
| IndexError
| ValueError
| OverflowError.

Inductive run (A : Type) : Type :=
| Done (a : A)
| Fail (e : error).

Arguments Done {A} a.
Arguments Fail {A} e.

Definition and_then {A B : Type} (m : run A) (k : A -> run B) : run B :=
  match m with
  | Done a => k a
  | Fail e => Fail e
  end.

(** A numpy array of binary64 numbers with no, one or two axes. *)
Inductive ndarray : Type :=
| Array0 (x : float)
| Array1 (a : list float)
| Array2 (rows : list (list float)).

(** [np.loadtxt(path)] is the library's, on a text file given by the numbers
    of its lines: lines of different lengths raise [ValueError], and an axis
    of length one is squeezed away ([ndmin=0]), so a file of one line or of
    one column comes back with one axis, as does a file without lines. *)
Definition loadtxt (file : list (list float)) : run ndarray :=
  match file with
  | [] => Done (Array1 [])
  | first :: rest =>
      if forallb (fun line => (length line =? length first)%nat) rest then
        match rest, first with
        | [], [x] => Done (Array0 x)
        | [], _ => Done (Array1 first)
        | _ :: _, [_] => Done (Array1 (map (fun line => nth 0 line 0%float) file))
        | _ :: _, _ => Done (Array2 file)
        end
      else Fail ValueError
  end.

(** [chain.shape[0]]: an array without axes has an empty shape. *)
Definition shape0 (chain : ndarray) : run Z :=
  match chain with
  | Array0 _ => Fail IndexError
  | Array1 a => Done (Z.of_nat (length a))
  | Array2 rows => Done (Z.of_nat (length rows))
  end.

(** The binary64 number Python multiplies in place of an int, for an int
    below 2^63 as every entry of a shape is. *)
Definition float_of_int (n : Z) : float := of_uint63 (Uint63.of_Z n).

(** [int(x)] of a binary64 number truncates toward zero; it raises
    [OverflowError] on an infinity and [ValueError] on nan. *)
Definition int (x : float) : run Z :=
  match Prim2SF x with
  | S754_zero _ => Done 0%Z
  | S754_finite s m e =>
      let magnitude :=
        match e with
        | Zneg k => (Zpos m / 2 ^ Zpos k)%Z
        | _ => (Zpos m * 2 ^ e)%Z
        end in
      Done (if s then (- magnitude)%Z else magnitude)
  | S754_infinity _ => Fail OverflowError
  | S754_nan => Fail ValueError
  end.

(** [burn = int(0.25 * chain.shape[0])] *)
Definition burn (chain : ndarray) : run Z :=
  and_then (shape0 chain) (fun num_rows =>
  int (0.25 * float_of_int num_rows)%float).

(** [chain[burn:, ind]]: two indices are too many for an array of fewer
    axes; the second index counts from the end when negative and must name
    a column. *)
Definition cut (chain : ndarray) (burn ind : Z) : run (list float) :=
  match chain with
  | Array2 rows =>
      let ncols := Z.of_nat (length (hd [] rows)) in
      let column := fun j : Z =>
        map (fun row => nth (Z.to_nat j) row 0%float) (slice_from rows burn) in
      if ((0 <=? ind) && (ind <? ncols))%Z then Done (column ind)
      else if ((- ncols <=? ind) && (ind <? 0))%Z then Done (column (ind + ncols)%Z)
      else Fail IndexError
  | _ => Fail IndexError
  end.

(** The three statements in a row: what the cells compute of a chain file
    and a column. *)
Definition trim (file : list (list float)) (ind : Z) : run (list float) :=
  and_then (loadtxt file) (fun chain =>
  and_then (burn chain) (fun b =>
  cut chain b ind)).

(** [idx = np.random.randint(burn, chain.shape[0])] of the
    noise-marginalization cell, on the chain of a file, with the random
    bits [r]. *)
Definition draw (file : list (list float)) (r : Z) : run Z :=
  and_then (loadtxt file) (fun chain =>
  and_then (burn chain) (fun b =>
  and_then (shape0 chain) (fun num_rows =>
  match randint b num_rows r with
  | Returned idx => Done idx
  | ValueErrorRaised => Fail ValueError
  | IndexErrorRaised => Fail IndexError
  end))).
End Chain.

(** A chain file of one line. *)
Definition one_line_file : list (list float) := [[f3; f07; f5; f7; f10]].
(** ** Theorems *)

Section WeightedAvgFacts.
Context {T : Type} `{Scalar T}.
Local Open Scope num_scope.

Lemma fold_weightedavg_step_index :
  forall (rho sig pre_r pre_s : list T) (w a : T),
    length rho = length sig ->
    length pre_r = length pre_s ->
    fold_left weightedavg_step (combine rho sig) (w, a) =
    (fold_left
       (fun acc i => acc + num1 / (nth i (pre_s ++ sig) num0 * nth i (pre_s ++ sig) num0))
       (seq (length pre_r) (length rho)) w,
     fold_left
       (fun acc i => acc + nth i (pre_r ++ rho) num0
                           / (nth i (pre_s ++ sig) num0 * nth i (pre_s ++ sig) num0))
       (seq (length pre_r) (length rho)) a).
Proof.
  induction rho as [|r rho IH]; intros [|s sig] pre_r pre_s w a Hlen Hpre;
    simpl in *; try discriminate; [reflexivity|].
  injection Hlen as Hlen.
  rewrite (IH sig (pre_r ++ [r]) (pre_s ++ [s])); trivial.
  - rewrite <- !app_assoc. simpl.
    rewrite length_app, Nat.add_1_r.
    rewrite (nth_middle pre_r rho r num0).
    rewrite Hpre, (nth_middle pre_s sig s num0).
    reflexivity.
  - rewrite !length_app. simpl. lia.
Qed.
End WeightedAvgFacts.

Section WeightedAvgClosedForm.
Context {T : Type} `{Scalar T}.
Local Open Scope num_scope.

Lemma weightedavg_eq_closed_form :
  forall rho sig : list T,
    rho <> [] -> length rho = length sig ->
    weightedavg rho sig = Ok (weighted_average_closed_form rho sig).
Proof.
  intros rho sig Hne Hlen.
  unfold weightedavg, weighted_average_closed_form, sigma_sum.
  rewrite (fold_weightedavg_step_index rho sig [] [] num0 num0 Hlen eq_refl).
  simpl app. simpl length at 1 3.
  destruct rho as [|r rho]; [congruence|].
  destruct sig as [|s sig]; [discriminate|].
  reflexivity.
Qed.
End WeightedAvgClosedForm.

(** C1: for non-empty [rho] and [sig] of one length with every [sig]
    positive, the accumulating loop of [weightedavg] returns the pair
    (sum_i rho_i/sig_i^2 / sum_i 1/sig_i^2, sqrt (1 / sum_i 1/sig_i^2)),
    in binary64 as in exact arithmetic. *)
Theorem weightedavg_closed_form :
  forall (T : Type) (ST : Scalar T) (rho sig : list T),
    rho <> [] ->
    length rho = length sig ->
    Forall positive sig ->
    weightedavg rho sig = Ok (weighted_average_closed_form rho sig).
Proof.
  intros T ST rho sig Hne Hlen _.
  now apply weightedavg_eq_closed_form.
Qed.


Lemma weightedavg_closed_form_witness :
  weightedavg [f07; f3] [f3; f07]
  = Ok (weighted_average_closed_form [f07; f3] [f3; f07]).
Proof.
  apply weightedavg_closed_form.
  - discriminate.
  - reflexivity.
  - repeat constructor.
Defined.

(** ** Exact arithmetic: the weighted mean is a mean *)

Section WeightedAvgReal.
Local Open Scope R_scope.

Lemma Rleb_true (x y : R) : Rleb x y = true <-> x <= y.
Proof. unfold Rleb. destruct (Rle_dec x y); split; intros; auto; discriminate || contradiction. Qed.

Lemma Rltb_true (x y : R) : Rltb x y = true <-> x < y.
Proof. unfold Rltb. destruct (Rlt_dec x y); split; intros; auto; discriminate || contradiction. Qed.

Lemma positive_R (s : R) : positive s <-> 0 < s.
Proof. unfold positive. simpl. apply Rltb_true. Qed.

Lemma weight_pos (s : R) : 0 < s -> 0 < 1 / (s * s).
Proof.
  intros Hs. apply Rdiv_lt_0_compat; [lra | nra].
Qed.

(** The loop keeps [avg] between [lo * weights] and [hi * weights]. *)
Lemma fold_weightedavg_step_bounds :
  forall (lo hi : R) (rho sig : list R) (w a : R),
    Forall (fun r => lo <= r <= hi) rho ->
    Forall (fun s => 0 < s) sig ->
    0 <= w -> lo * w <= a <= hi * w ->
    let '(w', a') := fold_left weightedavg_step (combine rho sig) (w, a) in
    w <= w' /\ lo * w' <= a' <= hi * w' /\ (combine rho sig <> [] -> w < w').
Proof.
  intros lo hi rho.
  induction rho as [|r rho IH]; intros sig w a Hr Hs Hw Ha.
  - simpl. repeat split; try lra. congruence.
  - destruct sig as [|s sig].
    + simpl. repeat split; try lra. congruence.
    + inversion Hr as [|? ? Hr1 Hr2]; subst.
      inversion Hs as [|? ? Hs1 Hs2]; subst.
      simpl combine. simpl fold_left.
      pose proof (weight_pos s Hs1) as Hpos.
      assert (Hrw : r / (s * s) = r * (1 / (s * s))) by (unfold Rdiv; ring).
      specialize (IH sig (w + 1 / (s * s)) (a + r / (s * s)) Hr2 Hs2).
      cbn [weightedavg_step nadd nmul ndiv num1 R_scalar].
      destruct (fold_left weightedavg_step (combine rho sig)
                  (w + 1 / (s * s), a + r / (s * s))) as [w' a'].
      destruct IH as (H1 & H2 & _).
      * lra.
      * rewrite Hrw. nra.
      * repeat split; try lra.
Qed.

Lemma list_min_le : forall (l : list R) (x : R), In x l -> list_min l <= x.
Proof.
  intros [|y l] x; [contradiction|].
  simpl list_min. revert y.
  assert (Hfold : forall (l : list R) (m : R),
             fold_left (fun m0 y0 => if Rltb y0 m0 then y0 else m0) l m <= m /\
             forall z, In z l ->
               fold_left (fun m0 y0 => if Rltb y0 m0 then y0 else m0) l m <= z).
  { clear. induction l as [|y l IH]; intros m; simpl.
    - split; [lra | contradiction].
    - destruct (IH (if Rltb y m then y else m)) as [H1 H2].
      destruct (Rltb y m) eqn:E.
      + apply Rltb_true in E. split; [lra|].
        intros z [->|Hz]; auto.
      + assert (~ y < m) by (intro Hc; apply Rltb_true in Hc; congruence).
        split; [lra|]. intros z [->|Hz]; auto. lra. }
  intros y [->|Hx].
  - apply (proj1 (Hfold l x)).
  - apply (proj2 (Hfold l y)). exact Hx.
Qed.

Lemma list_max_ge : forall (l : list R) (x : R), In x l -> x <= list_max l.
Proof.
  intros [|y l] x; [contradiction|].
  simpl list_max. revert y.
  assert (Hfold : forall (l : list R) (m : R),
             m <= fold_left (fun m0 y0 => if Rltb m0 y0 then y0 else m0) l m /\
             forall z, In z l ->
               z <= fold_left (fun m0 y0 => if Rltb m0 y0 then y0 else m0) l m).
  { clear. induction l as [|y l IH]; intros m; simpl.
    - split; [lra | contradiction].
    - destruct (IH (if Rltb m y then y else m)) as [H1 H2].
      destruct (Rltb m y) eqn:E.
      + apply Rltb_true in E. split; [lra|].
        intros z [->|Hz]; auto.
      + assert (~ m < y) by (intro Hc; apply Rltb_true in Hc; congruence).
        split; [lra|]. intros z [->|Hz]; auto. lra. }
  intros y [->|Hx].
  - apply (proj1 (Hfold l x)).
  - apply (proj2 (Hfold l y)). exact Hx.
Qed.

Lemma weightedavg_R_bounds :
  forall (lo hi : R) (rho sig : list R),
    rho <> [] -> length rho = length sig ->
    Forall (fun r => lo <= r <= hi) rho ->
    Forall (fun s => 0 < s) sig ->
    exists mu smu, weightedavg rho sig = Ok (mu, smu) /\ lo <= mu <= hi.
Proof.
  intros lo hi rho sig Hne Hlen Hr Hs.
  unfold weightedavg.
  pose proof (fold_weightedavg_step_bounds lo hi rho sig 0 0 Hr Hs (Rle_refl 0)) as Hb.
  cbn [num0 R_scalar].
  destruct (fold_left weightedavg_step (combine rho sig) (0, 0)) as [w a].
  destruct Hb as (_ & Ha & Hw); [lra|].
  destruct rho as [|r rho]; [congruence|].
  destruct sig as [|s sig]; [discriminate|].
  simpl combine in *.
  assert (0 < w) by (apply Hw; discriminate).
  eexists; eexists; split; [reflexivity|].
  cbn [ndiv R_scalar].
  assert (Hm : a = a / w * w) by (field; lra).
  set (m := a / w) in *.
  rewrite Hm in Ha.
  split; nra.
Qed.
End WeightedAvgReal.

(** C7 (exact arithmetic): for non-empty [rho] and [sig] of one length with
    every [sig] positive, the mean returned by [weightedavg] lies between
    [min(rho)] and [max(rho)]. *)
Theorem weightedavg_mean_in_range_exact :
  forall rho sig : list R,
    rho <> [] ->
    length rho = length sig ->
    Forall positive sig ->
    mean_in_range rho sig.
Proof.
  intros rho sig Hne Hlen Hpos.
  destruct (weightedavg_R_bounds (list_min rho) (list_max rho) rho sig Hne Hlen)
    as (mu & smu & Heq & Hlo & Hhi).
  - apply Forall_forall. intros r Hr. split.
    + now apply list_min_le.
    + now apply list_max_ge.
  - eapply Forall_impl; [|exact Hpos]. intros s. apply positive_R.
  - exists mu, smu. split; [exact Heq|].
    split; apply Rleb_true; assumption.
Qed.

Lemma weightedavg_mean_in_range_exact_witness :
  mean_in_range [1%R; 2%R] [1%R; 3%R].
Proof.
  apply weightedavg_mean_in_range_exact.
  - discriminate.
  - reflexivity.
  - repeat constructor; apply positive_R; lra.
Defined.

(** C7 as stated, read on the program's binary64 numbers, fails:
    [weightedavg([0.7], [3.0])] answers a mean above [0.7]. *)
Lemma weightedavg_mean_out_of_range_binary64 :
  [f07] <> [] /\ length [f07] = length [f3] /\ Forall positive [f3] /\
  ~ mean_in_range [f07] [f3].
Proof.
  split; [discriminate|]. split; [reflexivity|]. split; [repeat constructor|].
  intros (mu & smu & Heq & _ & Hhi).
  vm_compute in Heq. injection Heq as <- _.
  vm_compute in Hhi. discriminate.
Qed.

(** ** Indexing facts *)

Section IndexingFacts.
Variable A : Type.

Lemma fancy_index_in_range :
  forall (a : list A) (d : A) (idx : list nat),
    Forall (fun i => (i < length a)%nat) idx ->
    fancy_index a idx = Ok (map (fun i => nth i a d) idx).
Proof.
  intros a d idx Hin.
  induction Hin as [|i idx Hi _ IH]; simpl; [reflexivity|].
  destruct (nth_error a i) as [v|] eqn:E.
  - rewrite IH. simpl. f_equal. f_equal.
    symmetry. now apply nth_error_nth.
  - apply nth_error_None in E. lia.
Qed.

Lemma map_nth_seq_self :
  forall (a : list A) (d : A),
    map (fun i => nth i a d) (seq 0 (length a)) = a.
Proof.
  intros a d.
  induction a as [|x a IH]; simpl; [reflexivity|].
  f_equal. rewrite <- seq_shift, map_map. exact IH.
Qed.

Lemma permutation_of_positions_in_range :
  forall (idx : list nat) (n : nat),
    Permutation idx (seq 0 n) -> Forall (fun i => (i < n)%nat) idx.
Proof.
  intros idx n Hp. apply Forall_forall. intros i Hi.
  apply (Permutation_in _ Hp) in Hi. apply in_seq in Hi. lia.
Qed.

Lemma skipn_combine :
  forall (B : Type) (n : nat) (a : list A) (b : list B),
    skipn n (combine a b) = combine (skipn n a) (skipn n b).
Proof.
  induction n as [|n IH]; intros [|x a] [|y b]; simpl; try reflexivity.
  - now destruct (skipn n a).
  - apply IH.
Qed.

Lemma slice_as_firstn :
  forall (a : list A) (i n : nat),
    slice a i (n + i) = firstn n (skipn i a).
Proof. intros. unfold slice. now rewrite Nat.add_sub. Qed.
End IndexingFacts.

Lemma combine_map_nth :
  forall (A B : Type) (a : list A) (b : list B) (da : A) (db : B) (idx : list nat),
    length a = length b ->
    combine (map (fun i => nth i a da) idx) (map (fun i => nth i b db) idx)
    = map (fun i => nth i (combine a b) (da, db)) idx.
Proof.
  intros A B a b da db idx Hlen.
  induction idx as [|i idx IH]; simpl; [reflexivity|].
  rewrite IH. f_equal.
  symmetry. destruct (Nat.lt_ge_cases i (length a)) as [Hi|Hi].
  - apply combine_nth. exact Hlen.
  - rewrite !nth_overflow; trivial; try lia.
    rewrite length_combine. lia.
Qed.

(** ** The fixed-count binning loop *)

Lemma ceil_div_step :
  forall d n : nat, (0 < n)%nat -> (0 < d)%nat ->
    ceil_div d n = S (ceil_div (d - n) n).
Proof.
  intros d n Hn Hd. unfold ceil_div.
  destruct (Nat.le_gt_cases d n) as [Hle|Hgt].
  - replace (d - n)%nat with 0%nat by lia.
    replace (0 + n - 1)%nat with (n - 1)%nat by lia.
    rewrite (Nat.div_small (n - 1) n) by lia.
    replace (d + n - 1)%nat with ((d - 1) + 1 * n)%nat by lia.
    rewrite Nat.div_add by lia.
    rewrite (Nat.div_small (d - 1) n) by lia. reflexivity.
  - replace (d + n - 1)%nat with ((d - n + n - 1) + 1 * n)%nat by lia.
    rewrite Nat.div_add by lia. lia.
Qed.

Lemma ceil_div_0 : forall n : nat, (0 < n)%nat -> ceil_div 0 n = 0%nat.
Proof. intros n Hn. unfold ceil_div. apply Nat.div_small. lia. Qed.

Section FixedCountFacts.
Context {T : Type} `{Scalar T}.

Lemma weightedavg_nonempty :
  forall rho sig : list T,
    rho <> [] -> length rho = length sig ->
    exists r s, weightedavg rho sig = Ok (r, s).
Proof.
  intros rho sig Hne Hlen.
  rewrite (weightedavg_eq_closed_form rho sig Hne Hlen).
  destruct (weighted_average_closed_form rho sig) as [r s]. now exists r, s.
Qed.

(** What a finished run of the loop from position [i] appends. *)
Lemma binning_loop_spec :
  forall (npairs : nat) (xs rs ss : list T),
    (0 < npairs)%nat ->
    length rs = length xs -> length ss = length xs ->
    forall (fuel i : nat) (bins : list bin),
      (length xs - i < fuel)%nat ->
      exists bins',
        binning_loop fuel npairs xs rs ss i bins = Some (Ok (bins ++ bins')) /\
        length bins' = ceil_div (length xs - i) npairs /\
        concat (map bin_triples bins') = skipn i (triples xs rs ss) /\
        (forall k b, nth_error bins' k = Some b ->
                     (S k < length bins')%nat ->
                     length (bin_triples b) = npairs) /\
        Forall (fun b => bin_triples b <> [] /\
                         (length (bin_triples b) <= npairs)%nat /\
                         weightedavg (bin_rho b) (bin_sig b)
                         = Ok (rho_avg b, sig_avg b) /\
                         length (bin_rho b) = length (bin_xi b) /\
                         length (bin_sig b) = length (bin_xi b)) bins'.
Proof.
  intros npairs xs rs ss Hn Hrs Hss.
  induction fuel as [|fuel IH]; intros i bins Hfuel; [lia|].
  simpl binning_loop.
  destruct (i <? length xs)%nat eqn:Hi.
  - apply Nat.ltb_lt in Hi.
    rewrite !slice_as_firstn.
    set (bx := firstn npairs (skipn i xs)).
    set (br := firstn npairs (skipn i rs)).
    set (bs := firstn npairs (skipn i ss)).
    assert (Hlx : length bx = Nat.min npairs (length xs - i))
      by (unfold bx; now rewrite length_firstn, length_skipn).
    assert (Hlr : length br = Nat.min npairs (length xs - i))
      by (unfold br; now rewrite length_firstn, length_skipn, Hrs).
    assert (Hls : length bs = Nat.min npairs (length xs - i))
      by (unfold bs; now rewrite length_firstn, length_skipn, Hss).
    assert (Hbr : br <> []) by (intro E; rewrite E in Hlr; simpl in Hlr; lia).
    destruct (weightedavg_nonempty br bs Hbr) as (r & s & Hw); [lia|].
    rewrite Hw.
    destruct (IH (i + npairs)%nat (bins ++ [mk_bin bx br bs r s])) as
        (rest & Hrun & Hcount & Hcat & Hfull & Hall); [lia|].
    exists (mk_bin bx br bs r s :: rest).
    assert (Htri : bin_triples (mk_bin bx br bs r s)
                   = firstn npairs (skipn i (triples xs rs ss))).
    { unfold bin_triples, triples, bx, br, bs. simpl.
      now rewrite !skipn_combine, !combine_firstn. }
    assert (Hlt : length (bin_triples (mk_bin bx br bs r s))
                  = Nat.min npairs (length xs - i)).
    { unfold bin_triples, triples. simpl. rewrite !length_combine. lia. }
    split; [|split; [|split; [|split]]].
    + rewrite Hrun, <- app_assoc. reflexivity.
    + simpl length. rewrite Hcount.
      rewrite (ceil_div_step (length xs - i) npairs) by lia.
      do 2 f_equal. lia.
    + simpl map. simpl concat. rewrite Hcat, Htri.
      replace (i + npairs)%nat with (npairs + i)%nat by lia.
      rewrite <- skipn_skipn. apply firstn_skipn.
    + intros [|k] b Hk Hlast; simpl in Hk, Hlast.
      * injection Hk as <-. rewrite Hlt.
        destruct rest as [|b' rest']; [simpl in Hlast; lia|].
        simpl in Hcount. symmetry in Hcount.
        destruct (Nat.le_gt_cases (length xs - i) npairs) as [Hle|Hgt]; [|lia].
        replace (length xs - (i + npairs))%nat with 0%nat in Hcount by lia.
        rewrite ceil_div_0 in Hcount by lia. discriminate.
      * apply (Hfull k b Hk). lia.
    + constructor; [|exact Hall].
      split; [|split; [|split; [|split]]].
      * intro E. rewrite E in Hlt. simpl in Hlt. lia.
      * rewrite Hlt. lia.
      * exact Hw.
      * simpl. lia.
      * simpl. lia.
  - apply Nat.ltb_ge in Hi.
    exists []. rewrite app_nil_r.
    split; [reflexivity|]. split; [|split; [|split]].
    + replace (length xs - i)%nat with 0%nat by lia.
      now rewrite ceil_div_0.
    + simpl. rewrite skipn_all2; [reflexivity|].
      unfold triples. rewrite !length_combine. lia.
    + intros k b Hk. destruct k; discriminate.
    + constructor.
Qed.

(** More fuel never changes the answer of a finished run. *)
Lemma binning_loop_fuel_mono :
  forall (npairs : nat) (xs rs ss : list T) (fuel fuel' i : nat)
         (bins : list bin) (r : result (list bin)),
    (fuel <= fuel')%nat ->
    binning_loop fuel npairs xs rs ss i bins = Some r ->
    binning_loop fuel' npairs xs rs ss i bins = Some r.
Proof.
  intros npairs xs rs ss.
  induction fuel as [|fuel IH]; intros fuel' i bins r Hle Hrun; [discriminate|].
  destruct fuel' as [|fuel']; [lia|].
  simpl in *.
  destruct (i <? length xs)%nat; [|exact Hrun].
  destruct (weightedavg _ _) as [[r0 s0]|e]; [|exact Hrun].
  apply IH; [lia | exact Hrun].
Qed.

(** Sorting by [idx] keeps each triple together and loses none. *)
Lemma sort_by_xi_spec :
  forall (xi rho sig : list T) (idx : list nat),
    length rho = length xi -> length sig = length xi ->
    Permutation idx (seq 0 (length xi)) ->
    exists xs rs ss,
      sort_by_xi xi rho sig idx = Ok (xs, rs, ss) /\
      xs = map (fun i => nth i xi num0) idx /\
      rs = map (fun i => nth i rho num0) idx /\
      ss = map (fun i => nth i sig num0) idx /\
      triples xs rs ss
      = map (fun i => nth i (triples xi rho sig) (num0, (num0, num0))) idx /\
      Permutation (triples xs rs ss) (triples xi rho sig).
Proof.
  intros xi rho sig idx Hr Hs Hp.
  pose proof (permutation_of_positions_in_range idx (length xi) Hp) as Hin.
  exists (map (fun i => nth i xi num0) idx),
         (map (fun i => nth i rho num0) idx),
         (map (fun i => nth i sig num0) idx).
  assert (Htri : triples (map (fun i => nth i xi num0) idx)
                         (map (fun i => nth i rho num0) idx)
                         (map (fun i => nth i sig num0) idx)
                 = map (fun i => nth i (triples xi rho sig) (num0, (num0, num0))) idx).
  { unfold triples. rewrite (combine_map_nth _ _ rho sig num0 num0) by lia.
    apply combine_map_nth. rewrite length_combine. lia. }
  split; [|repeat split; trivial].
  - unfold sort_by_xi.
    rewrite (fancy_index_in_range _ xi num0 idx Hin).
    rewrite (fancy_index_in_range _ rho num0 idx)
      by (rewrite Hr; exact Hin).
    rewrite (fancy_index_in_range _ sig num0 idx)
      by (rewrite Hs; exact Hin).
    reflexivity.
  - rewrite Htri.
    assert (Hl : length (triples xi rho sig) = length xi)
      by (unfold triples; rewrite !length_combine; lia).
    rewrite <- Hl in Hp.
    apply (Permutation_map
             (fun i => nth i (triples xi rho sig) (num0, (num0, num0)))) in Hp.
    now rewrite map_nth_seq_self in Hp.
Qed.
End FixedCountFacts.

(** C2: with [npairs > 0], the binning loop over [M] pairs sorted by xi
    finishes and appends exactly ceil(M/npairs) bins; every bin but the last
    holds [npairs] pairs, the last between 1 and [npairs]; each bin carries
    the weighted average of its own pairs; the bins laid end to end are the
    sorted triples, which are a rearrangement of the input triples. *)
Theorem fixed_count_binning_partitions :
  forall (T : Type) (ST : Scalar T) (xi rho sig : list T) (idx : list nat)
         (npairs : nat),
    (0 < npairs)%nat ->
    length rho = length xi -> length sig = length xi ->
    argsort_ok xi idx ->
    exists (xs rs ss : list T) (bins : list bin),
      sort_by_xi xi rho sig idx = Ok (xs, rs, ss) /\
      (forall fuel : nat, (length xi < fuel)%nat ->
         fixed_count_binning fuel npairs xi rho sig idx = Some (Ok bins)) /\
      length bins = ceil_div (length xi) npairs /\
      (forall k b, nth_error bins k = Some b -> (S k < length bins)%nat ->
                   length (bin_triples b) = npairs) /\
      Forall (fun b => (1 <= length (bin_triples b) <= npairs)%nat /\
                       weightedavg (bin_rho b) (bin_sig b)
                       = Ok (rho_avg b, sig_avg b)) bins /\
      concat (map bin_triples bins) = triples xs rs ss /\
      Sorted (fun a b => nleb a b = true) xs /\
      Permutation (triples xs rs ss) (triples xi rho sig).
Proof.
  intros T ST xi rho sig idx npairs Hn Hr Hs [Hp Hsorted].
  destruct (sort_by_xi_spec xi rho sig idx Hr Hs Hp)
    as (xs & rs & ss & Hsort & Hxs & Hrs & Hss & _ & Hperm).
  assert (Hlen : length xs = length xi).
  { rewrite Hxs, length_map. rewrite (Permutation_length Hp). apply length_seq. }
  assert (Hlr : length rs = length xs) by (rewrite Hrs, Hxs, !length_map; reflexivity).
  assert (Hls : length ss = length xs) by (rewrite Hss, Hxs, !length_map; reflexivity).
  destruct (binning_loop_spec npairs xs rs ss Hn Hlr Hls (S (length xs)) 0 [])
    as (bins & Hrun & Hcount & Hcat & Hfull & Hall); [lia|].
  exists xs, rs, ss, bins.
  split; [exact Hsort|]. split; [|split; [|split; [|split; [|split; [|split]]]]].
  - intros fuel Hfuel. unfold fixed_count_binning. rewrite Hsort.
    apply (binning_loop_fuel_mono npairs xs rs ss (S (length xs)) fuel);
      [lia | exact Hrun].
  - now rewrite Hcount, Nat.sub_0_r, Hlen.
  - exact Hfull.
  - eapply Forall_impl; [|exact Hall]. intros b (Hne & Hle & Hw & _).
    split; [|exact Hw].
    split; [|exact Hle]. destruct (bin_triples b); [congruence|simpl; lia].
  - exact Hcat.
  - rewrite Hxs. exact Hsorted.
  - exact Hperm.
Qed.

Lemma fixed_count_binning_partitions_witness :
  exists (xs rs ss : list float) (bins : list bin),
    sort_by_xi xi3 rho3 sig3 idx3 = Ok (xs, rs, ss) /\
    (forall fuel : nat, (length xi3 < fuel)%nat ->
       fixed_count_binning fuel 2 xi3 rho3 sig3 idx3 = Some (Ok bins)) /\
    length bins = ceil_div (length xi3) 2 /\
    (forall k b, nth_error bins k = Some b -> (S k < length bins)%nat ->
                 length (bin_triples b) = 2%nat) /\
    Forall (fun b => (1 <= length (bin_triples b) <= 2)%nat /\
                     weightedavg (bin_rho b) (bin_sig b)
                     = Ok (rho_avg b, sig_avg b)) bins /\
    concat (map bin_triples bins) = triples xs rs ss /\
    Sorted (fun a b => nleb a b = true) xs /\
    Permutation (triples xs rs ss) (triples xi3 rho3 sig3).
Proof.
  apply fixed_count_binning_partitions.
  - lia.
  - reflexivity.
  - reflexivity.
  - split.
    + apply perm_swap.
    + vm_compute. repeat constructor.
Defined.

(** ** The order of equal separations *)

(** C6 (amended): whatever positions [np.argsort] answers, the sorted arrays
    are ascending in xi, entry [k] of the three sorted arrays is the input
    triple at position [idx[k]], and the sorted triples are a rearrangement
    of the input triples.  Nothing fixes the order of pairs of equal xi. *)
Theorem sort_by_xi_keeps_triples :
  forall (T : Type) (ST : Scalar T) (xi rho sig : list T) (idx : list nat),
    length rho = length xi -> length sig = length xi ->
    argsort_ok xi idx ->
    exists xs rs ss : list T,
      sort_by_xi xi rho sig idx = Ok (xs, rs, ss) /\
      Sorted (fun a b => nleb a b = true) xs /\
      (forall k : nat, (k < length idx)%nat ->
         nth k (triples xs rs ss) (num0, (num0, num0))
         = nth (nth k idx O) (triples xi rho sig) (num0, (num0, num0))) /\
      Permutation (triples xs rs ss) (triples xi rho sig).
Proof.
  intros T ST xi rho sig idx Hr Hs [Hp Hsorted].
  destruct (sort_by_xi_spec xi rho sig idx Hr Hs Hp)
    as (xs & rs & ss & Hsort & Hxs & _ & _ & Htri & Hperm).
  exists xs, rs, ss.
  split; [exact Hsort|]. split; [|split].
  - rewrite Hxs. exact Hsorted.
  - intros k Hk. rewrite Htri.
    rewrite (nth_indep _ _ (nth O (triples xi rho sig) (num0, (num0, num0))))
      by (now rewrite length_map).
    rewrite (map_nth (fun i => nth i (triples xi rho sig) (num0, (num0, num0)))).
    reflexivity.
  - exact Hperm.
Qed.

Lemma idx_tie_permutation : Permutation idx_tie (seq 0 (length xi_tie)).
Proof.
  change (Permutation (0 :: rev (seq 1 17) ++ [18; 19])
                      (0 :: seq 1 17 ++ [18; 19]))%nat.
  apply perm_skip, Permutation_app_tail, Permutation_sym, Permutation_rev.
Qed.

Lemma sort_by_xi_keeps_triples_witness :
  exists xs rs ss : list float,
    sort_by_xi xi_tie rho_tie sig_tie idx_tie = Ok (xs, rs, ss) /\
    Sorted (fun a b => nleb a b = true) xs /\
    (forall k : nat, (k < length idx_tie)%nat ->
       nth k (triples xs rs ss) (num0, (num0, num0))
       = nth (nth k idx_tie O) (triples xi_tie rho_tie sig_tie)
             (num0, (num0, num0))) /\
    Permutation (triples xs rs ss) (triples xi_tie rho_tie sig_tie).
Proof.
  apply sort_by_xi_keeps_triples.
  - reflexivity.
  - reflexivity.
  - split.
    + exact idx_tie_permutation.
    + vm_compute. repeat constructor.
Defined.

(** C6 as stated fails: positions that meet all that [np.argsort] promises
    may list pairs of equal xi in the opposite of their input order. *)
Lemma argsort_need_not_be_stable :
  argsort_ok xi_tie idx_tie /\ ~ stable_order xi_tie idx_tie.
Proof.
  split.
  - split.
    + exact idx_tie_permutation.
    + vm_compute. repeat constructor.
  - intros Hst.
    specialize (Hst 1%nat 2%nat).
    assert (Hlt : (nth 1 idx_tie 0 < nth 2 idx_tie 0)%nat).
    { apply Hst; [simpl; lia | reflexivity]. }
    vm_compute in Hlt. lia.
Qed.

(** ** One bin of 66 pairs *)

Section SingleBin.
Local Open Scope R_scope.

(** In exact arithmetic the two sums do not depend on the order of the pairs. *)
Lemma fold_weightedavg_step_perm :
  forall l l' : list (R * R),
    Permutation l l' ->
    forall acc : R * R,
      fold_left weightedavg_step l acc = fold_left weightedavg_step l' acc.
Proof.
  induction 1 as [|x l l' _ IH|x y l|l l' l'' _ IH1 _ IH2]; intros acc.
  - reflexivity.
  - simpl. apply IH.
  - simpl. f_equal.
    destruct acc as [w a], x as [r1 s1], y as [r2 s2].
    cbn [weightedavg_step nadd nmul ndiv num1 R_scalar].
    f_equal; ring.
  - now rewrite IH1.
Qed.

Lemma weightedavg_perm :
  forall rho sig rho' sig' : list R,
    Permutation (combine rho sig) (combine rho' sig') ->
    weightedavg rho sig = weightedavg rho' sig'.
Proof.
  intros rho sig rho' sig' Hp.
  unfold weightedavg.
  rewrite (fold_weightedavg_step_perm _ _ Hp).
  destruct (combine rho sig) as [|p l] eqn:E.
  - apply Permutation_nil in Hp. now rewrite Hp.
  - destruct (combine rho' sig') as [|p' l'] eqn:E'; [|reflexivity].
    apply Permutation_sym, Permutation_nil in Hp. discriminate.
Qed.
End SingleBin.

Lemma map_snd_combine_same_length :
  forall (A B : Type) (a : list A) (b : list B),
    length a = length b -> map snd (combine a b) = b.
Proof.
  intros A B a. induction a as [|x a IH]; intros [|y b] Hlen;
    simpl in *; try discriminate; [reflexivity|].
  f_equal. apply IH. lia.
Qed.

(** C8 (exact arithmetic): 66 pairs binned 66 at a time give one bin holding
    every pair, and the weighted average of that bin equals the weighted
    average of the unsorted arrays. *)
Theorem single_bin_of_66_exact :
  forall (xi rho sig : list R) (idx : list nat),
    length xi = 66%nat -> length rho = 66%nat -> length sig = 66%nat ->
    argsort_ok xi idx ->
    single_bin_matches_unbinned 66 xi rho sig idx.
Proof.
  intros xi rho sig idx Hx Hr Hs [Hp Hsorted].
  assert (Hr' : length rho = length xi) by lia.
  assert (Hs' : length sig = length xi) by lia.
  destruct (sort_by_xi_spec xi rho sig idx Hr' Hs' Hp) as
      (xs & rs & ss & Hsort & Hxs & Hrs & Hss & _ & Hperm).
  assert (Hlen : length xs = 66%nat).
  { rewrite Hxs, length_map, (Permutation_length Hp), length_seq. exact Hx. }
  assert (Hlr : length rs = length xs) by (rewrite Hrs, Hxs, !length_map; reflexivity).
  assert (Hls : length ss = length xs) by (rewrite Hss, Hxs, !length_map; reflexivity).
  assert (H66 : (0 < 66)%nat) by lia.
  assert (H67 : (length xs - 0 < 67)%nat) by lia.
  destruct (binning_loop_spec 66 xs rs ss H66 Hlr Hls 67 0 [] H67)
    as (bins & Hrun & Hcount & Hcat & _ & Hall).
  rewrite Nat.sub_0_r, Hlen in Hcount. change (ceil_div 66 66) with 1%nat in Hcount.
  destruct bins as [|b [|b' bins]]; try discriminate.
  simpl in Hcat. rewrite app_nil_r in Hcat.
  pose proof (Forall_inv Hall) as (_ & _ & Hw & Hbr & Hbs).
  exists b. split; [|split; [|split]].
  - intros fuel Hfuel. unfold fixed_count_binning. rewrite Hsort.
    apply (binning_loop_fuel_mono 66 xs rs ss 67 fuel); [lia | exact Hrun].
  - rewrite Hcat. exact Hperm.
  - exact Hw.
  - rewrite <- Hw. symmetry. apply weightedavg_perm.
    rewrite <- (map_snd_combine_same_length _ _ (bin_xi b) (combine (bin_rho b) (bin_sig b)))
      by (rewrite length_combine; lia).
    rewrite <- (map_snd_combine_same_length _ _ xi (combine rho sig))
      by (rewrite length_combine; lia).
    apply Permutation_map.
    change (Permutation (bin_triples b) (triples xi rho sig)).
    rewrite Hcat. exact Hperm.
Qed.

Lemma single_bin_of_66_exact_witness :
  single_bin_matches_unbinned 66 xi66_exact rho66_exact sig66_exact (seq 0 66).
Proof.
  apply single_bin_of_66_exact.
  - reflexivity.
  - reflexivity.
  - reflexivity.
  - split.
    + apply Permutation_refl.
    + rewrite (map_nth_seq_self R xi66_exact num0).
      cbv [xi66_exact map seq Z.of_nat Pos.of_succ_nat Pos.succ].
      repeat (constructor; try (apply Rleb_true; lra)).
Defined.

(** C8 as stated, read on the program's binary64 numbers, fails: for the 66
    pairs [xi66], [rho66], [sig66] the bin's mean is summed in sorted order
    and differs in its last digits from the mean of the arrays as given. *)
Lemma single_bin_of_66_differs_binary64 :
  length xi66 = 66%nat /\ length rho66 = 66%nat /\ length sig66 = 66%nat /\
  argsort_ok xi66 idx66 /\
  ~ single_bin_matches_unbinned 66 xi66 rho66 sig66 idx66.
Proof.
  split; [reflexivity|]. split; [reflexivity|]. split; [reflexivity|]. split.
  - split.
    + apply Permutation_sym. apply (Permutation_rev (seq 0 66)).
    + vm_compute. repeat constructor.
  - intros (b & Hrun & _ & _ & Hu).
    specialize (Hrun 67%nat (Nat.lt_succ_diag_r 66)).
    apply (f_equal (fun o => match o with
                             | Some (Ok [b0]) => rho_avg b0
                             | _ => num0
                             end)) in Hrun.
    apply (f_equal (fun r => match r with
                             | Ok (mu, _) => mu
                             | Raise _ => num0
                             end)) in Hu.
    vm_compute in Hrun. vm_compute in Hu.
    rewrite <- Hrun in Hu.
    match type of Hu with
    | ?a = ?b =>
        assert (Hc : PrimFloat.ltb a b = PrimFloat.ltb b b) by (now rewrite Hu)
    end.
    vm_compute in Hc. discriminate.
Qed.

(** ** Bins of fixed width *)

Section FixedWidthFacts.
Context {T : Type} `{Scalar T}.

Lemma weightedavg_raises_only_zero_division :
  forall (rho sig : list T) (e : exn),
    weightedavg rho sig = Raise e -> e = ZeroDivisionError.
Proof.
  intros rho sig e. unfold weightedavg.
  destruct (fold_left weightedavg_step (combine rho sig) (num0, num0)) as [w a].
  destruct (combine rho sig); intros Heq; [congruence | discriminate].
Qed.

Lemma fold_collect_step :
  forall (z : T) (l : list (T * (T * T))) (myrhos mysigs : list T),
    fold_left (collect_step z) l (myrhos, mysigs) =
    (myrhos ++ map (fun xrs => fst (snd xrs))
                   (filter (fun xrs => in_bin z (fst xrs)) l),
     mysigs ++ map (fun xrs => snd (snd xrs))
                   (filter (fun xrs => in_bin z (fst xrs)) l)).
Proof.
  intros z l.
  induction l as [|[x [r s]] l IH]; intros myrhos mysigs; simpl.
  - now rewrite !app_nil_r.
  - destruct (in_bin z x); simpl.
    + rewrite IH, <- !app_assoc. reflexivity.
    + apply IH.
Qed.

(** The two lists gathered for a bin are the pairs that pass its test, in
    input order. *)
Lemma bin_members_filter :
  forall (z : T) (xi rho sig : list T),
    bin_members z xi rho sig =
    (map (fun xrs => fst (snd xrs))
         (filter (fun xrs => in_bin z (fst xrs)) (combine xi (combine rho sig))),
     map (fun xrs => snd (snd xrs))
         (filter (fun xrs => in_bin z (fst xrs)) (combine xi (combine rho sig)))).
Proof.
  intros z xi rho sig. unfold bin_members. now rewrite fold_collect_step.
Qed.

Lemma no_member_bin_members :
  forall (z : T) (xi rho sig : list T),
    no_member z xi rho sig -> bin_members z xi rho sig = ([], []).
Proof.
  intros z xi rho sig Hno. rewrite bin_members_filter.
  unfold no_member in Hno.
  induction Hno as [|xrs l Hx _ IH]; simpl; [reflexivity|].
  now rewrite Hx.
Qed.

(** The loop stops with [ZeroDivisionError] as soon as it meets a bin that
    holds no pair. *)
Lemma bin_crosscorr_loop_empty_bin :
  forall (xi rho sig : list T) (zs : list (nat * T)) (out : list T * list T)
         (i : nat) (z : T),
    In (i, z) zs -> no_member z xi rho sig ->
    bin_crosscorr_loop zs xi rho sig out = Raise ZeroDivisionError.
Proof.
  intros xi rho sig zs.
  induction zs as [|[j y] zs IH]; intros out i z Hin Hno; [contradiction|].
  simpl.
  destruct (bin_members y xi rho sig) as [myrhos mysigs] eqn:Hm.
  destruct (weightedavg myrhos mysigs) as [avg|e] eqn:Hw; simpl.
  - destruct Hin as [Heq|Hin].
    + injection Heq as -> ->.
      rewrite (no_member_bin_members z xi rho sig Hno) in Hm.
      injection Hm as <- <-. discriminate.
    + now apply (IH _ i z).
  - now rewrite (weightedavg_raises_only_zero_division _ _ _ Hw).
Qed.

Lemma enumerate_removelast_In :
  forall (zeta : list T) (i : nat),
    (S i < length zeta)%nat ->
    In (i, nth i zeta num0) (enumerate (removelast zeta)).
Proof.
  intros zeta i Hi. unfold enumerate.
  assert (Hlen : length (removelast zeta) = (length zeta - 1)%nat).
  { rewrite removelast_firstn_len, length_firstn. lia. }
  assert (Hnth : nth i (removelast zeta) num0 = nth i zeta num0).
  { rewrite removelast_firstn_len, nth_firstn.
    destruct (Nat.ltb_spec i (Init.Nat.pred (length zeta))); [reflexivity | lia]. }
  rewrite <- Hnth.
  replace i with (nth i (seq 0 (length (removelast zeta))) O) at 1
    by (rewrite seq_nth; lia).
  rewrite <- combine_nth by (now rewrite length_seq).
  apply nth_In. rewrite length_combine, length_seq. lia.
Qed.
End FixedWidthFacts.

(** C5 (amended): for every bin that the loop computes, that is every entry
    of [zeta] but the last, a bin that holds no pair makes [bin_crosscorr]
    raise [ZeroDivisionError]; no zero is reported in its place. *)
Theorem bin_crosscorr_empty_bin_raises :
  forall (T : Type) (ST : Scalar T) (zeta xi rho sig : list T) (i : nat),
    (S i < length zeta)%nat ->
    no_member (nth i zeta num0) xi rho sig ->
    bin_crosscorr zeta xi rho sig = Raise ZeroDivisionError.
Proof.
  intros T ST zeta xi rho sig i Hi Hno.
  unfold bin_crosscorr.
  apply (bin_crosscorr_loop_empty_bin xi rho sig _ _ i (nth i zeta num0)).
  - now apply enumerate_removelast_In.
  - exact Hno.
Qed.

Lemma bin_crosscorr_empty_bin_raises_witness :
  bin_crosscorr zeta_close [f3] [f07] [f3] = Raise ZeroDivisionError.
Proof.
  apply (bin_crosscorr_empty_bin_raises float float_scalar zeta_close
           [f3] [f07] [f3] 1%nat).
  - simpl. lia.
  - repeat constructor.
Defined.

(** C5 as stated fails at the last entry of [zeta]: with positions 0 and 10
    and one pair at xi = 5, the bin at 10 holds no pair, nothing is raised,
    and the answer reports mean 0 and uncertainty 0 for it. *)
Lemma bin_crosscorr_last_bin_reports_zero :
  (1 < length zeta_two)%nat /\
  no_member (nth 1 zeta_two num0) [f5] [f3] [f07] /\
  exists mu smu : float,
    bin_crosscorr zeta_two [f5] [f3] [f07] = Ok ([mu; num0], [smu; num0]).
Proof.
  split; [simpl; lia|]. split; [repeat constructor|].
  eexists. eexists. vm_compute. reflexivity.
Qed.

(** C10: the pairs gathered for bin [i] are exactly those with
    [zeta[i] <= xi < zeta[i] + 10], whatever the other entries of [zeta]
    are; and there are inputs with neighbouring entries of [zeta] less than
    10 apart in which one pair enters the weighted average of two bins. *)
Theorem fixed_width_bins_overlap :
  (forall (T : Type) (ST : Scalar T) (z : T) (xi rho sig : list T),
     bin_members z xi rho sig =
     (map (fun xrs => fst (snd xrs))
          (filter (fun xrs => nleb z (fst xrs) && nltb (fst xrs) (nadd z num10))
                  (triples xi rho sig)),
      map (fun xrs => snd (snd xrs))
          (filter (fun xrs => nleb z (fst xrs) && nltb (fst xrs) (nadd z num10))
                  (triples xi rho sig)))) /\
  (exists (zeta xi rho sig : list float) (r s mu smu : float),
     nltb (nth 1 zeta num0) (nadd (nth 0 zeta num0) num10) = true /\
     length (triples xi rho sig) = 1%nat /\
     bin_members (nth 0 zeta num0) xi rho sig = ([r], [s]) /\
     bin_members (nth 1 zeta num0) xi rho sig = ([r], [s]) /\
     weightedavg [r] [s] = Ok (mu, smu) /\
     bin_crosscorr zeta xi rho sig = Ok ([mu; mu; num0], [smu; smu; num0])).
Proof.
  split.
  - intros T ST z xi rho sig. apply bin_members_filter.
  - exists zeta_close, [f7], [f3], [f07].
    do 4 eexists.
    repeat split; vm_compute; reflexivity.
Qed.

(** ** The burn-in cut *)

Lemma py_int_floor_nonneg :
  forall x : Q, (0 <= x)%Q -> py_int x = Qfloor x.
Proof.
  intros [n d] Hx. unfold py_int, Qfloor. simpl.
  apply Z.quot_div_nonneg; [|lia].
  unfold Qle in Hx. simpl in Hx. lia.
Qed.

Lemma slice_from_nonneg :
  forall (A : Type) (a : list A) (start : Z),
    (0 <= start)%Z -> slice_from a start = skipn (Z.to_nat start) a.
Proof.
  intros A a start Hs. unfold slice_from.
  destruct (Z.ltb_spec start 0); [lia | reflexivity].
Qed.

(** ** The Hellings-Downs curve *)

Section HellingsDownsFacts.
Local Open Scope R_scope.

Lemma ln_le_minus_1 : forall z : R, 0 < z -> ln z <= z - 1.
Proof.
  intros z Hz.
  pose proof (exp_ineq1_le (ln z)) as He.
  rewrite (exp_ln z Hz) in He. lra.
Qed.

Lemma ln_nonpos : forall z : R, 0 < z -> z <= 1 -> ln z <= 0.
Proof.
  intros z Hz Hle. pose proof (ln_le_minus_1 z Hz). lra.
Qed.

(** [xip] is the square of the sine of half the angle. *)
Lemma half_versine : forall t : R, (1 - cos t) / 2 = sin (t / 2) * sin (t / 2).
Proof.
  intros t.
  replace t with (2 * (t / 2)) at 1 by field.
  rewrite cos_2a_sin. field.
Qed.

Lemma get_HD_curve_by_half_sine :
  forall zeta : R,
    get_HD_curve zeta =
    let y := sin (zeta * PI / 180 / 2) in
    1 / 2 + 3 / 2 * (y * y) * (ln (y * y) - 1 / 6).
Proof.
  intros zeta. unfold get_HD_curve. cbv zeta.
  rewrite half_versine. field.
Qed.

Lemma half_sine_range :
  forall zeta : R,
    0 < zeta <= 180 ->
    let t := zeta * PI / 180 in
    0 < t / 2 /\ t / 2 < PI /\ 0 < sin (t / 2) <= 1 /\ sin (t / 2) < t / 2.
Proof.
  intros zeta [Hlo Hhi] t.
  pose proof PI_RGT_0 as Hpi.
  assert (Ht : 0 < t <= PI).
  { unfold t. split.
    - apply Rdiv_lt_0_compat; [nra | lra].
    - apply (Rmult_le_reg_r 180); [lra|].
      replace (zeta * PI / 180 * 180) with (zeta * PI) by field. nra. }
  assert (H1 : 0 < t / 2) by lra.
  assert (H2 : t / 2 < PI) by lra.
  repeat split; trivial.
  - now apply sin_gt_0.
  - apply SIN_bound.
  - now apply sin_lt_x.
Qed.

Lemma get_HD_curve_below_half :
  forall zeta : R, 0 < zeta <= 180 -> get_HD_curve zeta < 1 / 2.
Proof.
  intros zeta Hz.
  rewrite get_HD_curve_by_half_sine. cbv zeta.
  destruct (half_sine_range zeta Hz) as (_ & _ & [Hy0 Hy1] & _).
  set (y := sin (zeta * PI / 180 / 2)) in *.
  assert (Hyy : 0 < y * y <= 1) by nra.
  pose proof (ln_nonpos (y * y) (proj1 Hyy) (proj2 Hyy)) as Hln.
  assert (y * y * (ln (y * y) - 1 / 6) < 0); [|lra].
  apply Ropp_lt_cancel. rewrite Ropp_0.
  replace (- (y * y * (ln (y * y) - 1 / 6))) with (y * y * (1 / 6 - ln (y * y))) by ring.
  apply Rmult_lt_0_compat; lra.
Qed.

(** Near zero the curve is within twice the angle (in radians) of 1/2. *)
Lemma get_HD_curve_near_half :
  forall zeta : R,
    0 < zeta <= 180 ->
    Rabs (get_HD_curve zeta - 1 / 2) < 2 * (zeta * PI / 180).
Proof.
  intros zeta Hz.
  pose proof (get_HD_curve_below_half zeta Hz) as Hbelow.
  rewrite Rabs_left by lra.
  rewrite get_HD_curve_by_half_sine in *. cbv zeta in *.
  destruct (half_sine_range zeta Hz) as (Ht0 & _ & [Hy0 Hy1] & Hyt).
  set (t := zeta * PI / 180) in *.
  set (y := sin (t / 2)) in *.
  assert (Hln : ln (y * y) = ln y + ln y) by (now apply ln_mult).
  assert (Hinv : - ln y <= / y - 1).
  { pose proof (ln_le_minus_1 (/ y) (Rinv_0_lt_compat y Hy0)) as Hi.
    rewrite ln_Rinv in Hi by exact Hy0. exact Hi. }
  assert (Hyln : - (y * y * ln y) <= y * (1 - y)).
  { replace (y * (1 - y)) with (y * y * (/ y - 1)) by (field; lra).
    replace (- (y * y * ln y)) with (y * y * (- ln y)) by ring.
    apply Rmult_le_compat_l; [nra | exact Hinv]. }
  rewrite Hln. nra.
Qed.
End HellingsDownsFacts.

(** ** The upper limit *)

Section UpperLimitFacts.
Local Open Scope R_scope.

Lemma insert_sorted_length :
  forall (x : R) (l : list R), length (insert_sorted x l) = S (length l).
Proof.
  intros x l. induction l as [|y l IH]; simpl; [reflexivity|].
  destruct (Rle_dec x y); simpl; [reflexivity | now rewrite IH].
Qed.

Lemma order_statistics_length :
  forall a : list R, length (order_statistics a) = length a.
Proof.
  induction a as [|x a IH]; simpl; [reflexivity|].
  now rewrite insert_sorted_length, IH.
Qed.

Lemma insert_sorted_HdRel :
  forall (x y : R) (l : list R),
    y <= x -> HdRel Rle y l -> HdRel Rle y (insert_sorted x l).
Proof.
  intros x y l Hyx Hhd. destruct l as [|z l]; simpl.
  - apply HdRel_cons. exact Hyx.
  - destruct (Rle_dec x z); apply HdRel_cons; trivial.
    now inversion Hhd.
Qed.

Lemma insert_sorted_Sorted :
  forall (x : R) (l : list R), Sorted Rle l -> Sorted Rle (insert_sorted x l).
Proof.
  intros x l Hs. induction Hs as [|y l Hs IH Hhd]; simpl.
  - apply Sorted_cons; constructor.
  - destruct (Rle_dec x y) as [Hle|Hgt].
    + apply Sorted_cons; [apply Sorted_cons; assumption|].
      apply HdRel_cons. exact Hle.
    + constructor; [exact IH|].
      apply insert_sorted_HdRel; [lra | exact Hhd].
Qed.

Lemma order_statistics_Sorted :
  forall a : list R, StronglySorted Rle (order_statistics a).
Proof.
  intros a. apply Sorted_StronglySorted.
  - intros x y z. apply Rle_trans.
  - induction a as [|x a IH]; simpl; [constructor|].
    now apply insert_sorted_Sorted.
Qed.

Lemma StronglySorted_nth_le :
  forall (s : list R), StronglySorted Rle s ->
    forall i j : nat, (i <= j < length s)%nat -> nth i s 0 <= nth j s 0.
Proof.
  intros s Hs. induction Hs as [|x s Hs IH Hall]; intros i j Hij; simpl in *.
  - lia.
  - destruct i as [|i], j as [|j]; try lia.
    + lra.
    + rewrite Forall_forall in Hall. apply Hall. apply nth_In. lia.
    + apply IH. lia.
  Qed.

(** The position [(n-1)*q/100] and its integer part stay on the samples. *)
Lemma percentile_position :
  forall (n : nat) (q : R),
    (0 < n)%nat -> 0 <= q <= 100 ->
    let h := INR (n - 1) * (q / 100) in
    let lo := Z.to_nat (Zfloor h) in
    0 <= h <= INR (n - 1) /\ (lo <= n - 1)%nat /\
    INR lo <= h < INR lo + 1.
Proof.
  intros n q Hn Hq h lo.
  pose proof (pos_INR (n - 1)) as Hpos.
  assert (Hh : 0 <= h <= INR (n - 1)) by (unfold h; nra).
  assert (Hz : (0 <= Zfloor h)%Z) by (apply Zfloor_lub; simpl; lra).
  assert (Hlo : INR lo = IZR (Zfloor h)).
  { unfold lo. rewrite INR_IZR_INZ, Z2Nat.id; trivial. }
  split; [exact Hh|]. split.
  - assert (Hle : (Zfloor h <= Z.of_nat (n - 1))%Z).
    { rewrite <- (ZfloorZ (Z.of_nat (n - 1))).
      apply Zfloor_le. rewrite <- INR_IZR_INZ. lra. }
    unfold lo. lia.
  - rewrite Hlo. apply Zfloor_bound.
Qed.

(** Linear interpolation between order statistics does not decrease with
    the quantile. *)
Lemma np_percentile_monotone :
  forall (a : list R) (q1 q2 : R),
    a <> [] -> 0 <= q1 -> q1 <= q2 -> q2 <= 100 ->
    exists p1 p2 : R,
      np_percentile a q1 = Some p1 /\ np_percentile a q2 = Some p2 /\ p1 <= p2.
Proof.
  intros a q1 q2 Hne Hq1 Hq12 Hq2.
  destruct a as [|x0 a0]; [congruence|].
  set (a := x0 :: a0) in *.
  unfold np_percentile. fold a.
  set (n := length a).
  assert (Hn : (0 < n)%nat) by (unfold n, a; simpl; lia).
  set (s := order_statistics a).
  assert (Hs : StronglySorted Rle s) by apply order_statistics_Sorted.
  assert (Hls : length s = n) by apply order_statistics_length.
  destruct (percentile_position n q1 Hn) as (Hh1 & Hlo1 & Hg1); [lra|].
  destruct (percentile_position n q2 Hn) as (Hh2 & Hlo2 & Hg2); [lra|].
  set (h1 := INR (n - 1) * (q1 / 100)) in *.
  set (h2 := INR (n - 1) * (q2 / 100)) in *.
  set (lo1 := Z.to_nat (Zfloor h1)) in *.
  set (lo2 := Z.to_nat (Zfloor h2)) in *.
  assert (Hh12 : h1 <= h2).
  { unfold h1, h2. pose proof (pos_INR (n - 1)). nra. }
  assert (Hlo12 : (lo1 <= lo2)%nat).
  { unfold lo1, lo2. apply Z2Nat.inj_le.
    - apply Zfloor_lub; simpl; lra.
    - apply Zfloor_lub; simpl; lra.
    - now apply Zfloor_le. }
  eexists. eexists. split; [reflexivity|]. split; [reflexivity|].
  set (hi1 := Nat.min (lo1 + 1) (n - 1)).
  set (hi2 := Nat.min (lo2 + 1) (n - 1)).
  assert (Hs1 : nth lo1 s 0 <= nth hi1 s 0)
    by (apply StronglySorted_nth_le; [exact Hs | unfold hi1; lia]).
  assert (Hs2 : nth lo2 s 0 <= nth hi2 s 0)
    by (apply StronglySorted_nth_le; [exact Hs | unfold hi2; lia]).
  destruct (Nat.eq_dec lo1 lo2) as [Heq|Hneq].
  - unfold hi1, hi2 in *. rewrite <- Heq in *.
    apply Rplus_le_compat_l.
    apply Rmult_le_compat_l; lra.
  - assert (Hmid : nth hi1 s 0 <= nth lo2 s 0)
      by (apply StronglySorted_nth_le; [exact Hs | unfold hi1; lia]).
    apply (Rle_trans _ (nth hi1 s 0)).
    + assert (Hpos : 0 <= (nth hi1 s 0 - nth lo1 s 0) * (1 - (h1 - INR lo1)))
        by (apply Rmult_le_pos; lra).
      lra.
    + apply (Rle_trans _ (nth lo2 s 0)); [exact Hmid|].
      assert (Hpos : 0 <= (nth hi2 s 0 - nth lo2 s 0) * (h2 - INR lo2))
        by (apply Rmult_le_pos; lra).
      lra.
Qed.
End UpperLimitFacts.

(** C9: for non-empty samples and quantiles 0 <= q1 <= q2 <= 100, the upper
    limit 10**percentile(samples, q) exists at both quantiles and does not
    decrease from q1 to q2. *)
Theorem upper_monotone_in_quantile :
  forall (samples : list R) (q1 q2 : R),
    samples <> [] ->
    (0 <= q1)%R -> (q1 <= q2)%R -> (q2 <= 100)%R ->
    exists u1 u2 : R,
      upper samples q1 = Some u1 /\ upper samples q2 = Some u2 /\ (u1 <= u2)%R.
Proof.
  intros samples q1 q2 Hne Hq1 Hq12 Hq2.
  destruct (np_percentile_monotone samples q1 q2 Hne Hq1 Hq12 Hq2)
    as (p1 & p2 & Hp1 & Hp2 & Hle).
  exists (Rpower 10 p1), (Rpower 10 p2).
  unfold upper. rewrite Hp1, Hp2. simpl.
  repeat split.
  apply Rle_Rpower; [lra | exact Hle].
Qed.

Lemma upper_monotone_in_quantile_witness :
  exists u1 u2 : R,
    upper [(-145 / 10)%R; (-148 / 10)%R; (-15)%R] 90 = Some u1 /\
    upper [(-145 / 10)%R; (-148 / 10)%R; (-15)%R] 95 = Some u2 /\
    (u1 <= u2)%R.
Proof.
  apply upper_monotone_in_quantile.
  - discriminate.
  - lra.
  - lra.
  - lra.
Defined.

(** ** More on [weightedavg] *)

Lemma combine_nil_iff :
  forall (A B : Type) (a : list A) (b : list B),
    combine a b = [] <-> a = [] \/ b = [].
Proof.
  intros A B [|x a] [|y b]; simpl; split; intros Hx; auto; try discriminate.
  destruct Hx; discriminate.
Qed.

Lemma combine_truncated :
  forall (A B : Type) (a : list A) (b : list B),
    combine (firstn (Nat.min (length a) (length b)) a)
            (firstn (Nat.min (length a) (length b)) b)
    = combine a b.
Proof.
  intros A B a b.
  rewrite <- combine_firstn, <- (length_combine a b).
  apply firstn_all.
Qed.

(** [zip] stops at the shorter list: [weightedavg] raises
    [ZeroDivisionError] when one of its lists is empty, answers otherwise, and
    silently ignores what the longer list has beyond the shorter one. *)
Theorem weightedavg_zip_truncates :
  forall (T : Type) (ST : Scalar T) (rho sig : list T),
    (rho = [] \/ sig = [] -> weightedavg rho sig = Raise ZeroDivisionError) /\
    (rho <> [] -> sig <> [] ->
     exists mu smu, weightedavg rho sig = Ok (mu, smu)) /\
    weightedavg rho sig
    = weightedavg (firstn (Nat.min (length rho) (length sig)) rho)
                  (firstn (Nat.min (length rho) (length sig)) sig).
Proof.
  intros T ST rho sig.
  split; [|split].
  - intros Hempty. apply combine_nil_iff in Hempty.
    unfold weightedavg. rewrite Hempty. reflexivity.
  - intros Hr Hs. unfold weightedavg.
    destruct (fold_left weightedavg_step (combine rho sig) (num0, num0)) as [w a].
    destruct (combine rho sig) eqn:E.
    + apply combine_nil_iff in E. tauto.
    + eexists. eexists. reflexivity.
  - unfold weightedavg. now rewrite combine_truncated.
Qed.

Lemma weightedavg_zip_truncates_witness :
  weightedavg [f07; f3] (@nil float) = Raise ZeroDivisionError.
Proof.
  apply (proj1 (weightedavg_zip_truncates float float_scalar [f07; f3] [])).
  now right.
Defined.

Section WeightedAvgExact.
Local Open Scope R_scope.

(** The sums the loop accumulates, over exact numbers. *)
Lemma fold_weightedavg_step_sums :
  forall (l : list (R * R)) (w a : R),
    fold_left weightedavg_step l (w, a) =
    (w + fold_right (fun rs acc => 1 / (snd rs * snd rs) + acc) 0 l,
     a + fold_right (fun rs acc => fst rs / (snd rs * snd rs) + acc) 0 l).
Proof.
  induction l as [|[r s] l IH]; intros w a; simpl.
  - f_equal; ring.
  - rewrite IH. cbn [nadd nmul ndiv num1 R_scalar]. f_equal; ring.
Qed.

Lemma total_weight_pos :
  forall l : list (R * R),
    Forall (fun rs => 0 < snd rs) l -> l <> [] ->
    0 < fold_right (fun rs acc => 1 / (snd rs * snd rs) + acc) 0 l.
Proof.
  intros l Hl Hne.
  assert (Hge : forall l, Forall (fun rs : R * R => 0 < snd rs) l ->
                  0 <= fold_right (fun rs acc => 1 / (snd rs * snd rs) + acc) 0 l).
  { clear. induction 1 as [|[r s] l Hs _ IH]; simpl; [lra|].
    pose proof (weight_pos s Hs). lra. }
  destruct Hl as [|[r s] l Hs Hl]; [congruence|]. simpl.
  pose proof (weight_pos s Hs). pose proof (Hge l Hl). lra.
Qed.

Lemma total_weight_ge_each :
  forall (l : list (R * R)) (r s : R),
    Forall (fun rs => 0 < snd rs) l -> In (r, s) l ->
    1 / (s * s) <= fold_right (fun rs acc => 1 / (snd rs * snd rs) + acc) 0 l.
Proof.
  intros l r s Hl. induction Hl as [|[r0 s0] l Hs Hl IH]; intros Hin; [contradiction|].
  simpl in *.
  assert (Hge : 0 <= fold_right (fun rs acc => 1 / (snd rs * snd rs) + acc) 0 l).
  { destruct l as [|p l']; [simpl; lra|].
    left. apply total_weight_pos; [exact Hl | discriminate]. }
  destruct Hin as [Heq|Hin].
  - injection Heq as -> ->. lra.
  - pose proof (weight_pos s0 Hs). specialize (IH Hin). lra.
Qed.

(** What [weightedavg] answers over exact numbers, in terms of the two sums. *)
Lemma weightedavg_exact_value :
  forall rho sig : list R,
    combine rho sig <> [] ->
    weightedavg rho sig =
    Ok (fold_right (fun rs acc => fst rs / (snd rs * snd rs) + acc) 0 (combine rho sig)
        / fold_right (fun rs acc => 1 / (snd rs * snd rs) + acc) 0 (combine rho sig),
        R_sqrt.sqrt (1 / fold_right (fun rs acc => 1 / (snd rs * snd rs) + acc) 0
                             (combine rho sig))).
Proof.
  intros rho sig Hne. unfold weightedavg.
  rewrite fold_weightedavg_step_sums. cbn [num0 num1 ndiv nsqrt R_scalar].
  destruct (combine rho sig) as [|p l]; [congruence|].
  rewrite !Rplus_0_l. reflexivity.
Qed.

Lemma positive_pairs :
  forall rho sig : list R,
    Forall positive sig -> Forall (fun rs => 0 < snd rs) (combine rho sig).
Proof.
  intros rho sig Hs. apply Forall_forall. intros [r s] Hin.
  apply in_combine_r in Hin. rewrite Forall_forall in Hs.
  apply positive_R. now apply Hs.
Qed.
End WeightedAvgExact.

(** Over exact numbers the combined uncertainty is positive and no larger
    than the uncertainty of any pair that was averaged. *)
Theorem weightedavg_uncertainty_shrinks :
  forall rho sig : list R,
    rho <> [] -> length rho = length sig -> Forall positive sig ->
    exists mu smu : R,
      weightedavg rho sig = Ok (mu, smu) /\
      (0 < smu)%R /\
      forall s : R, In s sig -> (smu <= s)%R.
Proof.
  intros rho sig Hne Hlen Hpos.
  assert (Hc : combine rho sig <> []).
  { intros E. apply combine_nil_iff in E. destruct E as [E|E]; [congruence|].
    rewrite E in Hlen. destruct rho; [congruence | discriminate]. }
  pose proof (positive_pairs rho sig Hpos) as Hpairs.
  pose proof (total_weight_pos _ Hpairs Hc) as HW.
  rewrite (weightedavg_exact_value rho sig Hc).
  eexists. eexists. split; [reflexivity|]. split.
  - apply sqrt_lt_R0. apply Rdiv_lt_0_compat; lra.
  - intros s Hs.
    assert (Hs0 : (0 < s)%R).
    { rewrite Forall_forall in Hpos. apply positive_R. now apply Hpos. }
    destruct (In_nth sig s 0%R Hs) as (k & Hk & Hnth).
    assert (Hin : In (nth k rho 0%R, s) (combine rho sig)).
    { rewrite <- Hnth. rewrite <- combine_nth by exact Hlen.
      apply nth_In. rewrite length_combine. lia. }
    pose proof (total_weight_ge_each _ _ _ Hpairs Hin) as Hge.
    set (W := fold_right _ _ _) in *.
    apply (Rle_trans _ (R_sqrt.sqrt (s * s))); [|rewrite sqrt_square; lra].
    apply sqrt_le_1_alt.
    assert (Hss : (0 < s * s)%R) by nra.
    apply (Rmult_le_reg_r W); [exact HW|].
    replace (1 / W * W)%R with 1%R by (field; lra).
    apply (Rmult_le_reg_r (/ (s * s))); [now apply Rinv_0_lt_compat|].
    replace (s * s * W * / (s * s))%R with W by (field; lra).
    unfold Rdiv in Hge. lra.
Qed.

Lemma weightedavg_uncertainty_shrinks_witness :
  exists mu smu : R,
    weightedavg [1%R; 2%R] [1%R; 3%R] = Ok (mu, smu) /\
    (0 < smu)%R /\
    forall s : R, In s [1%R; 3%R] -> (smu <= s)%R.
Proof.
  apply weightedavg_uncertainty_shrinks.
  - discriminate.
  - reflexivity.
  - repeat constructor; apply positive_R; lra.
Defined.

Section WeightedAvgAlgebra.
Local Open Scope R_scope.

Lemma combine_map_both :
  forall (A B C D : Type) (f : A -> C) (g : B -> D) (a : list A) (b : list B),
    combine (map f a) (map g b)
    = map (fun p => (f (fst p), g (snd p))) (combine a b).
Proof.
  intros A B C D f g a. induction a as [|x a IH]; intros [|y b]; simpl;
    try reflexivity.
  now rewrite IH.
Qed.

Lemma combine_app_same_length :
  forall (A B : Type) (a1 a2 : list A) (b1 b2 : list B),
    length a1 = length b1 ->
    combine (a1 ++ a2) (b1 ++ b2) = combine a1 b1 ++ combine a2 b2.
Proof.
  intros A B a1. induction a1 as [|x a1 IH]; intros a2 [|y b1] b2 Hlen;
    simpl in *; try discriminate; [reflexivity|].
  f_equal. apply IH. lia.
Qed.

(** The two sums after an affine change of [rho] and a rescaling of [sig]. *)
Lemma sums_after_change_of_units :
  forall (a b c : R) (l : list (R * R)),
    0 < c -> Forall (fun rs => 0 < snd rs) l ->
    fold_right (fun rs acc => 1 / (snd rs * snd rs) + acc) 0
               (map (fun p => (a * fst p + b, c * snd p)) l)
    = fold_right (fun rs acc => 1 / (snd rs * snd rs) + acc) 0 l / (c * c) /\
    fold_right (fun rs acc => fst rs / (snd rs * snd rs) + acc) 0
               (map (fun p => (a * fst p + b, c * snd p)) l)
    = (a * fold_right (fun rs acc => fst rs / (snd rs * snd rs) + acc) 0 l
       + b * fold_right (fun rs acc => 1 / (snd rs * snd rs) + acc) 0 l) / (c * c).
Proof.
  intros a b c l Hc Hl.
  induction Hl as [|[r s] l Hs _ [IHw IHa]]; simpl in *.
  - split; field; lra.
  - rewrite IHw, IHa. split; field; lra.
Qed.

Lemma sums_of_app :
  forall l1 l2 : list (R * R),
    fold_right (fun rs acc => 1 / (snd rs * snd rs) + acc) 0 (l1 ++ l2)
    = fold_right (fun rs acc => 1 / (snd rs * snd rs) + acc) 0 l1
      + fold_right (fun rs acc => 1 / (snd rs * snd rs) + acc) 0 l2 /\
    fold_right (fun rs acc => fst rs / (snd rs * snd rs) + acc) 0 (l1 ++ l2)
    = fold_right (fun rs acc => fst rs / (snd rs * snd rs) + acc) 0 l1
      + fold_right (fun rs acc => fst rs / (snd rs * snd rs) + acc) 0 l2.
Proof.
  intros l1 l2. induction l1 as [|[r s] l1 [IHw IHa]]; simpl.
  - split; ring.
  - rewrite IHw, IHa. split; ring.
Qed.

Lemma weightedavg_ok_nonempty :
  forall (rho sig : list R) (mu smu : R),
    weightedavg rho sig = Ok (mu, smu) -> combine rho sig <> [].
Proof.
  intros rho sig mu smu Hw E. unfold weightedavg in Hw. rewrite E in Hw.
  simpl in Hw. discriminate.
Qed.

(** Over exact numbers one pair is its own weighted average. *)
Lemma weightedavg_single_pair :
  forall r s : R, 0 < s -> weightedavg [r] [s] = Ok (r, s).
Proof.
  intros r s Hs.
  rewrite weightedavg_exact_value by discriminate. simpl.
  f_equal. f_equal.
  - field. lra.
  - replace (1 / (1 / (s * s) + 0)) with (s * s) by (field; lra).
    apply sqrt_square. lra.
Qed.
End WeightedAvgAlgebra.

(** Over exact numbers a change of units goes through [weightedavg]: if the
    data are replaced by [a * rho + b] and the uncertainties by [c * sig]
    with [c > 0], the mean becomes [a * mu + b] and its uncertainty
    [c * smu]. *)
Theorem weightedavg_change_of_units :
  forall (a b c : R) (rho sig : list R) (mu smu : R),
    (0 < c)%R -> Forall positive sig ->
    weightedavg rho sig = Ok (mu, smu) ->
    weightedavg (map (fun r => a * r + b)%R rho) (map (fun s => c * s)%R sig)
    = Ok ((a * mu + b)%R, (c * smu)%R).
Proof.
  intros a b c rho sig mu smu Hc Hpos Hw.
  pose proof (weightedavg_ok_nonempty rho sig mu smu Hw) as Hne.
  pose proof (positive_pairs rho sig Hpos) as Hpairs.
  pose proof (total_weight_pos _ Hpairs Hne) as HW.
  rewrite (weightedavg_exact_value rho sig Hne) in Hw.
  injection Hw as Hmu Hsmu.
  rewrite weightedavg_exact_value.
  - rewrite combine_map_both.
    destruct (sums_after_change_of_units a b c _ Hc Hpairs) as [Ew Ea].
    rewrite Ew, Ea.
    set (W := fold_right (fun rs acc => 1 / (snd rs * snd rs) + acc)%R 0%R
                         (combine rho sig)) in *.
    set (A := fold_right (fun rs acc => fst rs / (snd rs * snd rs) + acc)%R 0%R
                         (combine rho sig)) in *.
    f_equal. f_equal.
    + rewrite <- Hmu. field. lra.
    + rewrite <- Hsmu.
      replace (1 / (W / (c * c)))%R with ((c * c) * (1 / W))%R by (field; lra).
      rewrite sqrt_mult_alt by nra.
      rewrite sqrt_square by lra. reflexivity.
  - rewrite combine_map_both. intros E. apply map_eq_nil in E. contradiction.
Qed.

Lemma weightedavg_change_of_units_witness :
  weightedavg (map (fun r => 2 * r + 5)%R [3%R]) (map (fun s => 2 * s)%R [4%R])
  = Ok ((2 * 3 + 5)%R, (2 * 4)%R).
Proof.
  apply (weightedavg_change_of_units 2 5 2 [3%R] [4%R] 3 4).
  - lra.
  - repeat constructor; apply positive_R; lra.
  - apply weightedavg_single_pair. lra.
Defined.

(** Over exact numbers bins can be merged: the weighted average of two
    groups of pairs taken together is the weighted average of the two group
    means with the two group uncertainties. *)
Theorem weightedavg_merges_bins :
  forall (rho1 sig1 rho2 sig2 : list R) (mu1 smu1 mu2 smu2 : R),
    length rho1 = length sig1 ->
    Forall positive sig1 -> Forall positive sig2 ->
    weightedavg rho1 sig1 = Ok (mu1, smu1) ->
    weightedavg rho2 sig2 = Ok (mu2, smu2) ->
    weightedavg (rho1 ++ rho2) (sig1 ++ sig2)
    = weightedavg [mu1; mu2] [smu1; smu2].
Proof.
  intros rho1 sig1 rho2 sig2 mu1 smu1 mu2 smu2 Hlen Hp1 Hp2 Hw1 Hw2.
  pose proof (weightedavg_ok_nonempty _ _ _ _ Hw1) as Hne1.
  pose proof (weightedavg_ok_nonempty _ _ _ _ Hw2) as Hne2.
  pose proof (total_weight_pos _ (positive_pairs rho1 sig1 Hp1) Hne1) as HW1.
  pose proof (total_weight_pos _ (positive_pairs rho2 sig2 Hp2) Hne2) as HW2.
  rewrite (weightedavg_exact_value rho1 sig1 Hne1) in Hw1.
  rewrite (weightedavg_exact_value rho2 sig2 Hne2) in Hw2.
  injection Hw1 as Hmu1 Hsmu1. injection Hw2 as Hmu2 Hsmu2.
  rewrite (weightedavg_exact_value (rho1 ++ rho2) (sig1 ++ sig2)).
  2:{ rewrite (combine_app_same_length _ _ _ _ _ _ Hlen).
      intros E. apply app_eq_nil in E. tauto. }
  rewrite (weightedavg_exact_value [mu1; mu2] [smu1; smu2]) by discriminate.
  rewrite (combine_app_same_length _ _ _ _ _ _ Hlen).
  destruct (sums_of_app (combine rho1 sig1) (combine rho2 sig2)) as [Ew Ea].
  rewrite Ew, Ea. simpl.
  set (W1 := fold_right (fun rs acc => 1 / (snd rs * snd rs) + acc)%R 0%R
                        (combine rho1 sig1)) in *.
  set (A1 := fold_right (fun rs acc => fst rs / (snd rs * snd rs) + acc)%R 0%R
                        (combine rho1 sig1)) in *.
  set (W2 := fold_right (fun rs acc => 1 / (snd rs * snd rs) + acc)%R 0%R
                        (combine rho2 sig2)) in *.
  set (A2 := fold_right (fun rs acc => fst rs / (snd rs * snd rs) + acc)%R 0%R
                        (combine rho2 sig2)) in *.
  assert (Hs1 : (smu1 * smu1 = 1 / W1)%R).
  { rewrite <- Hsmu1. apply sqrt_sqrt. left. apply Rdiv_lt_0_compat; lra. }
  assert (Hs2 : (smu2 * smu2 = 1 / W2)%R).
  { rewrite <- Hsmu2. apply sqrt_sqrt. left. apply Rdiv_lt_0_compat; lra. }
  rewrite Hs1, Hs2, <- Hmu1, <- Hmu2.
  assert (E1 : (1 / (1 / W1) = W1)%R) by (field; lra).
  assert (E2 : (1 / (1 / W2) = W2)%R) by (field; lra).
  assert (E3 : (A1 / W1 / (1 / W1) = A1)%R) by (field; lra).
  assert (E4 : (A2 / W2 / (1 / W2) = A2)%R) by (field; lra).
  rewrite E1, E2, E3, E4, !Rplus_0_r. reflexivity.
Qed.

Lemma weightedavg_merges_bins_witness :
  weightedavg ([3%R; 3%R] ++ [5%R]) ([2%R; 2%R] ++ [2%R])
  = weightedavg [3%R; 5%R] [R_sqrt.sqrt 2; 2%R].
Proof.
  apply (weightedavg_merges_bins [3%R; 3%R] [2%R; 2%R] [5%R] [2%R]
           3 (R_sqrt.sqrt 2) 5 2).
  - reflexivity.
  - repeat constructor; apply positive_R; lra.
  - repeat constructor; apply positive_R; lra.
  - rewrite weightedavg_exact_value by discriminate. simpl.
    f_equal. f_equal; [field | f_equal; field].
  - apply weightedavg_single_pair. lra.
Defined.

(** ** More on the fixed-count binning cell *)

Section IndexingErrors.
Variable A : Type.

Lemma fancy_index_out_of_range :
  forall (a : list A) (idx : list nat) (i : nat),
    In i idx -> (length a <= i)%nat -> fancy_index a idx = Raise IndexError.
Proof.
  intros a idx i Hin Hi.
  induction idx as [|j idx IH]; [contradiction|].
  simpl. destruct (nth_error a j) as [v|] eqn:E; [|reflexivity].
  destruct Hin as [->|Hin].
  - apply nth_error_None in Hi. congruence.
  - now rewrite (IH Hin).
Qed.

Lemma fancy_index_ok_map :
  forall (a : list A) (d : A) (idx : list nat) (l : list A),
    fancy_index a idx = Ok l -> l = map (fun i => nth i a d) idx.
Proof.
  intros a d idx. induction idx as [|i idx IH]; intros l Hl; simpl in *.
  - now injection Hl as <-.
  - destruct (nth_error a i) as [v|] eqn:E; [|discriminate].
    destruct (fancy_index a idx) as [rest|e]; [|discriminate].
    simpl in Hl. injection Hl as <-.
    rewrite <- (IH rest eq_refl). f_equal.
    symmetry. now apply nth_error_nth.
Qed.
End IndexingErrors.

Section FixedCountEdges.
Context {T : Type} `{Scalar T}.

(** A finished run from position [i] has appended bins whose [xi] slices,
    laid end to end, are the sorted [xi] from [i] on. *)
Lemma binning_loop_inversion :
  forall (npairs : nat) (xs rs ss : list T) (fuel i : nat)
         (bins out : list bin),
    binning_loop fuel npairs xs rs ss i bins = Some (Ok out) ->
    exists new : list bin,
      out = bins ++ new /\ concat (map bin_xi new) = skipn i xs.
Proof.
  intros npairs xs rs ss.
  induction fuel as [|fuel IH]; intros i bins out Hrun; [discriminate|].
  simpl in Hrun.
  destruct (i <? length xs)%nat eqn:Hi.
  - destruct (weightedavg _ _) as [[r s]|e]; [|discriminate].
    destruct (IH _ _ _ Hrun) as (new & Hout & Hcat).
    exists (mk_bin (slice xs i (npairs + i)) (slice rs i (npairs + i))
                   (slice ss i (npairs + i)) r s :: new).
    split.
    + rewrite Hout, <- app_assoc. reflexivity.
    + simpl. rewrite Hcat, slice_as_firstn.
      replace (i + npairs)%nat with (npairs + i)%nat by lia.
      rewrite <- skipn_skipn. apply firstn_skipn.
  - injection Hrun as <-. apply Nat.ltb_ge in Hi.
    exists []. rewrite app_nil_r. split; [reflexivity|].
    simpl. symmetry. now apply skipn_all2.
Qed.
End FixedCountEdges.

(** The binning cell cannot run forever on a degenerate input: without
    pairs it ends at once with no bin, whatever [npairs] is, and with
    [npairs = 0] and at least one pair its first turn hands [weightedavg]
    two empty slices, which raises [ZeroDivisionError]. *)
Theorem fixed_count_binning_degenerate :
  forall (T : Type) (ST : Scalar T) (xi rho sig : list T) (idx : list nat)
         (fuel : nat),
    (0 < fuel)%nat ->
    length rho = length xi -> length sig = length xi ->
    argsort_ok xi idx ->
    (xi = [] ->
     forall npairs : nat,
       fixed_count_binning fuel npairs xi rho sig idx = Some (Ok [])) /\
    (xi <> [] ->
     fixed_count_binning fuel 0 xi rho sig idx = Some (Raise ZeroDivisionError)).
Proof.
  intros T ST xi rho sig idx fuel Hfuel Hr Hs [Hp _].
  destruct (sort_by_xi_spec xi rho sig idx Hr Hs Hp)
    as (xs & rs & ss & Hsort & Hxs & _).
  assert (Hlen : length xs = length xi).
  { rewrite Hxs, length_map, (Permutation_length Hp). apply length_seq. }
  destruct fuel as [|fuel]; [lia|].
  unfold fixed_count_binning. rewrite Hsort.
  split.
  - intros -> npairs. simpl in Hlen. simpl.
    destruct xs; [reflexivity | discriminate].
  - intros Hne. simpl.
    destruct (Nat.ltb_spec 0 (length xs)) as [_|Hz].
    + reflexivity.
    + destruct xi; [congruence | simpl in Hlen; lia].
Qed.

Lemma fixed_count_binning_degenerate_witness :
  (xi3 = [] ->
   forall npairs : nat,
     fixed_count_binning 1 npairs xi3 rho3 sig3 idx3 = Some (Ok [])) /\
  (xi3 <> [] ->
   fixed_count_binning 1 0 xi3 rho3 sig3 idx3 = Some (Raise ZeroDivisionError)).
Proof.
  apply fixed_count_binning_degenerate.
  - lia.
  - reflexivity.
  - reflexivity.
  - split.
    + apply perm_swap.
    + vm_compute. repeat constructor.
Defined.

(** When [rho] or [sig] has fewer entries than [xi], indexing it with the
    positions that sort [xi] raises [IndexError] before any bin is made. *)
Theorem fixed_count_binning_short_array :
  forall (T : Type) (ST : Scalar T) (xi rho sig : list T) (idx : list nat)
         (fuel npairs : nat),
    argsort_ok xi idx ->
    (length rho < length xi)%nat \/ (length sig < length xi)%nat ->
    fixed_count_binning fuel npairs xi rho sig idx = Some (Raise IndexError).
Proof.
  intros T ST xi rho sig idx fuel npairs [Hp _] Hshort.
  unfold fixed_count_binning, sort_by_xi.
  rewrite (fancy_index_in_range _ xi num0 idx
             (permutation_of_positions_in_range idx (length xi) Hp)).
  simpl.
  assert (Hlast : forall a : list T,
             (length a < length xi)%nat -> fancy_index a idx = Raise IndexError).
  { intros a Ha.
    apply (fancy_index_out_of_range _ a idx (length a)); [|lia].
    apply (Permutation_in _ (Permutation_sym Hp)). apply in_seq. lia. }
  destruct (Nat.lt_ge_cases (length rho) (length xi)) as [Hr|Hr].
  - now rewrite (Hlast rho Hr).
  - destruct Hshort as [Hs|Hs]; [lia|].
    rewrite (fancy_index_in_range _ rho num0 idx).
    + simpl. now rewrite (Hlast sig Hs).
    + eapply Forall_impl;
        [|exact (permutation_of_positions_in_range idx (length xi) Hp)].
      simpl. intros. lia.
Qed.

Lemma fixed_count_binning_short_array_witness :
  fixed_count_binning 4 2 xi3 [f07; f3] sig3 idx3 = Some (Raise IndexError).
Proof.
  apply fixed_count_binning_short_array.
  - split.
    + apply perm_swap.
    + vm_compute. repeat constructor.
  - left. simpl. lia.
Defined.

Section BinsInOrder.
Local Open Scope R_scope.

Lemma Sorted_Rleb_StronglySorted :
  forall l : list R,
    Sorted (fun a b => Rleb a b = true) l -> StronglySorted Rle l.
Proof.
  intros l Hs. apply Sorted_StronglySorted.
  - intros x y z. apply Rle_trans.
  - induction Hs as [|x l _ IH Hhd]; constructor; trivial.
    destruct Hhd as [|y l Hxy]; constructor. now apply Rleb_true.
Qed.

Lemma StronglySorted_app_le :
  forall (l1 l2 : list R),
    StronglySorted Rle (l1 ++ l2) ->
    forall a b : R, In a l1 -> In b l2 -> a <= b.
Proof.
  induction l1 as [|x l1 IH]; intros l2 Hs a b Ha Hb; [contradiction|].
  simpl in Hs. inversion Hs as [|? ? Hs' Hall]; subst.
  destruct Ha as [->|Ha].
  - rewrite Forall_forall in Hall. apply Hall. apply in_or_app. now right.
  - now apply (IH l2).
Qed.

Lemma StronglySorted_app_r :
  forall (l1 l2 : list R), StronglySorted Rle (l1 ++ l2) -> StronglySorted Rle l2.
Proof.
  induction l1 as [|x l1 IH]; intros l2 Hs; [exact Hs|].
  simpl in Hs. inversion Hs; subst. now apply IH.
Qed.

(** Chunks of a sorted list: what sits in an earlier chunk is at most what
    sits in a later one. *)
Lemma chunks_in_order :
  forall (chunks : list (list R)) (j k : nat) (cj ck : list R),
    StronglySorted Rle (concat chunks) ->
    (j < k)%nat ->
    nth_error chunks j = Some cj -> nth_error chunks k = Some ck ->
    forall a b : R, In a cj -> In b ck -> a <= b.
Proof.
  induction chunks as [|c chunks IH]; intros j k cj ck Hs Hjk Hj Hk a b Ha Hb.
  - destruct j; discriminate.
  - simpl in Hs. destruct k as [|k]; [lia|]. simpl in Hk.
    destruct j as [|j]; simpl in Hj.
    + injection Hj as <-.
      apply (StronglySorted_app_le c (concat chunks) Hs a b Ha).
      apply in_concat. exists ck. split; [|exact Hb].
      now apply (nth_error_In chunks k).
    + apply (IH j k cj ck); trivial; [|lia].
      now apply (StronglySorted_app_r c).
Qed.
End BinsInOrder.

(** Over exact numbers the bins come in order of separation: whenever the
    binning cell ends with a list of bins, every xi of an earlier bin is at
    most every xi of a later bin. *)
Theorem fixed_count_bins_in_order :
  forall (xi rho sig : list R) (idx : list nat) (fuel npairs : nat)
         (bins : list bin),
    argsort_ok xi idx ->
    fixed_count_binning fuel npairs xi rho sig idx = Some (Ok bins) ->
    forall (j k : nat) (bj bk : bin),
      (j < k)%nat ->
      nth_error bins j = Some bj -> nth_error bins k = Some bk ->
      forall a b : R, In a (bin_xi bj) -> In b (bin_xi bk) -> (a <= b)%R.
Proof.
  intros xi rho sig idx fuel npairs bins [Hp Hsorted] Hrun j k bj bk Hjk Hj Hk.
  unfold fixed_count_binning in Hrun.
  destruct (sort_by_xi xi rho sig idx) as [[[xs rs] ss]|e] eqn:Hsort;
    [|discriminate].
  assert (Hxs : xs = map (fun i => nth i xi num0) idx).
  { unfold sort_by_xi in Hsort.
    destruct (fancy_index xi idx) as [xs'|] eqn:Ex; [|discriminate].
    simpl in Hsort.
    destruct (fancy_index rho idx) as [rs'|]; [|discriminate]. simpl in Hsort.
    destruct (fancy_index sig idx) as [ss'|]; [|discriminate]. simpl in Hsort.
    injection Hsort as <- _ _.
    now apply fancy_index_ok_map. }
  destruct (binning_loop_inversion npairs xs rs ss fuel 0 [] bins Hrun)
    as (new & Hout & Hcat).
  simpl in Hout, Hcat. subst new.
  apply (chunks_in_order (map bin_xi bins) j k (bin_xi bj) (bin_xi bk)); trivial.
  - rewrite Hcat, Hxs. now apply Sorted_Rleb_StronglySorted.
  - rewrite nth_error_map, Hj. reflexivity.
  - rewrite nth_error_map, Hk. reflexivity.
Qed.

Lemma argsort_ok_xi2 : argsort_ok xi2_exact idx2.
Proof.
  split.
  - apply perm_swap.
  - simpl. repeat (constructor; try (apply Rleb_true; lra)).
Qed.

Lemma fixed_count_bins_in_order_witness :
  exists bins : list bin,
    fixed_count_binning 3 1 xi2_exact rho2_exact sig2_exact idx2 = Some (Ok bins) /\
    forall (j k : nat) (bj bk : bin),
      (j < k)%nat ->
      nth_error bins j = Some bj -> nth_error bins k = Some bk ->
      forall a b : R, In a (bin_xi bj) -> In b (bin_xi bk) -> (a <= b)%R.
Proof.
  destruct (binning_loop_spec 1 [1%R; 2%R] [4%R; 3%R] [1%R; 1%R]
              Nat.lt_0_1 eq_refl eq_refl 3 0 [])
    as (bins & Hrun & _); [simpl; lia|].
  exists bins.
  assert (Hfull : fixed_count_binning 3 1 xi2_exact rho2_exact sig2_exact idx2
                  = Some (Ok bins)) by exact Hrun.
  split; [exact Hfull|].
  exact (fixed_count_bins_in_order xi2_exact rho2_exact sig2_exact idx2 3 1 bins
           argsort_ok_xi2 Hfull).
Defined.

(** ** More on [bin_crosscorr] *)

Section SetItemFacts.
Variable A : Type.

Lemma set_item_length :
  forall (a : list A) (i : nat) (v : A), length (set_item a i v) = length a.
Proof.
  induction a as [|x a IH]; intros [|i] v; simpl; auto.
Qed.

Lemma set_item_nth_same :
  forall (a : list A) (i : nat) (v d : A),
    (i < length a)%nat -> nth i (set_item a i v) d = v.
Proof.
  induction a as [|x a IH]; intros [|i] v d Hi; simpl in *; try lia; auto.
  apply IH. lia.
Qed.

Lemma set_item_nth_other :
  forall (a : list A) (i j : nat) (v d : A),
    i <> j -> nth j (set_item a i v) d = nth j a d.
Proof.
  induction a as [|x a IH]; intros [|i] [|j] v d Hij; simpl; auto; try lia.
Qed.

Lemma removelast_nth :
  forall (a : list A) (i : nat) (d : A),
    (S i < length a)%nat -> nth i (removelast a) d = nth i a d.
Proof.
  intros a i d Hi. rewrite removelast_firstn_len, nth_firstn.
  destruct (Nat.ltb_spec i (Init.Nat.pred (length a))); [reflexivity | lia].
Qed.

Lemma removelast_length :
  forall a : list A, length (removelast a) = (length a - 1)%nat.
Proof.
  intros a. rewrite removelast_firstn_len, length_firstn. lia.
Qed.

Lemma filter_nil_Forall :
  forall (p : A -> bool) (l : list A),
    filter p l = [] -> Forall (fun x => p x = false) l.
Proof.
  intros p l. induction l as [|x l IH]; simpl; intros Hf; [constructor|].
  destruct (p x) eqn:E; [discriminate|]. constructor; auto.
Qed.
End SetItemFacts.

Section FixedWidthSpec.
Context {T : Type} `{Scalar T}.

(** What the outer loop has written when it ends without raising. *)
Lemma bin_crosscorr_loop_spec :
  forall (xi rho sig zl : list T) (k : nat) (out : list T * list T)
         (ra sa : list T),
    bin_crosscorr_loop (combine (seq k (length zl)) zl) xi rho sig out
    = Ok (ra, sa) ->
    (k + length zl <= length (fst out))%nat ->
    (k + length zl <= length (snd out))%nat ->
    length ra = length (fst out) /\ length sa = length (snd out) /\
    (forall i : nat, (i < length zl)%nat ->
       weightedavg (fst (bin_members (nth i zl num0) xi rho sig))
                   (snd (bin_members (nth i zl num0) xi rho sig))
       = Ok (nth (k + i) ra num0, nth (k + i) sa num0)) /\
    (forall j : nat, (j < k \/ k + length zl <= j)%nat ->
       nth j ra num0 = nth j (fst out) num0 /\
       nth j sa num0 = nth j (snd out) num0).
Proof.
  intros xi rho sig zl.
  induction zl as [|z zl IH]; intros k out ra sa Hrun Hf Hs.
  - destruct out as [o1 o2]. simpl in Hrun. injection Hrun as <- <-. simpl.
    repeat split; trivial. intros i Hi. simpl in Hi. lia.
  - simpl in Hrun.
    destruct (bin_members z xi rho sig) as [myrhos mysigs] eqn:Hm.
    destruct (weightedavg myrhos mysigs) as [[r s]|e] eqn:Hw; [|discriminate].
    simpl in Hrun, Hf, Hs.
    destruct (IH (S k) _ ra sa Hrun) as (Hla & Hlsa & Hin & Hout).
    + simpl. rewrite set_item_length. lia.
    + simpl. rewrite set_item_length. lia.
    + simpl in Hla, Hlsa, Hout. rewrite set_item_length in Hla, Hlsa.
      split; [exact Hla|]. split; [exact Hlsa|]. split.
      * intros [|i] Hi.
        -- simpl. rewrite Hm. simpl. rewrite Hw, Nat.add_0_r.
           destruct (Hout k) as [E1 E2]; [lia|].
           rewrite E1, E2, !set_item_nth_same by lia. reflexivity.
        -- simpl. replace (k + S i)%nat with (S k + i)%nat by lia.
           apply Hin. simpl in Hi. lia.
      * intros j Hj. simpl in Hj.
        destruct (Hout j) as [E1 E2]; [lia|].
        rewrite E1, E2, !set_item_nth_other by lia. split; reflexivity.
Qed.

Lemma bin_members_same_length :
  forall (z : T) (xi rho sig : list T),
    length (fst (bin_members z xi rho sig))
    = length (snd (bin_members z xi rho sig)).
Proof.
  intros. rewrite bin_members_filter. simpl. now rewrite !length_map.
Qed.

Lemma bin_members_empty_no_member :
  forall (z : T) (xi rho sig : list T),
    fst (bin_members z xi rho sig) = [] -> no_member z xi rho sig.
Proof.
  intros z xi rho sig Hm. rewrite bin_members_filter in Hm. simpl in Hm.
  apply map_eq_nil in Hm. now apply filter_nil_Forall in Hm.
Qed.

(** If the outer loop raises, one of the bins it went through held no pair. *)
Lemma bin_crosscorr_loop_raise_inv :
  forall (xi rho sig : list T) (zs : list (nat * T)) (out : list T * list T)
         (e : exn),
    bin_crosscorr_loop zs xi rho sig out = Raise e ->
    e = ZeroDivisionError /\
    exists (i : nat) (z : T), In (i, z) zs /\ no_member z xi rho sig.
Proof.
  intros xi rho sig zs.
  induction zs as [|[i z] zs IH]; intros out e Hrun; [discriminate|].
  simpl in Hrun.
  destruct (bin_members z xi rho sig) as [myrhos mysigs] eqn:Hm.
  destruct (weightedavg myrhos mysigs) as [avg|e'] eqn:Hw; simpl in Hrun.
  - destruct (IH _ _ Hrun) as (He & j & y & Hin & Hno).
    split; [exact He|]. exists j, y. split; [now right | exact Hno].
  - injection Hrun as <-.
    split; [now apply (weightedavg_raises_only_zero_division myrhos mysigs)|].
    exists i, z. split; [now left|].
    apply bin_members_empty_no_member. rewrite Hm. simpl.
    destruct myrhos as [|r myrhos]; [reflexivity|].
    pose proof (bin_members_same_length z xi rho sig) as Hl.
    rewrite Hm in Hl. simpl in Hl.
    destruct mysigs as [|s mysigs]; [discriminate|].
    unfold weightedavg in Hw. simpl in Hw.
    destruct (fold_left weightedavg_step (combine myrhos mysigs) _);
      discriminate.
Qed.

Lemma enumerate_In_inv :
  forall (a : list T) (i : nat) (z : T),
    In (i, z) (enumerate a) -> (i < length a)%nat /\ nth i a num0 = z.
Proof.
  intros a i z Hin. unfold enumerate in Hin.
  destruct (In_nth _ _ (O, num0) Hin) as (k & Hk & Hnth).
  rewrite length_combine, length_seq, Nat.min_id in Hk.
  rewrite combine_nth in Hnth by (now rewrite length_seq).
  rewrite seq_nth in Hnth by exact Hk. simpl in Hnth.
  injection Hnth as <- <-. split; [exact Hk | reflexivity].
Qed.
End FixedWidthSpec.

(** What [bin_crosscorr] returns when it returns: two arrays as long as
    [zeta]; at every position but the last, the weighted average of the pairs
    gathered for that bin; and at the last position the initial zero, which
    is never overwritten. *)
Theorem bin_crosscorr_returns :
  forall (T : Type) (ST : Scalar T) (zeta xi rho sig ra sa : list T),
    bin_crosscorr zeta xi rho sig = Ok (ra, sa) ->
    length ra = length zeta /\ length sa = length zeta /\
    (forall i : nat, (S i < length zeta)%nat ->
       weightedavg (fst (bin_members (nth i zeta num0) xi rho sig))
                   (snd (bin_members (nth i zeta num0) xi rho sig))
       = Ok (nth i ra num0, nth i sa num0)) /\
    nth (length zeta - 1) ra num0 = num0 /\
    nth (length zeta - 1) sa num0 = num0.
Proof.
  intros T ST zeta xi rho sig ra sa Hrun.
  unfold bin_crosscorr, enumerate in Hrun.
  destruct (bin_crosscorr_loop_spec xi rho sig (removelast zeta) 0 _ ra sa Hrun)
    as (Hla & Hlsa & Hin & Hout).
  - simpl. rewrite repeat_length, removelast_length. lia.
  - simpl. rewrite repeat_length, removelast_length. lia.
  - simpl in Hla, Hlsa, Hout. rewrite repeat_length in Hla, Hlsa.
    split; [exact Hla|]. split; [exact Hlsa|]. split.
    + intros i Hi.
      rewrite <- (removelast_nth T zeta i num0 Hi).
      apply (Hin i). rewrite removelast_length. lia.
    + destruct (Hout (length zeta - 1)%nat) as [E1 E2].
      * right. rewrite removelast_length. lia.
      * rewrite E1, E2, nth_repeat. split; reflexivity.
Qed.

Lemma bin_crosscorr_returns_witness :
  exists ra sa : list float,
    bin_crosscorr zeta_close [f7] [f3] [f07] = Ok (ra, sa) /\
    length ra = length zeta_close /\ length sa = length zeta_close /\
    (forall i : nat, (S i < length zeta_close)%nat ->
       weightedavg (fst (bin_members (nth i zeta_close num0) [f7] [f3] [f07]))
                   (snd (bin_members (nth i zeta_close num0) [f7] [f3] [f07]))
       = Ok (nth i ra num0, nth i sa num0)) /\
    nth (length zeta_close - 1) ra num0 = num0 /\
    nth (length zeta_close - 1) sa num0 = num0.
Proof.
  eexists. eexists. split.
  - vm_compute. reflexivity.
  - apply bin_crosscorr_returns. vm_compute. reflexivity.
Defined.

(** [bin_crosscorr] fails exactly when one of the bins it computes, those of
    all entries of [zeta] but the last, holds no pair; the failure is always
    [ZeroDivisionError]. *)
Theorem bin_crosscorr_fails_iff_empty_bin :
  forall (T : Type) (ST : Scalar T) (zeta xi rho sig : list T),
    ((exists e : exn, bin_crosscorr zeta xi rho sig = Raise e) <->
     (exists i : nat, (S i < length zeta)%nat /\
                      no_member (nth i zeta num0) xi rho sig)) /\
    (forall e : exn,
       bin_crosscorr zeta xi rho sig = Raise e -> e = ZeroDivisionError).
Proof.
  intros T ST zeta xi rho sig.
  assert (Hinv : forall e, bin_crosscorr zeta xi rho sig = Raise e ->
            e = ZeroDivisionError /\
            exists i : nat, (S i < length zeta)%nat /\
                            no_member (nth i zeta num0) xi rho sig).
  { intros e Hrun. unfold bin_crosscorr in Hrun.
    destruct (bin_crosscorr_loop_raise_inv xi rho sig _ _ e Hrun)
      as (He & i & z & Hin & Hno).
    split; [exact He|].
    apply enumerate_In_inv in Hin. destruct Hin as [Hi Hz].
    rewrite removelast_length in Hi.
    exists i. split; [lia|].
    rewrite <- (removelast_nth T zeta i num0) by lia. now rewrite Hz. }
  split; [split|].
  - intros [e Hrun]. apply (Hinv e Hrun).
  - intros (i & Hi & Hno). exists ZeroDivisionError.
    unfold bin_crosscorr.
    apply (bin_crosscorr_loop_empty_bin xi rho sig _ _ i (nth i zeta num0)).
    + now apply enumerate_removelast_In.
    + exact Hno.
  - intros e Hrun. apply (Hinv e Hrun).
Qed.

(** ** More on the Hellings-Downs curve *)

Section HellingsDownsRange.
Local Open Scope R_scope.

Lemma half_sine_range_full_turn :
  forall zeta : R,
    0 < zeta < 360 -> 0 < sin (zeta * PI / 180 / 2) <= 1.
Proof.
  intros zeta [Hlo Hhi].
  pose proof PI_RGT_0 as Hpi.
  split; [|apply SIN_bound].
  apply sin_gt_0.
  - apply Rdiv_lt_0_compat; [|lra].
    apply Rdiv_lt_0_compat; [nra | lra].
  - apply (Rmult_lt_reg_r 360); [lra|].
    replace (zeta * PI / 180 / 2 * 360) with (zeta * PI) by field. nra.
Qed.

(** [x (ln x - 1/6)] is smallest at [x = exp (-5/6)]. *)
Lemma x_ln_x_lower_bound :
  forall x : R, 0 < x -> - exp (- (5 / 6)) <= x * (ln x - 1 / 6).
Proof.
  intros x Hx.
  pose proof (exp_pos (- (5 / 6))) as Hc.
  set (c := exp (- (5 / 6))) in *.
  assert (Hq : 0 < c / x) by (apply Rdiv_lt_0_compat; lra).
  pose proof (ln_le_minus_1 (c / x) Hq) as Hln.
  assert (Hlnq : ln (c / x) = - (5 / 6) - ln x).
  { unfold Rdiv. rewrite ln_mult by (trivial; now apply Rinv_0_lt_compat).
    rewrite ln_Rinv by exact Hx. unfold c. rewrite ln_exp. lra. }
  rewrite Hlnq in Hln.
  assert (Hm : x * (c / x - 1) = c - x) by (field; lra).
  assert (Hle : x * (- (5 / 6) - ln x) <= x * (c / x - 1))
    by (apply Rmult_le_compat_l; lra).
  lra.
Qed.

Lemma exp_five_sixths_ge_2 : 2 <= exp (5 / 6).
Proof.
  replace (5 / 6) with (5 / 12 + 5 / 12) by field.
  rewrite exp_plus.
  pose proof (exp_ineq1_le (5 / 12)) as He.
  nra.
Qed.

Lemma exp_minus_five_sixths_le_half : exp (- (5 / 6)) <= 1 / 2.
Proof.
  pose proof exp_five_sixths_ge_2 as H2.
  pose proof (exp_pos (- (5 / 6))) as Hc.
  assert (Hprod : exp (5 / 6) * exp (- (5 / 6)) = 1).
  { rewrite <- exp_plus. replace (5 / 6 + - (5 / 6)) with 0 by ring. apply exp_0. }
  nra.
Qed.
End HellingsDownsRange.

Lemma get_HD_curve_mirror :
  forall zeta : R,
    get_HD_curve (360 - zeta) = get_HD_curve zeta /\
    get_HD_curve (zeta + 360) = get_HD_curve zeta /\
    get_HD_curve (- zeta) = get_HD_curve zeta.
Proof.
  intros zeta. unfold get_HD_curve.
  assert (E1 : cos ((360 - zeta) * PI / 180) = cos (zeta * PI / 180)).
  { replace ((360 - zeta) * PI / 180)%R with (2 * PI - zeta * PI / 180)%R by field.
    rewrite cos_minus, cos_2PI, sin_2PI. ring. }
  assert (E2 : cos ((zeta + 360) * PI / 180) = cos (zeta * PI / 180)).
  { replace ((zeta + 360) * PI / 180)%R
      with (zeta * PI / 180 + 2 * INR 1 * PI)%R by (simpl; field).
    apply cos_period. }
  assert (E3 : cos (- zeta * PI / 180) = cos (zeta * PI / 180)).
  { replace (- zeta * PI / 180)%R with (- (zeta * PI / 180))%R by field.
    apply cos_neg. }
  rewrite E1, E2, E3. repeat split.
Qed.

(** The curve is symmetric about 180 degrees and repeats every 360: the
    value at [360 - zeta], at [zeta + 360] and at [- zeta] is the value at
    [zeta]. *)
Theorem get_HD_curve_symmetric :
  forall zeta : R,
    get_HD_curve (360 - zeta) = get_HD_curve zeta /\
    get_HD_curve (zeta + 360) = get_HD_curve zeta /\
    get_HD_curve (- zeta) = get_HD_curve zeta.
Proof. exact get_HD_curve_mirror. Qed.

Lemma get_HD_curve_bounds :
  forall zeta : R,
    (0 < zeta < 360)%R ->
    (0 < (1 - cos (zeta * PI / 180)) / 2 <= 1)%R /\
    (1 / 2 - 3 / 2 * exp (- (5 / 6)) <= get_HD_curve zeta)%R /\
    (- 1 / 4 <= get_HD_curve zeta)%R /\
    (get_HD_curve zeta < 1 / 2)%R.
Proof.
  intros zeta Hz.
  destruct (half_sine_range_full_turn zeta Hz) as [Hy0 Hy1].
  rewrite get_HD_curve_by_half_sine. cbv zeta.
  rewrite half_versine.
  set (y := sin (zeta * PI / 180 / 2)) in *.
  assert (Hyy : (0 < y * y <= 1)%R) by nra.
  pose proof (x_ln_x_lower_bound (y * y) (proj1 Hyy)) as Hlow.
  pose proof (ln_nonpos (y * y) (proj1 Hyy) (proj2 Hyy)) as Hln.
  pose proof exp_minus_five_sixths_le_half as Hhalf.
  assert (Hneg : (y * y * (ln (y * y) - 1 / 6) < 0)%R).
  { apply Ropp_lt_cancel. rewrite Ropp_0.
    replace (- (y * y * (ln (y * y) - 1 / 6)))%R
      with (y * y * (1 / 6 - ln (y * y)))%R by ring.
    apply Rmult_lt_0_compat; lra. }
  repeat split; lra.
Qed.

(** Away from the multiples of 360 degrees the logarithm gets a positive
    argument, at most 1, and the curve stays between 1/2 - (3/2) exp(-5/6)
    (which is above -1/4) and 1/2. *)
Theorem get_HD_curve_range :
  forall zeta : R,
    (0 < zeta < 360)%R ->
    (0 < (1 - cos (zeta * PI / 180)) / 2 <= 1)%R /\
    (1 / 2 - 3 / 2 * exp (- (5 / 6)) <= get_HD_curve zeta)%R /\
    (- 1 / 4 <= get_HD_curve zeta)%R /\
    (get_HD_curve zeta < 1 / 2)%R.
Proof. exact get_HD_curve_bounds. Qed.

Lemma get_HD_curve_range_witness :
  (0 < (1 - cos (181 * PI / 180)) / 2 <= 1)%R /\
  (1 / 2 - 3 / 2 * exp (- (5 / 6)) <= get_HD_curve 181)%R /\
  (- 1 / 4 <= get_HD_curve 181)%R /\
  (get_HD_curve 181 < 1 / 2)%R.
Proof.
  apply get_HD_curve_range. lra.
Defined.

Section HellingsDownsPlotFacts.
Local Open Scope R_scope.

Lemma linspace_points :
  forall (start stop : R) (num : nat) (z : R),
    (2 <= num)%nat -> start <= stop ->
    In z (linspace start stop num) -> start <= z <= stop.
Proof.
  intros start stop num z Hnum Hle Hin.
  unfold linspace in Hin. apply in_map_iff in Hin.
  destruct Hin as (k & <- & Hk). apply in_seq in Hk.
  assert (Hn : 1 <= INR (num - 1)).
  { replace 1 with (INR 1) by reflexivity. apply le_INR. lia. }
  assert (Hk1 : 0 <= INR k <= INR (num - 1)).
  { split; [apply pos_INR | apply le_INR; lia]. }
  set (n := INR (num - 1)) in *.
  assert (Hstep : 0 <= (stop - start) / n)
    by (apply Rmult_le_pos; [lra | left; apply Rinv_0_lt_compat; lra]).
  assert (Hfull : n * ((stop - start) / n) = stop - start) by (field; lra).
  assert (H0 : 0 <= INR k * ((stop - start) / n)) by (apply Rmult_le_pos; lra).
  assert (H1 : INR k * ((stop - start) / n) <= n * ((stop - start) / n))
    by (apply Rmult_le_compat_r; lra).
  split; lra.
Qed.

Lemma linspace_ends :
  forall (start stop : R) (m : nat),
    (1 <= m)%nat ->
    nth_error (linspace start stop (S m)) 0 = Some start /\
    nth_error (linspace start stop (S m)) m = Some stop.
Proof.
  intros start stop m Hm. unfold linspace.
  rewrite !nth_error_map, !nth_error_seq.
  destruct (Nat.ltb_spec 0 (S m)); [|lia].
  destruct (Nat.ltb_spec m (S m)); [|lia].
  replace (S m - 1)%nat with m by lia.
  assert (Hn : 1 <= INR m).
  { replace 1 with (INR 1) by reflexivity. now apply le_INR. }
  cbn [option_map Nat.add]. split; f_equal.
  - change (INR 0) with 0. ring.
  - field. lra.
Qed.
End HellingsDownsPlotFacts.

(** The dashed curve is drawn one degree off: the point at abscissa [zeta],
    which runs over 100 values from 0.01 to 180, carries the template's
    value at [zeta + 1].  No point takes the logarithm of zero, every
    ordinate lies between -1/4 and 1/2, and the right-most point, at 180,
    carries the value at 181 degrees, which is the value at 179. *)
Theorem HD_plot_points_shifted :
  length HD_plot_points = 100%nat /\
  (forall zeta h : R,
     In (zeta, h) HD_plot_points ->
     (1 / 100 <= zeta <= 180)%R /\ h = get_HD_curve (zeta + 1) /\
     (0 < (1 - cos ((zeta + 1) * PI / 180)) / 2)%R /\
     (- 1 / 4 <= h < 1 / 2)%R) /\
  nth_error HD_plot_points 0 = Some ((1 / 100)%R, get_HD_curve (101 / 100)) /\
  nth_error HD_plot_points 99 = Some (180%R, get_HD_curve 179).
Proof.
  assert (H100 : (2 <= 100)%nat) by lia.
  assert (H99 : (1 <= 99)%nat) by lia.
  split; [|split; [|split]].
  - unfold HD_plot_points, linspace. now rewrite !length_map, length_seq.
  - intros zeta h Hin. unfold HD_plot_points in Hin.
    apply in_map_iff in Hin. destruct Hin as (z & Heq & Hz).
    injection Heq as -> <-.
    assert (Hb : (1 / 100 <= zeta <= 180)%R)
      by (apply (linspace_points (1 / 100) 180 100 zeta H100); [lra | exact Hz]).
    destruct (get_HD_curve_bounds (zeta + 1)) as (Hx & _ & Hlo & Hhi); [lra|].
    repeat split; lra.
  - unfold HD_plot_points. rewrite nth_error_map.
    rewrite (proj1 (linspace_ends (1 / 100) 180 99 H99)). simpl.
    replace (1 / 100 + 1)%R with (101 / 100)%R by lra. reflexivity.
  - unfold HD_plot_points. rewrite nth_error_map.
    rewrite (proj2 (linspace_ends (1 / 100) 180 99 H99)). simpl.
    replace (180 + 1)%R with (360 - 179)%R by lra.
    now rewrite (proj1 (get_HD_curve_mirror 179)).
Qed.

(** ** The burn-in cut and the rows drawn after it *)

Lemma burn_range :
  forall (row : Type) (chain : list row) (burn_fraction : Q),
    (0 <= burn_fraction)%Q -> (burn_fraction < 1)%Q -> chain <> [] ->
    burn burn_fraction chain
    = Qfloor (burn_fraction * inject_Z (Z.of_nat (length chain))) /\
    (0 <= burn burn_fraction chain < Z.of_nat (length chain))%Z.
Proof.
  intros row chain bf Hlo Hhi Hne.
  set (n := Z.of_nat (length chain)).
  assert (Hn : (0 < n)%Z) by (unfold n; destruct chain; [congruence | simpl; lia]).
  assert (Hp : (0 <= bf * inject_Z n)%Q).
  { apply Qmult_le_0_compat; [exact Hlo|]. unfold Qle. simpl. lia. }
  unfold burn. fold n. rewrite (py_int_floor_nonneg _ Hp).
  split; [reflexivity|]. split.
  - change 0%Z with (Qfloor 0). now apply Qfloor_resp_le.
  - rewrite Zlt_Qlt.
    apply (Qle_lt_trans _ (bf * inject_Z n)); [apply Qfloor_le|].
    rewrite <- (Qmult_1_l (inject_Z n)) at 2.
    apply Qmult_lt_compat_r; [|exact Hhi].
    unfold Qlt. simpl. lia.
Qed.

(** A burn fraction in [0,1) never removes every row: the cut of a chain
    with rows keeps [num_rows - floor(burn_fraction * num_rows) >= 1] rows,
    and row [k] of the result is row [burn + k] of the chain. *)
Theorem trim_keeps_rows :
  forall (row : Type) (chain : list row) (burn_fraction : Q),
    (0 <= burn_fraction)%Q -> (burn_fraction < 1)%Q -> chain <> [] ->
    exists rows : list row,
      trim burn_fraction chain = Ok rows /\
      rows <> [] /\
      (length rows + Z.to_nat (burn burn_fraction chain))%nat = length chain /\
      forall k : nat,
        nth_error rows k
        = nth_error chain (Z.to_nat (burn burn_fraction chain) + k).
Proof.
  intros row chain bf Hlo Hhi Hne.
  destruct (burn_range row chain bf Hlo Hhi Hne) as (_ & Hb0 & Hbn).
  exists (skipn (Z.to_nat (burn bf chain)) chain).
  assert (Hlen : (length (skipn (Z.to_nat (burn bf chain)) chain)
                  + Z.to_nat (burn bf chain))%nat = length chain)
    by (rewrite length_skipn; lia).
  split; [|split; [|split]].
  - unfold trim. now rewrite slice_from_nonneg.
  - intros E. rewrite E in Hlen. simpl in Hlen. lia.
  - exact Hlen.
  - intros k. apply nth_error_skipn.
Qed.

Lemma trim_keeps_rows_witness :
  exists rows : list (list float),
    trim (1 # 4) chain4 = Ok rows /\
    rows <> [] /\
    (length rows + Z.to_nat (burn (1 # 4) chain4))%nat = length chain4 /\
    forall k : nat,
      nth_error rows k = nth_error chain4 (Z.to_nat (burn (1 # 4) chain4) + k).
Proof.
  apply trim_keeps_rows.
  - unfold Qle. simpl. lia.
  - unfold Qlt. simpl. lia.
  - discriminate.
Defined.

(** The row drawn for a noise realisation: with a chain of at least one row
    the draw succeeds, its index lies from [burn] on and inside the chain,
    and the row it names is one of the rows the burn-in cut keeps; every
    such index can be drawn; with a chain without rows the draw raises
    [ValueError]. *)
Theorem draw_is_after_burn :
  forall (row : Type) (chain : list row),
    (chain = [] ->
     forall r : Z,
       randint (burn (1 # 4) chain) (Z.of_nat (length chain)) r
       = ValueErrorRaised) /\
    (chain <> [] ->
     (forall r : Z,
        exists (idx : Z) (x : row) (rows : list row),
          randint (burn (1 # 4) chain) (Z.of_nat (length chain)) r
          = Returned idx /\
          (burn (1 # 4) chain <= idx < Z.of_nat (length chain))%Z /\
          nth_error chain (Z.to_nat idx) = Some x /\
          trim (1 # 4) chain = Ok rows /\ In x rows) /\
     (forall idx : Z,
        (burn (1 # 4) chain <= idx < Z.of_nat (length chain))%Z ->
        exists r : Z,
          randint (burn (1 # 4) chain) (Z.of_nat (length chain)) r
          = Returned idx)).
Proof.
  intros row chain. split.
  - intros -> r. reflexivity.
  - intros Hne.
    assert (Hq0 : (0 <= 1 # 4)%Q) by (unfold Qle; simpl; lia).
    assert (Hq1 : (1 # 4 < 1)%Q) by (unfold Qlt; simpl; lia).
    destruct (burn_range row chain (1 # 4) Hq0 Hq1 Hne) as (_ & Hb0 & Hbn).
    set (b := burn (1 # 4) chain) in *.
    set (n := Z.of_nat (length chain)) in *.
    split.
    + intros r. unfold randint.
      destruct (Z.ltb_spec b n) as [_|Hge]; [|lia].
      pose proof (Z.mod_pos_bound r (n - b)) as Hmod.
      set (idx := (b + r mod (n - b))%Z) in *.
      assert (Hidx : (b <= idx < n)%Z) by lia.
      destruct (nth_error chain (Z.to_nat idx)) as [x|] eqn:Ex.
      * exists idx, x, (skipn (Z.to_nat b) chain).
        split; [reflexivity|]. split; [exact Hidx|]. split; [exact Ex|].
        split.
        -- unfold trim. fold b. now rewrite slice_from_nonneg.
        -- apply (nth_error_In _ (Z.to_nat idx - Z.to_nat b)).
           rewrite nth_error_skipn, <- Ex. f_equal. lia.
      * apply nth_error_None in Ex. unfold n in Hidx. lia.
    + intros idx Hidx. exists (idx - b)%Z. unfold randint.
      destruct (Z.ltb_spec b n) as [_|Hge]; [|lia].
      rewrite Z.mod_small by lia. f_equal. lia.
Qed.

Lemma draw_is_after_burn_witness :
  exists (idx : Z) (x : list float) (rows : list (list float)),
    randint (burn (1 # 4) chain4) (Z.of_nat (length chain4)) 7 = Returned idx /\
    (burn (1 # 4) chain4 <= idx < Z.of_nat (length chain4))%Z /\
    nth_error chain4 (Z.to_nat idx) = Some x /\
    trim (1 # 4) chain4 = Ok rows /\ In x rows.
Proof.
  apply (proj1 (proj2 (draw_is_after_burn (list float) chain4)
                      ltac:(discriminate)) 7%Z).
Defined.

(** ** Names, dictionaries and the noise-marginalization loop *)

Lemma list_index_found :
  forall (names : list String.string) (x : String.string) (j : nat),
    list_index names x = Returned j ->
    nth_error names j = Some x /\
    forall i : nat, (i < j)%nat -> nth_error names i <> Some x.
Proof.
  induction names as [|n names IH]; intros x j Hj; simpl in Hj; [discriminate|].
  destruct (String.eqb_spec n x) as [->|Hne].
  - injection Hj as <-. split; [reflexivity|]. intros i Hi. lia.
  - destruct (list_index names x) as [j'| |] eqn:E; simpl in Hj; try discriminate.
    injection Hj as <-. destruct (IH x j' E) as [Hn Hfirst].
    split; [exact Hn|]. intros [|i] Hi; simpl.
    + congruence.
    + apply Hfirst. lia.
Qed.

Lemma list_index_of_member :
  forall (names : list String.string) (x : String.string),
    In x names -> exists j : nat, list_index names x = Returned j.
Proof.
  induction names as [|n names IH]; intros x Hin; [contradiction|]. simpl.
  destruct (String.eqb_spec n x) as [->|Hne]; [now exists O|].
  destruct Hin as [->|Hin]; [congruence|].
  destruct (IH x Hin) as [j Hj]. rewrite Hj. now exists (S j).
Qed.

Lemma list_index_of_stranger :
  forall (names : list String.string) (x : String.string),
    ~ In x names -> list_index names x = ValueErrorRaised.
Proof.
  induction names as [|n names IH]; intros x Hin; [reflexivity|]. simpl.
  destruct (String.eqb_spec n x) as [->|Hne].
  - exfalso. apply Hin. now left.
  - rewrite IH; [reflexivity|]. intros Hc. apply Hin. now right.
Qed.

Lemma list_index_NoDup :
  forall (names : list String.string) (j : nat) (x : String.string),
    NoDup names -> nth_error names j = Some x -> list_index names x = Returned j.
Proof.
  induction names as [|n names IH]; intros j x Hnd Hj; [destruct j; discriminate|].
  inversion Hnd as [|? ? Hnotin Hnd']; subst. simpl.
  destruct j as [|j]; simpl in Hj.
  - injection Hj as ->. now rewrite String.eqb_refl.
  - destruct (String.eqb_spec n x) as [->|Hne].
    + exfalso. apply Hnotin. now apply (nth_error_In names j).
    + now rewrite (IH j x Hnd' Hj).
Qed.

Section DictFacts.
Variable V : Type.

Lemma dict_get_update_same :
  forall (d : dict V) (k : String.string) (v : V),
    dict_get (dict_update d k v) k = Some v.
Proof.
  induction d as [|[k' v'] d IH]; intros k v; simpl.
  - now rewrite String.eqb_refl.
  - destruct (String.eqb k' k) eqn:E; simpl; rewrite E; [reflexivity | apply IH].
Qed.

Lemma dict_get_update_other :
  forall (d : dict V) (k k0 : String.string) (v : V),
    k <> k0 -> dict_get (dict_update d k v) k0 = dict_get d k0.
Proof.
  induction d as [|[k' v'] d IH]; intros k k0 v Hne; simpl.
  - destruct (String.eqb_spec k k0); [contradiction | reflexivity].
  - destruct (String.eqb_spec k' k) as [->|Hk]; simpl.
    + destruct (String.eqb_spec k k0); [contradiction | reflexivity].
    + destruct (String.eqb_spec k' k0); [reflexivity | now apply IH].
Qed.
End DictFacts.

Section ParamDictFacts.
Context {T : Type} `{Scalar T}.

(** What the loop over the names leaves in the dictionary. *)
Lemma param_dict_loop_spec :
  forall (params : list String.string) (chain : list (list T)) (idx : nat)
         (todo : list String.string) (d0 d : dict T),
    param_dict_loop todo params chain idx d0 = Returned d ->
    (forall p : String.string, In p todo ->
       exists (j : nat) (v : T),
         list_index params p = Returned j /\
         chain_item chain idx j = Returned v /\
         dict_get d p = Some v) /\
    (forall p : String.string, ~ In p todo -> dict_get d p = dict_get d0 p).
Proof.
  intros params chain idx.
  induction todo as [|p todo IH]; intros d0 d Hrun; simpl in Hrun.
  - injection Hrun as <-. split; [contradiction | reflexivity].
  - destruct (list_index params p) as [j| |] eqn:Ej; simpl in Hrun;
      try discriminate.
    destruct (chain_item chain idx j) as [v| |] eqn:Ev; simpl in Hrun;
      try discriminate.
    destruct (IH _ _ Hrun) as [Hin Hout].
    split.
    + intros q [<-|Hq].
      * destruct (in_dec String.string_dec p todo) as [Hp|Hp]; [now apply Hin|].
        exists j, v. split; [exact Ej|]. split; [exact Ev|].
        rewrite (Hout p Hp). apply dict_get_update_same.
      * now apply Hin.
    + intros q Hq.
      rewrite Hout by (intros Hc; apply Hq; now right).
      apply dict_get_update_other. intros ->. apply Hq. now left.
Qed.

(** The loop returns when the drawn row is long enough for every name. *)
Lemma param_dict_loop_returns :
  forall (params : list String.string) (chain : list (list T)) (idx : nat)
         (row : list T) (todo : list String.string) (d0 : dict T),
    nth_error chain idx = Some row ->
    (length params <= length row)%nat ->
    incl todo params ->
    exists d : dict T, param_dict_loop todo params chain idx d0 = Returned d.
Proof.
  intros params chain idx row todo.
  induction todo as [|p todo IH]; intros d0 Hrow Hlen Hincl; simpl.
  - now exists d0.
  - destruct (list_index_of_member params p) as [j Hj];
      [apply Hincl; now left|].
    rewrite Hj. simpl.
    destruct (list_index_found params p j Hj) as [Hnth _].
    assert (Hjlen : (j < length params)%nat)
      by (apply nth_error_Some; congruence).
    unfold chain_item. rewrite Hrow.
    destruct (nth_error row j) as [v|] eqn:Ev.
    + simpl. apply IH; trivial. intros q Hq. apply Hincl. now right.
    + apply nth_error_None in Ev. lia.
Qed.
End ParamDictFacts.

(** The dictionary made for a drawn row maps every name of [params] to the
    entry of that row in the column where the name first occurs, and holds
    no other key; when no name is repeated, the name at place [j] gets the
    row's entry [j]. *)
Theorem build_param_dict_lookup :
  forall (T : Type) (ST : Scalar T) (params : list String.string)
         (chain : list (list T)) (idx : nat) (param_dict : dict T),
    build_param_dict params chain idx = Returned param_dict ->
    (forall p : String.string, In p params ->
       exists (j : nat) (v : T),
         list_index params p = Returned j /\
         chain_item chain idx j = Returned v /\
         dict_get param_dict p = Some v) /\
    (forall p : String.string, ~ In p params -> dict_get param_dict p = None) /\
    (NoDup params ->
     forall (j : nat) (p : String.string),
       nth_error params j = Some p ->
       exists v : T,
         chain_item chain idx j = Returned v /\ dict_get param_dict p = Some v).
Proof.
  intros T ST params chain idx d Hrun.
  destruct (param_dict_loop_spec params chain idx params [] d Hrun) as [Hin Hout].
  split; [exact Hin|]. split; [exact Hout|].
  intros Hnd j p Hj.
  destruct (Hin p (nth_error_In params j Hj)) as (j' & v & Hj' & Hv & Hget).
  rewrite (list_index_NoDup params j p Hnd Hj) in Hj'. injection Hj' as <-.
  now exists v.
Qed.

Lemma build_param_dict_lookup_witness :
  exists param_dict : dict float,
    build_param_dict params2 chain4 2 = Returned param_dict /\
    (forall p : String.string, In p params2 ->
       exists (j : nat) (v : float),
         list_index params2 p = Returned j /\
         chain_item chain4 2 j = Returned v /\
         dict_get param_dict p = Some v) /\
    (forall p : String.string, ~ In p params2 -> dict_get param_dict p = None) /\
    (NoDup params2 ->
     forall (j : nat) (p : String.string),
       nth_error params2 j = Some p ->
       exists v : float,
         chain_item chain4 2 j = Returned v /\ dict_get param_dict p = Some v).
Proof.
  eexists. split.
  - vm_compute. reflexivity.
  - apply (build_param_dict_lookup float float_scalar params2 chain4 2).
    vm_compute. reflexivity.
Defined.

(** Making the dictionary never raises [ValueError], and it succeeds when
    the drawn row exists and has an entry for every name; a row shorter than
    the place of one of the names raises [IndexError]. *)
Theorem build_param_dict_outcome :
  forall (T : Type) (ST : Scalar T) (params : list String.string)
         (chain : list (list T)) (idx : nat),
    build_param_dict params chain idx <> ValueErrorRaised /\
    (forall row : list T,
       nth_error chain idx = Some row ->
       (length params <= length row)%nat ->
       exists param_dict : dict T,
         build_param_dict params chain idx = Returned param_dict) /\
    (forall (row : list T) (p : String.string) (j : nat),
       nth_error chain idx = Some row ->
       list_index params p = Returned j ->
       (length row <= j)%nat ->
       build_param_dict params chain idx = IndexErrorRaised).
Proof.
  intros T ST params chain idx.
  assert (Hnever : forall todo d0,
             incl todo params ->
             param_dict_loop todo params chain idx d0 <> ValueErrorRaised).
  { induction todo as [|p todo IH]; intros d0 Hincl; simpl; [discriminate|].
    destruct (list_index_of_member params p) as [j Hj];
      [apply Hincl; now left|].
    rewrite Hj. simpl.
    destruct (chain_item chain idx j) as [v| |] eqn:Ev; simpl.
    - apply IH. intros q Hq. apply Hincl. now right.
    - unfold chain_item in Ev.
      destruct (nth_error chain idx) as [row|]; [|discriminate].
      destruct (nth_error row j); discriminate.
    - discriminate. }
  split; [|split].
  - apply Hnever. apply incl_refl.
  - intros row Hrow Hlen.
    apply (param_dict_loop_returns params chain idx row params []); trivial.
    apply incl_refl.
  - intros row p j Hrow Hj Hshort. unfold build_param_dict.
    assert (Hp : In p params).
    { destruct (list_index_found params p j Hj) as [Hnth _].
      now apply (nth_error_In params j). }
    assert (Hfail : forall todo d0,
               In p todo -> incl todo params ->
               param_dict_loop todo params chain idx d0 = IndexErrorRaised).
    { induction todo as [|q todo IH]; intros d0 Hin Hincl; [contradiction|].
      simpl.
      destruct (list_index_of_member params q) as [jq Hjq];
        [apply Hincl; now left|].
      rewrite Hjq. simpl.
      destruct (chain_item chain idx jq) as [v| |] eqn:Ev; simpl.
      - destruct Hin as [->|Hin].
        + rewrite Hj in Hjq. injection Hjq as <-.
          unfold chain_item in Ev. rewrite Hrow in Ev.
          apply nth_error_None in Hshort. rewrite Hshort in Ev. discriminate.
        + apply IH; trivial. intros x Hx. apply Hincl. now right.
      - unfold chain_item in Ev. rewrite Hrow in Ev.
        destruct (nth_error row jq); discriminate.
      - reflexivity. }
    apply Hfail; [exact Hp | apply incl_refl].
Qed.

Lemma build_param_dict_outcome_witness :
  build_param_dict params2 [[f3]] 0 = IndexErrorRaised.
Proof.
  apply (proj2 (proj2 (build_param_dict_outcome float float_scalar params2
                         [[f3]] 0))
           [f3] "gw_gamma"%string 1%nat); reflexivity.
Defined.

Lemma randint_in_range :
  forall low high r : Z,
    (low < high)%Z ->
    exists idx : Z, randint low high r = Returned idx /\ (low <= idx < high)%Z.
Proof.
  intros low high r Hlt. unfold randint.
  destruct (Z.ltb_spec low high) as [_|Hge]; [|lia].
  pose proof (Z.mod_pos_bound r (high - low)) as Hmod.
  eexists. split; [reflexivity | lia].
Qed.

Section NoiseMarginalizationFacts.
Context {T : Type} `{Scalar T}.
Variable compute_os : dict T -> T * T.
Variable entropy : nat -> Z.

(** Every turn of the loop fills its own place of the two outputs. *)
Lemma noisemarg_loop_spec :
  forall (params : list String.string) (chain : list (list T)),
    chain <> [] ->
    Forall (fun row => (length params <= length row)%nat) chain ->
    forall (m k : nat) (out : list T * list T),
      (k + m <= length (fst out))%nat -> (k + m <= length (snd out))%nat ->
      exists os_values os_errs : list T,
        noisemarg_loop compute_os entropy (seq k m) params chain out
        = Returned (os_values, os_errs) /\
        length os_values = length (fst out) /\
        length os_errs = length (snd out) /\
        (forall i : nat, (i < m)%nat ->
           exists (idx : Z) (param_dict : dict T),
             randint (burn (1 # 4) chain) (Z.of_nat (length chain))
                     (entropy (k + i)) = Returned idx /\
             build_param_dict params chain (Z.to_nat idx) = Returned param_dict /\
             compute_os param_dict
             = (nth (k + i) os_values num0, nth (k + i) os_errs num0)) /\
        (forall j : nat, (j < k \/ k + m <= j)%nat ->
           nth j os_values num0 = nth j (fst out) num0 /\
           nth j os_errs num0 = nth j (snd out) num0).
Proof.
  intros params chain Hne Hrows.
  assert (Hq0 : (0 <= 1 # 4)%Q) by (unfold Qle; simpl; lia).
  assert (Hq1 : (1 # 4 < 1)%Q) by (unfold Qlt; simpl; lia).
  destruct (burn_range (list T) chain (1 # 4) Hq0 Hq1 Hne) as (_ & Hb0 & Hbn).
  induction m as [|m IH]; intros k out Hf Hs.
  - destruct out as [o1 o2]. exists o1, o2. simpl.
    repeat split; trivial. intros i Hi. lia.
  - simpl.
    destruct (randint_in_range _ _ (entropy k) Hbn) as (idx & Hidx & Hrange).
    rewrite Hidx. simpl.
    destruct (nth_error chain (Z.to_nat idx)) as [row|] eqn:Erow;
      [|apply nth_error_None in Erow; lia].
    assert (Hrow : (length params <= length row)%nat).
    { rewrite Forall_forall in Hrows. apply Hrows.
      now apply (nth_error_In chain (Z.to_nat idx)). }
    destruct (param_dict_loop_returns params chain (Z.to_nat idx) row params []
                Erow Hrow (incl_refl _)) as [d Hd].
    unfold build_param_dict at 1. rewrite Hd. simpl.
    destruct (compute_os d) as [v e] eqn:Eos.
    destruct (IH (S k) (set_item (fst out) k v, set_item (snd out) k e))
      as (os & errs & Hrun & Hlo & Hle & Hin & Hout).
    + simpl. rewrite set_item_length. lia.
    + simpl. rewrite set_item_length. lia.
    + simpl in Hlo, Hle, Hout. rewrite set_item_length in Hlo, Hle.
      exists os, errs. split; [exact Hrun|].
      split; [exact Hlo|]. split; [exact Hle|]. split.
      * intros [|i] Hi.
        -- exists idx, d. rewrite Nat.add_0_r.
           split; [exact Hidx|]. split; [exact Hd|].
           destruct (Hout k) as [E1 E2]; [lia|].
           rewrite E1, E2, !set_item_nth_same by lia. exact Eos.
        -- replace (k + S i)%nat with (S k + i)%nat by lia.
           apply Hin. lia.
      * intros j Hj.
        destruct (Hout j) as [E1 E2]; [lia|].
        rewrite E1, E2, !set_item_nth_other by lia. split; reflexivity.
Qed.
End NoiseMarginalizationFacts.

(** The noise-marginalization loop over a chain with rows, each row holding
    an entry for every name: it returns two arrays of exactly [N] entries and
    every entry has been written, entry [i] holding what [compute_os]
    answers on the dictionary of the row drawn in turn [i], a row from
    [burn] on.  With a chain without rows and [N > 0] the first draw raises
    [ValueError]. *)
Theorem noise_marginalize_fills_outputs :
  forall (T : Type) (ST : Scalar T) (compute_os : dict T -> T * T)
         (entropy : nat -> Z) (N : nat) (params : list String.string)
         (chain : list (list T)),
    (chain <> [] ->
     Forall (fun row => (length params <= length row)%nat) chain ->
     exists os_values os_errs : list T,
       noise_marginalize compute_os entropy N params chain
       = Returned (os_values, os_errs) /\
       length os_values = N /\ length os_errs = N /\
       forall i : nat, (i < N)%nat ->
         exists (idx : Z) (param_dict : dict T),
           (burn (1 # 4) chain <= idx < Z.of_nat (length chain))%Z /\
           build_param_dict params chain (Z.to_nat idx) = Returned param_dict /\
           compute_os param_dict = (nth i os_values num0, nth i os_errs num0)) /\
    (chain = [] -> (0 < N)%nat ->
     noise_marginalize compute_os entropy N params chain = ValueErrorRaised).
Proof.
  intros T ST compute_os entropy N params chain. split.
  - intros Hne Hrows. unfold noise_marginalize.
    destruct (noisemarg_loop_spec compute_os entropy params chain Hne Hrows
                N 0 (repeat num0 N, repeat num0 N))
      as (os & errs & Hrun & Hlo & Hle & Hin & _).
    + simpl. rewrite repeat_length. lia.
    + simpl. rewrite repeat_length. lia.
    + simpl in Hlo, Hle. rewrite repeat_length in Hlo, Hle.
      exists os, errs.
      split; [exact Hrun|]. split; [exact Hlo|]. split; [exact Hle|].
      intros i Hi. destruct (Hin i Hi) as (idx & d & Hidx & Hd & Hos).
      simpl in Hidx, Hos.
      exists idx, d. split; [|split; [exact Hd | exact Hos]].
      unfold randint in Hidx.
      destruct (Z.ltb_spec (burn (1 # 4) chain) (Z.of_nat (length chain)))
        as [Hlt|Hge]; [|discriminate].
      injection Hidx as <-.
      pose proof (Z.mod_pos_bound (entropy i)
                    (Z.of_nat (length chain) - burn (1 # 4) chain)).
      lia.
  - intros -> HN. unfold noise_marginalize.
    destruct N as [|N]; [lia|]. reflexivity.
Qed.

Lemma noise_marginalize_fills_outputs_witness :
  (exists os_values os_errs : list float,
     noise_marginalize
       (fun d : dict float => (nth 0 (map snd d) f07, nth 1 (map snd d) f07))
       (fun i => Z.of_nat i) 3 params2 chain4
     = Returned (os_values, os_errs) /\
     length os_values = 3%nat /\ length os_errs = 3%nat /\
     forall i : nat, (i < 3)%nat ->
       exists (idx : Z) (param_dict : dict float),
         (burn (1 # 4) chain4 <= idx < Z.of_nat (length chain4))%Z /\
         build_param_dict params2 chain4 (Z.to_nat idx) = Returned param_dict /\
         (nth 0 (map snd param_dict) f07, nth 1 (map snd param_dict) f07)
         = (nth i os_values num0, nth i os_errs num0)) /\
  noise_marginalize (fun _ : dict float => (f3, f07)) (fun i => Z.of_nat i) 3
                    params2 [] = ValueErrorRaised.
Proof.
  split.
  - apply (proj1 (noise_marginalize_fills_outputs float float_scalar
                    (fun d => (nth 0 (map snd d) f07, nth 1 (map snd d) f07))
                    (fun i => Z.of_nat i) 3 params2 chain4)).
    + discriminate.
    + repeat constructor.
  - apply (proj2 (noise_marginalize_fills_outputs float float_scalar
                    (fun _ => (f3, f07)) (fun i => Z.of_nat i) 3 params2 [])).
    + reflexivity.
    + lia.
Defined.

(** ** Samples of one model *)

Section ModelSelectionFacts.
Local Open Scope R_scope.

Lemma filter_three_way :
  forall (A : Type) (key : A -> R) (t : R) (l : list A),
    (length (filter (fun x => Rltb (key x) t) l)
     + length (filter (fun x => Rltb t (key x)) l)
     + length (filter (fun x => if Req_EM_T (key x) t then true else false) l))%nat
    = length l.
Proof.
  intros A key t l. induction l as [|x l IH]; simpl; [reflexivity|].
  destruct (Rltb (key x) t) eqn:E1; destruct (Rltb t (key x)) eqn:E2;
    destruct (Req_EM_T (key x) t) as [E3|E3]; simpl;
    try apply Rltb_true in E1; try apply Rltb_true in E2; try lra; try lia.
  exfalso.
  assert (H1 : ~ key x < t) by (intros Hc; apply Rltb_true in Hc; congruence).
  assert (H2 : ~ t < key x) by (intros Hc; apply Rltb_true in Hc; congruence).
  lra.
Qed.
End ModelSelectionFacts.

(** The samples taken for the two models, over exact numbers: when both
    names are among [pars] and the array has a column for every name, the
    selection below the threshold and the selection above it both return,
    and together they hold one sample for every row except the rows whose
    model index equals the threshold, which go to neither.  When [nmodel] is
    not among [pars] the lookup raises [ValueError]. *)
Theorem gwamp_samples_split_rows :
  forall (pars : list String.string) (ncols : nat) (threshold : R)
         (chain_burn : list (list R)),
    (In "nmodel"%string pars -> In "gw_log10_A"%string pars ->
     (length pars <= ncols)%nat ->
     exists (ind_model : nat) (lower upper_part : list R),
       list_index pars "nmodel"%string = Returned ind_model /\
       gwamp_samples pars ncols (below threshold) chain_burn = Returned lower /\
       gwamp_samples pars ncols (above threshold) chain_burn
       = Returned upper_part /\
       (length lower + length upper_part
        + length (filter (fun row =>
                            if Req_EM_T (nth ind_model row 0%R) threshold
                            then true else false) chain_burn))%nat
       = length chain_burn) /\
    (~ In "nmodel"%string pars ->
     forall test : R -> bool,
       gwamp_samples pars ncols test chain_burn = ValueErrorRaised).
Proof.
  intros pars ncols t rows. split.
  - intros Hm Hg Hcols.
    destruct (list_index_of_member pars _ Hm) as [im Him].
    destruct (list_index_of_member pars _ Hg) as [ig Hig].
    assert (Him' : (im < ncols)%nat).
    { destruct (list_index_found pars _ im Him) as [Hn _].
      assert (im < length pars)%nat by (apply nth_error_Some; congruence). lia. }
    assert (Hig' : (ig < ncols)%nat).
    { destruct (list_index_found pars _ ig Hig) as [Hn _].
      assert (ig < length pars)%nat by (apply nth_error_Some; congruence). lia. }
    exists im. unfold gwamp_samples, masked_column.
    rewrite Him, Hig. simpl.
    destruct (Nat.ltb_spec im ncols); [|lia].
    destruct (Nat.ltb_spec ig ncols); [|lia].
    eexists. eexists. split; [reflexivity|]. split; [reflexivity|].
    split; [reflexivity|].
    rewrite !length_map.
    apply (filter_three_way (list R) (fun row => nth im row 0%R) t rows).
  - intros Hm test. unfold gwamp_samples.
    now rewrite (list_index_of_stranger pars _ Hm).
Qed.

Lemma gwamp_samples_split_rows_witness :
  (exists (ind_model : nat) (lower upper_part : list R),
     list_index pars_example "nmodel"%string = Returned ind_model /\
     gwamp_samples pars_example 3 (below (1 / 2)%R) chain_burn_example
     = Returned lower /\
     gwamp_samples pars_example 3 (above (1 / 2)%R) chain_burn_example
     = Returned upper_part /\
     (length lower + length upper_part
      + length (filter (fun row =>
                          if Req_EM_T (nth ind_model row 0%R) (1 / 2)%R
                          then true else false) chain_burn_example))%nat
     = length chain_burn_example) /\
  gwamp_samples ["gw_log10_A"%string] 1 (below (1 / 2)%R) [[1%R]]
  = ValueErrorRaised.
Proof.
  split.
  - apply (proj1 (gwamp_samples_split_rows pars_example 3 (1 / 2)
                    chain_burn_example)).
    + right. right. now left.
    + now left.
    + simpl. lia.
  - apply (proj2 (gwamp_samples_split_rows ["gw_log10_A"%string] 1 (1 / 2)
                    [[1%R]])).
    intros [E|[]]. discriminate.
Defined.

(** ** The time span *)

Section TimeSpanFacts.
Local Open Scope R_scope.

Lemma list_min_In : forall l : list R, l <> [] -> In (list_min l) l.
Proof.
  intros [|x l] Hne; [congruence|]. simpl list_min.
  assert (Hfold : forall (l : list R) (m : R),
             fold_left (fun m0 y => if Rltb y m0 then y else m0) l m = m \/
             In (fold_left (fun m0 y => if Rltb y m0 then y else m0) l m) l).
  { clear. induction l as [|y l IH]; intros m; simpl; [now left|].
    destruct (IH (if Rltb y m then y else m)) as [E|Hin].
    - rewrite E. destruct (Rltb y m); [right; now left | now left].
    - right. now right. }
  destruct (Hfold l x) as [E|Hin]; [rewrite E; now left | now right].
Qed.

Lemma list_max_In : forall l : list R, l <> [] -> In (list_max l) l.
Proof.
  intros [|x l] Hne; [congruence|]. simpl list_max.
  assert (Hfold : forall (l : list R) (m : R),
             fold_left (fun m0 y => if Rltb m0 y then y else m0) l m = m \/
             In (fold_left (fun m0 y => if Rltb m0 y then y else m0) l m) l).
  { clear. induction l as [|y l IH]; intros m; simpl; [now left|].
    destruct (IH (if Rltb m y then y else m)) as [E|Hin].
    - rewrite E. destruct (Rltb m y); [right; now left | now left].
    - right. now right. }
  destruct (Hfold l x) as [E|Hin]; [rewrite E; now left | now right].
Qed.

Lemma for_each_np_min :
  forall toas : list (list R),
    Forall (fun a => a <> []) toas ->
    for_each np_min toas = Returned (map list_min toas).
Proof.
  induction 1 as [|a toas Ha _ IH]; simpl; [reflexivity|].
  destruct a; [congruence|]. simpl. rewrite IH. reflexivity.
Qed.

Lemma for_each_np_max :
  forall toas : list (list R),
    Forall (fun a => a <> []) toas ->
    for_each np_max toas = Returned (map list_max toas).
Proof.
  induction 1 as [|a toas Ha _ IH]; simpl; [reflexivity|].
  destruct a; [congruence|]. simpl. rewrite IH. reflexivity.
Qed.

Lemma for_each_np_min_empty :
  forall toas : list (list R),
    In [] toas -> for_each np_min toas = ValueErrorRaised.
Proof.
  induction toas as [|a toas IH]; intros Hin; [contradiction|]. simpl.
  destruct a as [|x a]; [reflexivity|].
  destruct Hin as [E|Hin]; [discriminate|].
  simpl. now rewrite (IH Hin).
Qed.
End TimeSpanFacts.

(** The time span over exact numbers: for at least one pulsar, each with at
    least one TOA, [Tspan] is the largest difference between two TOAs of the
    whole array, so no two TOAs are further apart and two TOAs are exactly
    that far apart; without pulsars, or with a pulsar without TOAs, the
    computation raises [ValueError]. *)
Theorem Tspan_is_largest_difference :
  forall toas : list (list R),
    (toas <> [] -> Forall (fun a => a <> []) toas ->
     exists span : R,
       Tspan toas = Returned span /\
       (forall (a b : list R) (t1 t2 : R),
          In a toas -> In b toas -> In t1 a -> In t2 b -> (t2 - t1 <= span)%R) /\
       (exists (a b : list R) (t1 t2 : R),
          In a toas /\ In b toas /\ In t1 a /\ In t2 b /\ span = (t2 - t1)%R)) /\
    (toas = [] \/ In [] toas -> Tspan toas = ValueErrorRaised).
Proof.
  intros toas. split.
  - intros Hne Hall. unfold Tspan.
    rewrite (for_each_np_min toas Hall), (for_each_np_max toas Hall). simpl.
    assert (Hmaxs : map list_max toas <> [])
      by (intros E; apply map_eq_nil in E; contradiction).
    assert (Hmins : map list_min toas <> [])
      by (intros E; apply map_eq_nil in E; contradiction).
    assert (Enp_max : np_max (map list_max toas)
                      = Returned (list_max (map list_max toas)))
      by (unfold np_max; destruct (map list_max toas); [congruence | reflexivity]).
    assert (Enp_min : np_min (map list_min toas)
                      = Returned (list_min (map list_min toas)))
      by (unfold np_min; destruct (map list_min toas); [congruence | reflexivity]).
    rewrite Enp_max, Enp_min. simpl and_then.
    eexists. split; [reflexivity|]. split.
    + intros a b t1 t2 Ha Hb Ht1 Ht2.
      assert (H2 : (t2 <= list_max (map list_max toas))%R).
      { apply (Rle_trans _ (list_max b)); [now apply list_max_ge|].
        apply list_max_ge. now apply in_map. }
      assert (H1 : (list_min (map list_min toas) <= t1)%R).
      { apply (Rle_trans _ (list_min a)); [|now apply list_min_le].
        apply list_min_le. now apply in_map. }
      lra.
    + pose proof (list_max_In _ Hmaxs) as Hhi.
      pose proof (list_min_In _ Hmins) as Hlo.
      apply in_map_iff in Hhi. destruct Hhi as (b & Eb & Hb).
      apply in_map_iff in Hlo. destruct Hlo as (a & Ea & Ha).
      rewrite Forall_forall in Hall.
      exists a, b, (list_min a), (list_max b).
      split; [exact Ha|]. split; [exact Hb|].
      split; [apply list_min_In; now apply Hall|].
      split; [apply list_max_In; now apply Hall|].
      now rewrite Ea, Eb.
  - intros [->|Hin]; [reflexivity|].
    unfold Tspan. now rewrite (for_each_np_min_empty toas Hin).
Qed.

Lemma Tspan_is_largest_difference_witness :
  (exists span : R,
     Tspan toas_example = Returned span /\
     (forall (a b : list R) (t1 t2 : R),
        In a toas_example -> In b toas_example -> In t1 a -> In t2 b ->
        (t2 - t1 <= span)%R) /\
     (exists (a b : list R) (t1 t2 : R),
        In a toas_example /\ In b toas_example /\ In t1 a /\ In t2 b /\
        span = (t2 - t1)%R)) /\
  Tspan [[3%R; 1%R]; []] = ValueErrorRaised.
Proof.
  split.
  - apply (proj1 (Tspan_is_largest_difference toas_example)).
    + discriminate.
    + repeat constructor; discriminate.
  - apply (proj2 (Tspan_is_largest_difference [[3%R; 1%R]; []])).
    right. right. now left.
Defined.

(** ** File names *)

Section SplitFacts.

Lemma split_not_nil : forall (sep : Ascii.ascii) (s : str), split sep s <> [].
Proof.
  intros sep s. destruct s as [|c s]; simpl; [discriminate|].
  destruct (Ascii.eqb c sep); [discriminate|].
  destruct (split sep s); discriminate.
Qed.

Lemma split_no_sep :
  forall (sep : Ascii.ascii) (s : str), ~ In sep s -> split sep s = [s].
Proof.
  intros sep s. induction s as [|c s IH]; intros Hno; simpl; [reflexivity|].
  destruct (Ascii.eqb_spec c sep) as [->|Hc].
  - exfalso. apply Hno. now left.
  - rewrite IH; [reflexivity|]. intros Hin. apply Hno. now right.
Qed.

Lemma split_last_after_sep :
  forall (sep : Ascii.ascii) (a b : str) (d : str),
    last (split sep (a ++ sep :: b)) d = last (split sep b) d.
Proof.
  intros sep a b d. induction a as [|c a IH]; simpl.
  - rewrite Ascii.eqb_refl.
    pose proof (split_not_nil sep b). destruct (split sep b); [congruence|].
    reflexivity.
  - pose proof (split_not_nil sep (a ++ sep :: b)) as Hne.
    destruct (Ascii.eqb c sep).
    + destruct (split sep (a ++ sep :: b)) eqn:E; [congruence | exact IH].
    + destruct (split sep (a ++ sep :: b)) as [|piece pieces] eqn:E;
        [congruence|].
      destruct pieces as [|p2 pieces]; [|exact IH].
      (* a single piece would mean no separator was met *)
      exfalso.
      assert (Hlen : forall s, In sep s -> (2 <= length (split sep s))%nat).
      { clear. induction s as [|x s IHs]; intros Hin; [contradiction|]. simpl.
        destruct (Ascii.eqb_spec x sep) as [->|Hx].
        - simpl. pose proof (split_not_nil sep s).
          destruct (split sep s); [congruence | simpl; lia].
        - destruct Hin as [->|Hin]; [congruence|].
          specialize (IHs Hin). destruct (split sep s); simpl in *; lia. }
      specialize (Hlen (a ++ sep :: b)). rewrite E in Hlen. simpl in Hlen.
      assert (In sep (a ++ sep :: b)) by (apply in_or_app; right; now left).
      specialize (Hlen H). lia.
Qed.

Lemma split_hd_before_sep :
  forall (sep : Ascii.ascii) (a b : str),
    ~ In sep a -> hd [] (split sep (a ++ sep :: b)) = a.
Proof.
  intros sep a b. induction a as [|c a IH]; intros Hno; simpl.
  - now rewrite Ascii.eqb_refl.
  - destruct (Ascii.eqb_spec c sep) as [->|Hc].
    + exfalso. apply Hno. now left.
    + assert (Ha : ~ In sep a) by (intros Hin; apply Hno; now right).
      specialize (IH Ha).
      pose proof (split_not_nil sep (a ++ sep :: b)) as Hne.
      destruct (split sep (a ++ sep :: b)); [congruence|].
      simpl in *. now rewrite IH.
Qed.

Lemma split_pieces_no_sep :
  forall (sep : Ascii.ascii) (s piece : str),
    In piece (split sep s) -> ~ In sep piece.
Proof.
  intros sep s. induction s as [|c s IH]; intros piece Hin; simpl in Hin.
  - destruct Hin as [<-|[]]. intros [].
  - destruct (Ascii.eqb_spec c sep) as [->|Hc].
    + destruct Hin as [<-|Hin]; [intros [] | now apply IH].
    + pose proof (split_not_nil sep s) as Hne.
      destruct (split sep s) as [|p ps]; [congruence|].
      destruct Hin as [<-|Hin].
      * intros [E|Hp]; [congruence|]. apply (IH p); [now left | exact Hp].
      * apply IH. now right.
Qed.

Lemma last_In :
  forall (A : Type) (l : list A) (d : A), l <> [] -> In (last l d) l.
Proof.
  intros A l d. induction l as [|x l IH]; intros Hne; [congruence|].
  destruct l as [|y l]; [now left|].
  right. apply IH. discriminate.
Qed.

Lemma str_eqb_true : forall a b : str, str_eqb a b = true <-> a = b.
Proof.
  intros a b. unfold str_eqb.
  destruct (list_eq_dec Ascii.ascii_dec a b); split; intros; auto; discriminate.
Qed.
End SplitFacts.

(** The name a file is filed under: for a path [dir/name.rest], with no
    slash or dot in [name] and no slash in [rest], it is [name]; it never
    holds a slash or a dot; and with a list of pulsars given, such a file is
    kept exactly when it was listed and [name] is one of the pulsars. *)
Theorem file_stem_selects_pulsar :
  forall (dir name rest : str) (names files : list str),
    ~ In "/"%char name -> ~ In "."%char name -> ~ In "/"%char rest ->
    file_stem (dir ++ "/"%char :: name ++ "."%char :: rest) = name /\
    (forall x : str,
       ~ In "/"%char (file_stem x) /\ ~ In "."%char (file_stem x)) /\
    (In (dir ++ "/"%char :: name ++ "."%char :: rest)
        (filter_by_psrlist (Some names) files) <->
     In (dir ++ "/"%char :: name ++ "."%char :: rest) files /\ In name names) /\
    filter_by_psrlist None files = files.
Proof.
  intros dir name rest names files Hn1 Hn2 Hr.
  assert (Hstem : file_stem (dir ++ "/"%char :: name ++ "."%char :: rest) = name).
  { unfold file_stem. rewrite split_last_after_sep.
    rewrite (split_no_sep "/"%char (name ++ "."%char :: rest)).
    - simpl last. now apply split_hd_before_sep.
    - intros Hin. apply in_app_or in Hin.
      destruct Hin as [Hin|[E|Hin]]; [tauto | discriminate | tauto]. }
  split; [exact Hstem|]. split; [|split].
  - intros x. unfold file_stem.
    set (base := last (split "/"%char x) []).
    assert (Hbase : ~ In "/"%char base).
    { unfold base. apply (split_pieces_no_sep "/"%char x).
      apply last_In. apply split_not_nil. }
    pose proof (split_not_nil "."%char base) as Hne.
    destruct (split "."%char base) as [|p ps] eqn:E; [congruence|]. simpl.
    split.
    + intros Hin.
      assert (Hsub : forall (sep : Ascii.ascii) (s : str) (c : Ascii.ascii),
                 In c (hd [] (split sep s)) -> In c s).
      { clear. intros sep s c. induction s as [|y s IHs]; simpl; [tauto|].
        destruct (Ascii.eqb y sep); simpl; [tauto|].
        pose proof (split_not_nil sep s).
        destruct (split sep s); [congruence|]. simpl in *.
        intros [->|Hc]; [now left | right; now apply IHs]. }
      apply Hbase. apply (Hsub "."%char base). now rewrite E.
    + apply (split_pieces_no_sep "."%char base). rewrite E. now left.
  - unfold filter_by_psrlist. rewrite filter_In, Hstem.
    split; intros [Hf Hx]; (split; [exact Hf|]).
    + apply existsb_exists in Hx. destruct Hx as (n & Hn & Heq).
      apply str_eqb_true in Heq. now subst.
    + apply existsb_exists. exists name. split; [exact Hx|].
      now apply str_eqb_true.
  - reflexivity.
Qed.

Lemma not_In_by_search :
  forall (c : Ascii.ascii) (s : str),
    existsb (Ascii.eqb c) s = false -> ~ In c s.
Proof.
  intros c s Hs Hin.
  assert (existsb (Ascii.eqb c) s = true); [|congruence].
  apply existsb_exists. exists c. split; [exact Hin | apply Ascii.eqb_refl].
Qed.

Lemma file_stem_selects_pulsar_witness :
  file_stem (par_dir ++ "/"%char :: par_name ++ "."%char :: par_rest) = par_name /\
  (forall x : str,
     ~ In "/"%char (file_stem x) /\ ~ In "."%char (file_stem x)) /\
  (In (par_dir ++ "/"%char :: par_name ++ "."%char :: par_rest)
      (filter_by_psrlist (Some [par_name])
         [par_dir ++ "/"%char :: par_name ++ "."%char :: par_rest]) <->
   In (par_dir ++ "/"%char :: par_name ++ "."%char :: par_rest)
      [par_dir ++ "/"%char :: par_name ++ "."%char :: par_rest] /\
   In par_name [par_name]) /\
  filter_by_psrlist None
    [par_dir ++ "/"%char :: par_name ++ "."%char :: par_rest]
  = [par_dir ++ "/"%char :: par_name ++ "."%char :: par_rest].
Proof.
  apply file_stem_selects_pulsar; apply not_In_by_search; reflexivity.
Defined.

Section PathFacts.

(** The data directory ends in the component [data]. *)
Lemma datadir_shape :
  forall cwd : str,
    exists pre : str,
      datadir cwd = pre ++ String.list_ascii_of_string "data" /\
      (pre = [] \/ exists p : str, pre = p ++ ["/"%char]) /\
      datadir cwd <> [] /\
      last (datadir cwd) " "%char = "a"%char.
Proof.
  intros cwd. unfold datadir, path_join. simpl String.list_ascii_of_string.
  destruct cwd as [|c cwd].
  - exists []. simpl. repeat split; try discriminate. now left.
  - destruct (Ascii.eqb (last (c :: cwd) " "%char) "/"%char) eqn:E.
    + exists (c :: cwd). split; [reflexivity|]. split; [|split].
      * right. apply Ascii.eqb_eq in E.
        destruct (exists_last (l := c :: cwd)) as (p & z & Ep); [discriminate|].
        rewrite Ep in E |- *. rewrite last_last in E. subst z. now exists p.
      * discriminate.
      * change ((c :: cwd) ++ ["d"; "a"; "t"; "a"]%char)
          with ((c :: cwd) ++ ["d"; "a"; "t"]%char ++ ["a"%char]).
        rewrite app_assoc. apply last_last.
    + exists ((c :: cwd) ++ ["/"%char]). split; [|split; [|split]].
      * rewrite <- app_assoc. reflexivity.
      * right. now exists (c :: cwd).
      * discriminate.
      * change ((c :: cwd) ++ "/"%char :: ["d"; "a"; "t"; "a"]%char)
          with ((c :: cwd) ++ ["/"; "d"; "a"; "t"]%char ++ ["a"%char]).
        rewrite app_assoc. apply last_last.
Qed.
End PathFacts.

(** The pickle is opened at [datadir + name], without a separator: whatever
    the working directory, the file opened is not [name] inside the data
    directory but a file called [data] followed by [name], next to that
    directory; the noise dictionary, opened at [os.path.join(datadir, name)],
    is the file [name] inside it. *)
Theorem pickle_path_lacks_separator :
  forall cwd name : str,
    ~ In "/"%char name ->
    path_basename (pickle_path cwd name)
    = String.list_ascii_of_string "data" ++ name /\
    path_basename (noisedict_path cwd name) = name /\
    noisedict_path cwd name = datadir cwd ++ "/"%char :: name /\
    pickle_path cwd name <> noisedict_path cwd name.
Proof.
  intros cwd name Hname.
  destruct (datadir_shape cwd) as (pre & Hd & Hpre & Hne & Hlast).
  assert (Hjoin : noisedict_path cwd name = datadir cwd ++ "/"%char :: name).
  { unfold noisedict_path, path_join.
    destruct name as [|c name].
    - destruct (datadir cwd) as [|x xs] eqn:E; [congruence|].
      rewrite Hlast. reflexivity.
    - destruct (Ascii.eqb_spec c "/"%char) as [->|Hc].
      + exfalso. apply Hname. now left.
      + destruct (datadir cwd) as [|x xs] eqn:E; [congruence|].
        rewrite Hlast.
        destruct c as [[] [] [] [] [] [] [] []]; try reflexivity.
        congruence. }
  assert (Hdata : ~ In "/"%char (String.list_ascii_of_string "data" ++ name)).
  { intros Hin. apply in_app_or in Hin. destruct Hin as [Hin|Hin]; [|tauto].
    simpl in Hin. repeat (destruct Hin as [Hin|Hin]; [discriminate|]). exact Hin. }
  split; [|split; [|split]].
  - unfold path_basename, pickle_path. rewrite Hd, <- app_assoc.
    destruct Hpre as [->|[p ->]].
    + simpl app at 1. now rewrite split_no_sep.
    + rewrite <- app_assoc. simpl app at 2.
      rewrite split_last_after_sep. now rewrite split_no_sep.
  - unfold path_basename. rewrite Hjoin, split_last_after_sep.
    now rewrite split_no_sep.
  - exact Hjoin.
  - rewrite Hjoin. unfold pickle_path. intros E.
    apply app_inv_head in E.
    apply Hname. rewrite E. now left.
Qed.

Lemma pickle_path_lacks_separator_witness :
  path_basename (pickle_path cwd_example pickle_name)
  = String.list_ascii_of_string "data" ++ pickle_name /\
  path_basename (noisedict_path cwd_example pickle_name) = pickle_name /\
  noisedict_path cwd_example pickle_name
  = datadir cwd_example ++ "/"%char :: pickle_name /\
  pickle_path cwd_example pickle_name <> noisedict_path cwd_example pickle_name.
Proof.
  apply pickle_path_lacks_separator. apply not_In_by_search. reflexivity.
Defined.

(** ** The working directory *)

Lemma parent_dir_of_child :
  forall root sub : str,
    root <> [] -> ~ In "/"%char sub -> parent_dir (root ++ "/"%char :: sub) = root.
Proof.
  intros root sub Hroot Hsub. unfold parent_dir, path_basename.
  rewrite split_last_after_sep, (split_no_sep "/"%char sub Hsub). simpl last.
  rewrite length_app. simpl length.
  replace (length root + S (length sub) - S (length sub))%nat
    with (length root + 0)%nat by lia.
  rewrite firstn_app_2. simpl. rewrite app_nil_r.
  destruct root; [congruence | reflexivity].
Qed.

(** The cell that moves to the repository: started in the repository it
    stays there, so running it again is harmless; started in a folder
    directly inside the repository it moves up into the repository; started
    two folders down, one run only reaches the folder in between. *)
Theorem cd_to_repo_reaches_root :
  forall root sub sub2 : str,
    root <> [] ->
    path_basename root = repo_name ->
    ~ In "/"%char sub -> sub <> repo_name ->
    ~ In "/"%char sub2 -> sub2 <> repo_name ->
    cd_to_repo root = root /\
    cd_to_repo (root ++ "/"%char :: sub) = root /\
    cd_to_repo (cd_to_repo (root ++ "/"%char :: sub)) = root /\
    cd_to_repo ((root ++ "/"%char :: sub) ++ "/"%char :: sub2)
    = root ++ "/"%char :: sub.
Proof.
  intros root sub sub2 Hroot Hbase Hsub Hsubn Hsub2 Hsub2n.
  assert (Hstay : cd_to_repo root = root).
  { unfold cd_to_repo. rewrite Hbase.
    now rewrite (proj2 (str_eqb_true repo_name repo_name) eq_refl). }
  assert (Hup : forall (r s : str),
             r <> [] -> ~ In "/"%char s -> s <> repo_name ->
             cd_to_repo (r ++ "/"%char :: s) = r).
  { intros r s Hr Hs Hsn. unfold cd_to_repo.
    assert (Hb : path_basename (r ++ "/"%char :: s) = s).
    { unfold path_basename.
      now rewrite split_last_after_sep, (split_no_sep "/"%char s Hs). }
    rewrite Hb.
    destruct (str_eqb s repo_name) eqn:E.
    - apply str_eqb_true in E. contradiction.
    - now apply parent_dir_of_child. }
  split; [exact Hstay|]. split; [now apply Hup|]. split.
  - rewrite (Hup root sub Hroot Hsub Hsubn). exact Hstay.
  - apply Hup; trivial. destruct root; discriminate.
Qed.

Lemma cd_to_repo_reaches_root_witness :
  cd_to_repo repo_root_example = repo_root_example /\
  cd_to_repo (repo_root_example ++ "/"%char :: notebooks_dir) = repo_root_example /\
  cd_to_repo (cd_to_repo (repo_root_example ++ "/"%char :: notebooks_dir))
  = repo_root_example /\
  cd_to_repo ((repo_root_example ++ "/"%char :: notebooks_dir)
              ++ "/"%char :: notebooks_dir)
  = repo_root_example ++ "/"%char :: notebooks_dir.
Proof.
  apply cd_to_repo_reaches_root.
  - discriminate.
  - reflexivity.
  - apply not_In_by_search. reflexivity.
  - discriminate.
  - apply not_In_by_search. reflexivity.
  - discriminate.
Defined.

(** ** [get_HD_curve] in binary64 and in exact arithmetic *)

Section Binary64Facts.
Local Open Scope R_scope.

Lemma digits2_pos_bounds :
  forall p : BinNums.positive,
    (2 ^ (Zpos (digits2_pos p) - 1) <= Zpos p < 2 ^ Zpos (digits2_pos p))%Z.
Proof.
  induction p as [p IH|p IH|]; simpl digits2_pos.
  - rewrite Pos2Z.inj_succ.
    replace (Z.succ (Zpos (digits2_pos p)) - 1)%Z
      with (Z.succ (Zpos (digits2_pos p) - 1)) by lia.
    rewrite !Z.pow_succ_r by lia. lia.
  - rewrite Pos2Z.inj_succ.
    replace (Z.succ (Zpos (digits2_pos p)) - 1)%Z
      with (Z.succ (Zpos (digits2_pos p) - 1)) by lia.
    rewrite !Z.pow_succ_r by lia. lia.
  - simpl. lia.
Qed.

(** What [valid_binary] says of a finite binary64 number: 53 digits, or
    fewer at the least exponent. *)
Lemma finite_shape :
  forall (y : float) (s : bool) (m : BinNums.positive) (e : Z),
    Prim2SF y = S754_finite s m e ->
    (Zpos m < 2 ^ 53)%Z /\
    ((-1074 < e)%Z -> (2 ^ 52 <= Zpos m)%Z) /\
    (-1074 <= e <= 971)%Z.
Proof.
  intros y s m e Hy.
  pose proof (Prim2SF_valid y) as Hv. rewrite Hy in Hv.
  unfold valid_binary, bounded, canonical_mantissa, fexp, emin in Hv.
  apply andb_prop in Hv. destruct Hv as [Hc He].
  apply Z.eqb_eq in Hc. apply Z.leb_le in He.
  unfold prec, emax in *.
  pose proof (digits2_pos_bounds m) as [Hlo Hhi].
  assert (Hd : (Zpos (digits2_pos m) <= 53)%Z) by lia.
  split; [|split; [|lia]].
  - apply (Z.lt_le_trans _ _ _ Hhi). apply Z.pow_le_mono_r; lia.
  - intros Hn. assert (Ed : Zpos (digits2_pos m) = 53%Z) by lia.
    rewrite Ed in Hlo. exact Hlo.
Qed.

Lemma quotient_ge :
  forall a b c : R, 0 < b -> c * b <= a -> c <= a / b.
Proof.
  intros a b c Hb H. apply (Rmult_le_reg_r b); [exact Hb|].
  unfold Rdiv. rewrite Rmult_assoc, Rinv_l by lra. lra.
Qed.

Lemma quotient_le :
  forall a b c : R, 0 < b -> a <= c * b -> a / b <= c.
Proof.
  intros a b c Hb H. apply (Rmult_le_reg_r b); [exact Hb|].
  unfold Rdiv. rewrite Rmult_assoc, Rinv_l by lra. lra.
Qed.

(** The binary64 numbers next to 1 are [1 - 2^-53] and [1 + 2^-52]. *)
Lemma binary64_near_one :
  forall y : float,
    is_finite y = true ->
    y = 1%float \/ 1 / 9007199254740992 <= Rabs (B2R y - 1).
Proof.
  intros y Hfin. unfold is_finite in Hfin. unfold B2R.
  destruct (Prim2SF y) as [s0| |  |s m e] eqn:Hy; try discriminate.
  - right. simpl. rewrite Rminus_0_l, Rabs_Ropp, Rabs_R1. lra.
  - destruct (finite_shape y s m e Hy) as (Hhi & Hlo & He).
    assert (Hm : 0 < IZR (Zpos m)) by (apply IZR_lt; lia).
    assert (Hhi' : IZR (Zpos m) < 9007199254740992)
      by (apply IZR_lt in Hhi; exact Hhi).
    assert (Hmag :
      forall mag : R,
        (mag = 1 -> s = false -> y = 1%float) ->
        0 <= mag ->
        (mag = 1 \/ mag <= 1 - 1 / 9007199254740992
         \/ 1 + 1 / 9007199254740992 <= mag) ->
        y = 1%float \/
        1 / 9007199254740992 <= Rabs ((if s then - mag else mag) - 1)).
    { intros mag Hone Hpos Hcases. destruct s.
      - right. rewrite Rabs_left by lra. lra.
      - destruct Hcases as [E|[Hbelow|Habove]].
        + left. now apply Hone.
        + right. rewrite Rabs_left by lra. lra.
        + right. rewrite Rabs_right by lra. lra. }
    unfold SF2R. cbv beta iota zeta. apply Hmag; clear Hmag.
    + (* the magnitude is 1 only for the number 1.0 *)
      intros Emag ->. apply Prim2SF_inj. rewrite Hy.
      destruct e as [|k|k]; cbv beta iota in Emag.
      * exfalso. rewrite Z.pow_0_r, Z.mul_1_r in Emag.
        apply eq_IZR in Emag. assert (2 ^ 52 <= Zpos m)%Z by (apply Hlo; lia). lia.
      * exfalso. apply eq_IZR in Emag.
        assert (0 < 2 ^ Zpos k)%Z by (apply Z.pow_pos_nonneg; lia).
        assert (2 ^ 52 <= Zpos m)%Z by (apply Hlo; lia). nia.
      * assert (Hk : 0 < IZR (2 ^ Zpos k))
          by (apply IZR_lt, Z.pow_pos_nonneg; lia).
        assert (Em : IZR (Zpos m) = IZR (2 ^ Zpos k)).
        { apply (Rmult_eq_reg_r (/ IZR (2 ^ Zpos k))).
          - rewrite Rinv_r by lra. exact Emag.
          - apply Rinv_neq_0_compat. lra. }
        apply eq_IZR in Em.
        assert (Hk53 : (Zpos k < 53)%Z).
        { destruct (Z.lt_ge_cases (Zpos k) 53) as [H|H]; [exact H|].
          assert (2 ^ 53 <= 2 ^ Zpos k)%Z by (apply Z.pow_le_mono_r; lia). lia. }
        assert (Hm52 : (2 ^ 52 <= Zpos m)%Z) by (apply Hlo; lia).
        assert (Hk52 : (52 <= Zpos k)%Z).
        { destruct (Z.lt_ge_cases (Zpos k) 52) as [H|H]; [|exact H].
          assert (2 ^ Zpos k <= 2 ^ 51)%Z by (apply Z.pow_le_mono_r; lia).
          assert (2 ^ 51 < 2 ^ 52)%Z by (apply Z.pow_lt_mono_r; lia). lia. }
        assert (Ek : Zpos k = 52%Z) by lia.
        injection Ek as ->.
        change (2 ^ 52)%Z with 4503599627370496%Z in Em.
        injection Em as ->. reflexivity.
    + destruct e as [|k|k]; cbv beta iota.
      * apply IZR_le. lia.
      * apply IZR_le. assert (0 < 2 ^ Zpos k)%Z by (apply Z.pow_pos_nonneg; lia). nia.
      * assert (Hk : 0 < IZR (2 ^ Zpos k))
          by (apply IZR_lt, Z.pow_pos_nonneg; lia).
        apply quotient_ge; [exact Hk | lra].
    + destruct e as [|k|k]; cbv beta iota.
      * right. right. rewrite Z.pow_0_r, Z.mul_1_r.
        assert (H52 : (2 ^ 52 <= Zpos m)%Z) by (apply Hlo; lia).
        apply IZR_le in H52. change (IZR (2 ^ 52)) with 4503599627370496 in H52. lra.
      * right. right.
        assert (H52 : (2 ^ 52 <= Zpos m)%Z) by (apply Hlo; lia).
        assert (Hp : (1 <= 2 ^ Zpos k)%Z)
          by (assert (0 < 2 ^ Zpos k)%Z by (apply Z.pow_pos_nonneg; lia); lia).
        assert (Hprod : (2 ^ 52 <= Zpos m * 2 ^ Zpos k)%Z) by nia.
        apply IZR_le in Hprod. change (IZR (2 ^ 52)) with 4503599627370496 in Hprod.
        lra.
      * assert (Hk : 0 < IZR (2 ^ Zpos k))
          by (apply IZR_lt, Z.pow_pos_nonneg; lia).
        destruct (Z.lt_trichotomy (Zpos k) 52) as [Hlt|[Eq|Hgt]].
        -- (* at least 2 *)
           right. right.
           assert (H52 : (2 ^ 52 <= Zpos m)%Z) by (apply Hlo; lia).
           assert (Hpk : (2 ^ Zpos k <= 2 ^ 51)%Z) by (apply Z.pow_le_mono_r; lia).
           assert (Hz : (2 * 2 ^ Zpos k <= Zpos m)%Z).
           { change (2 ^ 52)%Z with (2 * 2 ^ 51)%Z in H52. lia. }
           apply IZR_le in Hz. rewrite mult_IZR in Hz.
           apply (Rle_trans _ 2); [lra|]. apply quotient_ge; [exact Hk | exact Hz].
        -- injection Eq as ->.
           assert (H52 : (2 ^ 52 <= Zpos m)%Z) by (apply Hlo; lia).
           change (IZR (2 ^ 52)) with 4503599627370496.
           destruct (Z.eq_dec (Zpos m) (2 ^ 52)) as [E|N].
           ++ left. rewrite E. change (IZR (2 ^ 52)) with 4503599627370496. field.
           ++ right. right.
              assert (Hz : (2 ^ 52 + 1 <= Zpos m)%Z) by lia.
              apply IZR_le in Hz.
              change (IZR (2 ^ 52 + 1)) with 4503599627370497 in Hz.
              apply quotient_ge; lra.
        -- destruct (Z.eq_dec (Zpos k) 53) as [E|N].
           ++ injection E as ->. right. left.
              change (IZR (2 ^ 53)) with 9007199254740992.
              assert (Hz : (Zpos m <= 2 ^ 53 - 1)%Z) by lia.
              apply IZR_le in Hz.
              change (IZR (2 ^ 53 - 1)) with 9007199254740991 in Hz.
              apply quotient_le; lra.
           ++ right. left.
              assert (Hpk : (2 ^ 54 <= 2 ^ Zpos k)%Z) by (apply Z.pow_le_mono_r; lia).
              assert (Hz : (2 * Zpos m <= 2 ^ Zpos k)%Z).
              { change (2 ^ 54)%Z with (2 * 2 ^ 53)%Z in Hpk. lia. }
              apply IZR_le in Hz. rewrite mult_IZR in Hz.
              apply (Rle_trans _ (1 / 2)); [|lra].
              apply quotient_le; lra.
Qed.

Lemma sin_sqr_le : forall u : R, sin u * sin u <= u * u.
Proof.
  intros u.
  assert (Hpos : forall v : R, 0 < v -> sin v * sin v <= v * v).
  { intros v Hv. pose proof (sin_lt_x v Hv) as Hs.
    pose proof (SIN_bound v) as [Hlo _].
    destruct (Rle_lt_dec 1 v) as [H1|H1].
    - pose proof (SIN_bound v) as [_ Hup].
      assert (sin v * sin v <= 1) by nra. nra.
    - assert (- v < sin v).
      { pose proof (sin_lt_x v Hv).
        destruct (Rle_lt_dec 0 (sin v)) as [H0|H0]; [lra|].
        assert (0 < sin v); [|lra].
        apply sin_gt_0; [lra|]. pose proof PI_RGT_0. pose proof PI2_3_2. lra. }
      nra. }
  destruct (Rtotal_order u 0) as [Hn|[->|Hp]].
  - specialize (Hpos (- u) ltac:(lra)). rewrite sin_neg in Hpos. nra.
  - rewrite sin_0. lra.
  - now apply Hpos.
Qed.

(** [1 - cos x <= x^2 / 2]. *)
Lemma versine_le : forall x : R, 0 <= 1 - cos x <= x * x / 2.
Proof.
  intros x. pose proof (half_versine x) as Hv.
  pose proof (sin_sqr_le (x / 2)) as Hs.
  pose proof (COS_bound x) as [_ Hc]. split; [lra|].
  replace (1 - cos x) with (2 * ((1 - cos x) / 2)) by field. rewrite Hv. nra.
Qed.

Lemma B2R_one : B2R 1%float = 1.
Proof.
  unfold B2R.
  replace (Prim2SF 1%float) with (S754_finite false 4503599627370496 (-52))
    by (vm_compute; reflexivity).
  unfold SF2R. cbv beta iota zeta.
  change (IZR (2 ^ 52)) with 4503599627370496. field.
Qed.

(** For an angle of at most 2^-27 radians the nearest binary64 number to its
    cosine is 1.0, and no other. *)
Lemma np_cos_small_angle :
  forall x : float,
    is_finite x = true -> Rabs (B2R x) <= 1 / 134217728 ->
    np_cos_returns x 1%float /\
    forall c : float, np_cos_returns x c -> c = 1%float.
Proof.
  intros x Hfin Hx. unfold np_cos_returns. rewrite Hfin.
  pose proof (versine_le (B2R x)) as [Hd0 Hd].
  assert (Hsq : B2R x * B2R x <= 1 / 134217728 * (1 / 134217728)).
  { unfold Rabs in Hx. destruct (Rcase_abs (B2R x)); nra. }
  assert (Hdelta : 1 - cos (B2R x) <= 1 / 36028797018963968) by lra.
  split.
  - split; [reflexivity|]. intros z Hz. rewrite B2R_one.
    rewrite (Rabs_right (1 - cos (B2R x))) by lra.
    destruct (binary64_near_one z Hz) as [->|Hfar].
    + rewrite B2R_one. rewrite Rabs_right by lra. lra.
    + unfold Rabs in *.
      destruct (Rcase_abs (B2R z - 1)); destruct (Rcase_abs (B2R z - cos (B2R x))); lra.
  - intros c [Hc Hnear].
    specialize (Hnear 1%float eq_refl). rewrite B2R_one in Hnear.
    destruct (binary64_near_one c Hc) as [E|Hfar]; [exact E|].
    exfalso. unfold Rabs in *.
    destruct (Rcase_abs (B2R c - 1)); destruct (Rcase_abs (B2R c - cos (B2R x)));
      destruct (Rcase_abs (1 - cos (B2R x))); lra.
Qed.

(** Below 2^-27 radians the program computes [xip = 0] and
    [0 * (log(0) - 1/6) = 0 * -inf], which is nan. *)
Lemma get_HD_curve_binary64_small_angle :
  forall zeta : float,
    is_finite (zeta * np_pi / 180)%float = true ->
    Rabs (B2R (zeta * np_pi / 180)%float) <= 1 / 134217728 ->
    (exists hd : float, get_HD_curve_binary64 zeta hd) /\
    forall hd : float, get_HD_curve_binary64 zeta hd -> PrimFloat.is_nan hd = true.
Proof.
  intros zeta Hfin Hsmall.
  destruct (np_cos_small_angle _ Hfin Hsmall) as [Hone Huniq].
  split.
  - eexists. apply (get_HD_curve_run zeta 1%float neg_infinity Hone).
    reflexivity.
  - intros hd Hrun. destruct Hrun as [c l Hc Hl].
    apply Huniq in Hc. subst c.
    assert (El : l = neg_infinity) by exact Hl.
    subst l. reflexivity.
Qed.
End Binary64Facts.

Section HellingsDownsTemplate.
Local Open Scope R_scope.

Lemma get_HD_curve_unfolds :
  forall zeta : R, get_HD_curve zeta = hellings_downs_closed_form zeta.
Proof.
  intros zeta. unfold get_HD_curve, hellings_downs_closed_form. cbv zeta. field.
Qed.

Lemma B2R_zeta_tiny :
  B2R zeta_tiny = 7555786372591432 / 75557863725914323419136.
Proof.
  unfold B2R.
  replace (Prim2SF zeta_tiny) with (S754_finite false 7555786372591432 (-76))
    by (vm_compute; reflexivity).
  reflexivity.
Qed.

Lemma B2R_radians_tiny :
  B2R (zeta_tiny * np_pi / 180)%float
  = 8439894385858530 / 4835703278458516698824704.
Proof.
  unfold B2R.
  replace (Prim2SF (zeta_tiny * np_pi / 180)%float)
    with (S754_finite false 8439894385858530 (-82))
    by (vm_compute; reflexivity).
  reflexivity.
Qed.

Lemma B2R_zeta_tinier :
  B2R zeta_tinier
  = 4503599627370496
    / 7237005577332262213973186563042994240829374041602535252466099000494570602496.
Proof.
  unfold B2R.
  replace (Prim2SF zeta_tinier) with (S754_finite false 4503599627370496 (-252))
    by (vm_compute; reflexivity).
  reflexivity.
Qed.

Lemma B2R_radians_tinier :
  B2R (zeta_tinier * np_pi / 180)%float
  = 5030569068109113
    / 463168356949264781694283940034751631413079938662562256157830336031652518559744.
Proof.
  unfold B2R.
  replace (Prim2SF (zeta_tinier * np_pi / 180)%float)
    with (S754_finite false 5030569068109113 (-258))
    by (vm_compute; reflexivity).
  reflexivity.
Qed.
End HellingsDownsTemplate.

(** C3 (amended): in exact arithmetic, with [np.cos] and [np.log] the real
    cosine and logarithm, [get_HD_curve] is the template
    (3/2)(1/3 + x (ln x - 1/6)) with x = (1 - cos zeta)/2, the angle in
    degrees; as zeta tends to 0 from above its value tends to 1/2, which
    bounds it from above on (0, 180]; and at 180 degrees it is 1/4, within
    1e-9. *)
Theorem get_HD_curve_template :
  (forall zeta : R, get_HD_curve zeta = hellings_downs_closed_form zeta) /\
  (forall eps : R, (0 < eps)%R ->
     exists delta : R, (0 < delta)%R /\
       forall zeta : R, (0 < zeta < delta)%R ->
         (Rabs (get_HD_curve zeta - 1 / 2) < eps)%R) /\
  (forall zeta : R, (0 < zeta <= 180)%R -> (get_HD_curve zeta <= 1 / 2)%R) /\
  get_HD_curve 180 = (1 / 4)%R /\
  (Rabs (get_HD_curve 180 - 1 / 4) <= 1 / 1000000000)%R.
Proof.
  assert (H180 : get_HD_curve 180 = (1 / 4)%R).
  { unfold get_HD_curve.
    replace (180 * PI / 180)%R with PI by field.
    rewrite cos_PI.
    replace ((1 - -1) / 2)%R with 1%R by field.
    rewrite ln_1. field. }
  split; [|split; [|split; [|split]]].
  - exact get_HD_curve_unfolds.
  - intros eps Heps.
    pose proof PI_RGT_0 as Hpi.
    exists (Rmin 180 (eps * 90 / PI)).
    split.
    + apply Rmin_glb_lt; [lra|].
      apply Rdiv_lt_0_compat; lra.
    + intros zeta [Hz0 Hzd].
      pose proof (Rmin_l 180 (eps * 90 / PI)) as Hl.
      pose proof (Rmin_r 180 (eps * 90 / PI)) as Hr.
      assert (Hz : (0 < zeta <= 180)%R) by lra.
      apply (Rlt_le_trans _ _ _ (get_HD_curve_near_half zeta Hz)).
      assert (Hzpi : (zeta * PI < eps * 90)%R).
      { apply (Rlt_le_trans _ (eps * 90 / PI * PI)).
        - apply Rmult_lt_compat_r; lra.
        - right. field. lra. }
      lra.
  - intros zeta Hz. left. now apply get_HD_curve_below_half.
  - exact H180.
  - rewrite H180. replace (1 / 4 - 1 / 4)%R with 0%R by field.
    rewrite Rabs_R0. lra.
Qed.

Lemma get_HD_curve_template_witness :
  get_HD_curve 60 = hellings_downs_closed_form 60 /\
  (exists delta : R, (0 < delta)%R /\
     forall zeta : R, (0 < zeta < delta)%R ->
       (Rabs (get_HD_curve zeta - 1 / 2) < 1 / 100)%R) /\
  (get_HD_curve (1 / 10000000) <= 1 / 2)%R /\
  (get_HD_curve 90 <= 1 / 2)%R /\
  (get_HD_curve 180 <= 1 / 2)%R /\
  get_HD_curve 180 = (1 / 4)%R.
Proof.
  destruct get_HD_curve_template as (Htemplate & Hlimit & Hbound & H180 & _).
  split; [apply Htemplate|].
  split; [apply Hlimit; lra|].
  split; [apply Hbound; lra|].
  split; [apply Hbound; lra|].
  split; [apply Hbound; lra | exact H180].
Defined.

(** C3 as stated fails on the binary64 program.  At 1e-7 degrees, an angle
    of the claimed domain, the template is within 1e-6 of 1/2, but the
    program has a result and every result is nan: the cosine rounds to 1.0,
    so [xip] is 0 and [xip * (log(xip) - 1/6)] is [0 * -inf].  The same
    holds at the smaller angle 2^-200 degrees, so the results do not tend
    to 1/2 either. *)
Lemma get_HD_curve_binary64_nan_near_zero :
  (0 < B2R zeta_tiny <= 180)%R /\
  (Rabs (hellings_downs_closed_form (B2R zeta_tiny) - 1 / 2) < 1 / 1000000)%R /\
  (exists hd : float, get_HD_curve_binary64 zeta_tiny hd) /\
  (forall hd : float,
     get_HD_curve_binary64 zeta_tiny hd -> PrimFloat.is_nan hd = true) /\
  (0 < B2R zeta_tinier < B2R zeta_tiny)%R /\
  (exists hd : float, get_HD_curve_binary64 zeta_tinier hd) /\
  (forall hd : float,
     get_HD_curve_binary64 zeta_tinier hd -> PrimFloat.is_nan hd = true).
Proof.
  assert (Hdom : (0 < B2R zeta_tiny <= 180)%R) by (rewrite B2R_zeta_tiny; lra).
  assert (Htiny :
    (exists hd : float, get_HD_curve_binary64 zeta_tiny hd) /\
    forall hd : float,
      get_HD_curve_binary64 zeta_tiny hd -> PrimFloat.is_nan hd = true).
  { apply get_HD_curve_binary64_small_angle; [reflexivity|].
    rewrite B2R_radians_tiny. rewrite Rabs_right by lra. lra. }
  assert (Htinier :
    (exists hd : float, get_HD_curve_binary64 zeta_tinier hd) /\
    forall hd : float,
      get_HD_curve_binary64 zeta_tinier hd -> PrimFloat.is_nan hd = true).
  { apply get_HD_curve_binary64_small_angle; [reflexivity|].
    rewrite B2R_radians_tinier. rewrite Rabs_right by lra. lra. }
  split; [exact Hdom|].
  split.
  - rewrite <- get_HD_curve_unfolds.
    apply (Rlt_trans _ _ _ (get_HD_curve_near_half _ Hdom)).
    rewrite B2R_zeta_tiny. pose proof PI_4 as Hpi. pose proof PI_RGT_0. lra.
  - split; [exact (proj1 Htiny)|]. split; [exact (proj2 Htiny)|].
    split; [rewrite B2R_zeta_tinier, B2R_zeta_tiny; lra|].
    exact Htinier.
Qed.

(** ** The burn-in cut as the notebooks run it *)

Lemma digits2_pos_iter_xO :
  forall (p : BinNums.positive) (k : BinNums.positive),
    digits2_pos (Pos.iter xO p k) = (digits2_pos p + k)%positive.
Proof.
  intros p k. induction k as [|k IH] using Pos.peano_ind.
  - simpl. lia.
  - rewrite Pos.iter_succ. simpl. rewrite IH. lia.
Qed.

Lemma Zpos_iter_xO :
  forall (p : BinNums.positive) (k : BinNums.positive),
    Zpos (Pos.iter xO p k) = (Zpos p * 2 ^ Zpos k)%Z.
Proof.
  intros p k. induction k as [|k IH] using Pos.peano_ind.
  - simpl. lia.
  - rewrite Pos.iter_succ, Pos2Z.inj_succ, Z.pow_succ_r by lia.
    rewrite Pos2Z.inj_xO, IH. lia.
Qed.

(** A mantissa of 53 digits with an exponent in range is left as it is. *)
Lemma binary_round_aux_canonical :
  forall (s : bool) (m : BinNums.positive) (e : Z),
    digits2_pos m = 53%positive -> (-1074 <= e <= 971)%Z ->
    binary_round_aux prec emax s (Zpos m) e loc_Exact = S754_finite s m e.
Proof.
  intros s m e Hd He.
  unfold binary_round_aux, shr_fexp. simpl Zdigits2. rewrite Hd.
  unfold fexp, emin, prec, emax.
  replace (Z.max (53 + e - 53) (3 - 1024 - 53) - e)%Z with 0%Z by lia.
  cbn [shr shr_record_of_loc shr_m loc_of_shr_record round_nearest_even Zdigits2].
  rewrite Hd.
  replace (Z.max (53 + e - 53) (3 - 1024 - 53) - e)%Z with 0%Z by lia.
  cbn [shr shr_record_of_loc shr_m].
  replace (e <=? 1024 - 53)%Z with true by (symmetry; apply Z.leb_le; lia).
  reflexivity.
Qed.

(** The binary64 number of a row count below 2^53 is the count itself,
    its mantissa shifted to 53 digits. *)
Lemma binary_normalize_exact :
  forall p : BinNums.positive,
    (Zpos p < 2 ^ 53)%Z ->
    exists (m : BinNums.positive) (e : Z),
      binary_normalize prec emax (Zpos p) 0 false = S754_finite false m e /\
      digits2_pos m = 53%positive /\ (-52 <= e <= 0)%Z /\
      (Zpos m = Zpos p * 2 ^ (- e))%Z.
Proof.
  intros p Hp.
  assert (Hd : (Zpos (digits2_pos p) <= 53)%Z).
  { destruct (Z.le_gt_cases (Zpos (digits2_pos p)) 53) as [H|H]; [exact H|].
    exfalso. pose proof (digits2_pos_bounds p) as [Hlo _].
    assert (2 ^ 53 <= 2 ^ (Zpos (digits2_pos p) - 1))%Z
      by (apply Z.pow_le_mono_r; lia).
    lia. }
  unfold binary_normalize, binary_round.
  unfold fexp at 1. unfold emin, prec, emax.
  replace (Z.max (Zpos (digits2_pos p) + 0 - 53) (3 - 1024 - 53))
    with (Zpos (digits2_pos p) - 53)%Z by lia.
  unfold shl_align.
  destruct (Zpos (digits2_pos p) - 53 - 0)%Z as [|k|k] eqn:Ek; try lia.
  - exists p, 0%Z. split; [|split; [|split]].
    + apply binary_round_aux_canonical; [lia | lia].
    + lia.
    + lia.
    + simpl. lia.
  - exists (Pos.iter xO p k), (Zpos (digits2_pos p) - 53)%Z.
    split; [|split; [|split]].
    + apply binary_round_aux_canonical; [|lia].
      rewrite digits2_pos_iter_xO. lia.
    + rewrite digits2_pos_iter_xO. lia.
    + lia.
    + rewrite Zpos_iter_xO. f_equal. f_equal. lia.
Qed.

(** Multiplying a normal number by 0.25 lowers its exponent by two. *)
Lemma shr_52 :
  forall m : BinNums.positive,
    SpecFloat.iter_pos shr_1 52 (Build_shr_record (Zpos (4503599627370496 * m)) false false)
    = Build_shr_record (Zpos m) false false.
Proof. intros m. vm_compute. reflexivity. Qed.

Lemma digits_times_2_52 :
  forall m : BinNums.positive,
    digits2_pos (4503599627370496 * m) = (digits2_pos m + 52)%positive.
Proof.
  intros m. change (4503599627370496 * m)%positive with (Pos.iter xO m 52).
  apply digits2_pos_iter_xO.
Qed.

Lemma SFmul_quarter :
  forall (m : BinNums.positive) (e : Z),
    digits2_pos m = 53%positive -> (-1072 <= e <= 973)%Z ->
    SFmul prec emax (S754_finite false 4503599627370496 (-54))
          (S754_finite false m e)
    = S754_finite false m (e - 2).
Proof.
  intros m e Hd He. unfold SFmul.
  unfold binary_round_aux, shr_fexp.
  cbn [Zdigits2]. rewrite digits_times_2_52, Hd.
  unfold fexp, emin, prec, emax.
  replace (Z.max (Zpos (53 + 52) + (-54 + e) - 53) (3 - 1024 - 53) - (-54 + e))%Z
    with 52%Z by lia.
  cbn [shr shr_record_of_loc].
  rewrite shr_52.
  cbn [shr_m loc_of_shr_record round_nearest_even Zdigits2 xorb].
  rewrite Hd.
  replace (Z.max (53 + (-54 + e + 52) - 53) (3 - 1024 - 53) - (-54 + e + 52))%Z
    with 0%Z by lia.
  cbn [shr shr_record_of_loc shr_m].
  replace (-54 + e + 52 <=? 1024 - 53)%Z with true by (symmetry; apply Z.leb_le; lia).
  f_equal. lia.
Qed.

(** [int(0.25 * n)] in binary64 is the quotient of [n] by 4: the product
    with a power of two is exact. *)
Lemma int_of_quarter :
  forall n : Z, (0 <= n < 2 ^ 53)%Z ->
    Chain.int (0.25 * Chain.float_of_int n)%float = Chain.Done (n / 4)%Z.
Proof.
  intros n Hn. unfold Chain.int, Chain.float_of_int.
  rewrite FloatAxioms.mul_spec, FloatAxioms.of_uint63_spec.
  rewrite Uint63.of_Z_spec.
  rewrite Z.mod_small by (unfold wB; simpl; lia).
  replace (Prim2SF 0.25%float) with (S754_finite false 4503599627370496 (-54))
    by (vm_compute; reflexivity).
  destruct n as [|p|p]; [reflexivity| |lia].
  destruct (binary_normalize_exact p) as (m & e & Enorm & Hd & He & Hm); [lia|].
  rewrite Enorm. unfold SF64mul. rewrite (SFmul_quarter m e Hd) by lia.
  destruct (e - 2)%Z as [|k|k] eqn:Ek; try lia.
  f_equal. rewrite Hm.
  replace (Zpos k) with (- e + 2)%Z by lia.
  rewrite Z.pow_add_r by lia. change (2 ^ 2)%Z with 4%Z.
  rewrite (Z.mul_comm (2 ^ (- e)) 4).
  rewrite Z.div_mul_cancel_r; [reflexivity | lia | ].
  assert (0 < 2 ^ (- e))%Z by (apply Z.pow_pos_nonneg; lia). lia.
Qed.

Lemma Qfloor_quarter :
  forall n : Z, Qfloor ((1 # 4) * inject_Z n) = (n / 4)%Z.
Proof.
  intros n. unfold Qfloor, Qmult, inject_Z. cbn [Qnum Qden].
  rewrite Z.mul_1_l. reflexivity.
Qed.

(** At the notebooks' fraction the rational [burn] is the number the
    binary64 product gives. *)
Lemma burn_quarter_is_binary64 :
  forall (row : Type) (chain : list row),
    (Z.of_nat (length chain) < 2 ^ 53)%Z ->
    Chain.int (0.25 * Chain.float_of_int (Z.of_nat (length chain)))%float
    = Chain.Done (burn (1 # 4) chain).
Proof.
  intros row chain Hn. rewrite int_of_quarter by lia. f_equal.
  unfold burn. rewrite py_int_floor_nonneg.
  - symmetry. apply Qfloor_quarter.
  - apply Qmult_le_0_compat; unfold Qle; simpl; lia.
Qed.

(** At a fraction that is not a binary64 number the two readings part:
    the binary64 number nearest to 0.29 times 100 rows gives 28, the
    rational 29/100 gives 29. *)
Lemma burn_rational_not_binary64 :
  Chain.int (0x1.28f5c28f5c28fp-2 * Chain.float_of_int 100)%float
  = Chain.Done 28%Z /\
  burn (29 # 100) (repeat tt 100) = 29%Z.
Proof. split; vm_compute; reflexivity. Qed.

Lemma loadtxt_two_axes :
  forall (file : list (list float)) (ncols : nat),
    (2 <= length file)%nat -> (2 <= ncols)%nat ->
    Forall (fun line => length line = ncols) file ->
    Chain.loadtxt file = Chain.Done (Chain.Array2 file) /\
    length (hd [] file) = ncols.
Proof.
  intros file ncols Hrows Hcols Hall.
  destruct file as [|first [|second rest]]; simpl in Hrows; try lia.
  pose proof (Forall_inv Hall) as Hfirst.
  pose proof (Forall_inv_tail Hall) as Hrest.
  split; [|exact Hfirst].
  unfold Chain.loadtxt.
  replace (forallb (fun line => (length line =? length first)%nat) (second :: rest))
    with true.
  - destruct first as [|x [|y first]]; simpl in Hfirst; try lia; reflexivity.
  - symmetry. apply forallb_forall. intros line Hin.
    apply Nat.eqb_eq. rewrite Hfirst.
    rewrite Forall_forall in Hrest. now apply Hrest.
Qed.

(** C4 (amended): the notebooks cut at the fraction 0.25.  For a chain file
    of at least two lines and two columns, [burn] is
    floor(0.25 * num_rows) and [chain[burn:, ind]] is column [ind] of the
    rows from that index on; a file of four lines keeps the lines at places
    1, 2, 3; and on a file without lines the cut raises [IndexError] and the
    draw [np.random.randint(burn, chain.shape[0])] raises [ValueError]. *)
Theorem chain_cut_suffix_from_floor :
  (forall (file : list (list float)) (ncols : nat) (ind : Z),
     (2 <= length file)%nat -> (Z.of_nat (length file) < 2 ^ 53)%Z ->
     (2 <= ncols)%nat -> Forall (fun line => length line = ncols) file ->
     (- Z.of_nat ncols <= ind < Z.of_nat ncols)%Z ->
     Chain.loadtxt file = Chain.Done (Chain.Array2 file) /\
     Chain.burn (Chain.Array2 file)
     = Chain.Done (Qfloor ((1 # 4) * inject_Z (Z.of_nat (length file)))) /\
     Chain.trim file ind
     = Chain.Done
         (map (fun row =>
                 nth (Z.to_nat (if (0 <=? ind)%Z then ind
                                else ind + Z.of_nat ncols)) row 0%float)
              (skipn (Z.to_nat (Qfloor ((1 # 4)
                                        * inject_Z (Z.of_nat (length file)))))
                     file)) /\
     forall r0 r1 r2 r3 : list float,
       file = [r0; r1; r2; r3] ->
       Chain.trim file ind
       = Chain.Done
           (map (fun row =>
                   nth (Z.to_nat (if (0 <=? ind)%Z then ind
                                  else ind + Z.of_nat ncols)) row 0%float)
                [r1; r2; r3])) /\
  (forall ind : Z, Chain.trim [] ind = Chain.Fail Chain.IndexError) /\
  (forall r : Z, Chain.draw [] r = Chain.Fail Chain.ValueError).
Proof.
  split; [|split; [reflexivity | reflexivity]].
  intros file ncols ind Hrows Hbig Hcols Hall Hind.
  destruct (loadtxt_two_axes file ncols Hrows Hcols Hall) as [Hload Hhd].
  assert (Hburn : Chain.burn (Chain.Array2 file)
                  = Chain.Done (Qfloor ((1 # 4)
                                        * inject_Z (Z.of_nat (length file))))).
  { unfold Chain.burn, Chain.shape0, Chain.and_then.
    rewrite int_of_quarter by lia. now rewrite Qfloor_quarter. }
  assert (Hstart : (0 <= Qfloor ((1 # 4) * inject_Z (Z.of_nat (length file))))%Z).
  { rewrite Qfloor_quarter. apply Z.div_pos; lia. }
  assert (Htrim :
    Chain.trim file ind
    = Chain.Done
        (map (fun row =>
                nth (Z.to_nat (if (0 <=? ind)%Z then ind
                               else ind + Z.of_nat ncols)) row 0%float)
             (skipn (Z.to_nat (Qfloor ((1 # 4)
                                       * inject_Z (Z.of_nat (length file)))))
                    file))).
  { unfold Chain.trim. rewrite Hload. unfold Chain.and_then at 1.
    rewrite Hburn. unfold Chain.and_then, Chain.cut. rewrite Hhd.
    rewrite (slice_from_nonneg _ _ _ Hstart).
    destruct (Z.leb_spec 0 ind) as [Hpos|Hneg].
    - replace (ind <? Z.of_nat ncols)%Z with true
        by (symmetry; apply Z.ltb_lt; lia).
      reflexivity.
    - replace (- Z.of_nat ncols <=? ind)%Z with true
        by (symmetry; apply Z.leb_le; lia).
      replace (ind <? 0)%Z with true by (symmetry; apply Z.ltb_lt; lia).
      reflexivity. }
  split; [exact Hload|]. split; [exact Hburn|]. split; [exact Htrim|].
  intros r0 r1 r2 r3 E. rewrite Htrim. subst file. reflexivity.
Qed.

Lemma chain_cut_suffix_from_floor_witness :
  Chain.loadtxt chain4 = Chain.Done (Chain.Array2 chain4) /\
  Chain.burn (Chain.Array2 chain4) = Chain.Done 1%Z /\
  Chain.trim chain4 (-1) = Chain.Done [f07; f3; f5] /\
  Chain.trim chain4 0 = Chain.Done [f5; f7; f10] /\
  Chain.trim [] 0 = Chain.Fail Chain.IndexError /\
  Chain.draw [] 7 = Chain.Fail Chain.ValueError.
Proof.
  assert (Hrows : (2 <= length chain4)%nat) by (simpl; lia).
  assert (Hbig : (Z.of_nat (length chain4) < 2 ^ 53)%Z) by (simpl; lia).
  assert (Hcols : (2 <= 2)%nat) by lia.
  assert (Hall : Forall (fun line : list float => length line = 2%nat) chain4)
    by (repeat constructor).
  destruct chain_cut_suffix_from_floor as (Hcut & Hnone & Hdraw).
  destruct (Hcut chain4 2%nat (-1)%Z Hrows Hbig Hcols Hall ltac:(lia))
    as (Hload & Hburn & Hlast & _).
  destruct (Hcut chain4 2%nat 0%Z Hrows Hbig Hcols Hall ltac:(lia))
    as (_ & _ & _ & Hfour).
  split; [exact Hload|]. split; [exact Hburn|]. split; [exact Hlast|].
  split; [exact (Hfour _ _ _ _ eq_refl)|].
  split; [apply Hnone | apply Hdraw].
Defined.

(** C4 as stated fails on a chain of one row, at the notebooks' fraction
    0.25, which is in [0,1): the claim promises the rows from index
    floor(0.25 * 1) = 0 on, which is the row itself, but [np.loadtxt] hands
    a file of one line back with one axis, [chain.shape[0]] is then its
    number of columns, and [chain[burn:, ind]] raises [IndexError]. *)
Lemma chain_cut_one_row_raises :
  length one_line_file = 1%nat /\
  Qfloor ((1 # 4) * inject_Z (Z.of_nat (length one_line_file))) = 0%Z /\
  Chain.loadtxt one_line_file = Chain.Done (Chain.Array1 [f3; f07; f5; f7; f10]) /\
  Chain.burn (Chain.Array1 [f3; f07; f5; f7; f10]) = Chain.Done 1%Z /\
  Chain.trim one_line_file 0 = Chain.Fail Chain.IndexError /\
  Chain.trim one_line_file (-5) = Chain.Fail Chain.IndexError.
Proof.
  repeat split; vm_compute; reflexivity.
Qed.
